(** * RISC-V simulator: paged virtual memory and the hart's execution loop

    A shallow embedding of [memory/virtual_mem.cpp] and
    [simulator/hart_impl.cpp].

    Conventions.
    - C++ unsigned integers ([uintptr_t], [uint64_t], [uint32_t], ...) are
      [Z] values; every operation that can leave the range is wrapped
      explicitly with [u64] (or the narrower truncations).
    - A method that mutates the [VirtualMem] object, throws, or calls
      [std::abort] is a computation in the monad [M]: it takes the backing
      store and yields an [outcome].
    - The host is little-endian (the [reinterpret_cast] accesses of the fast
      paths read and write the least significant byte at the lowest
      address). *)

From Stdlib Require Import ZArith Lia Bool List String.
From stdpp Require Import base option list strings gmap.

Local Open Scope Z_scope.

(** ** Fixed-width unsigned arithmetic *)

Definition u64 (z : Z) : Z := z mod 2 ^ 64.
Definition u32 (z : Z) : Z := z mod 2 ^ 32.
Definition u16 (z : Z) : Z := z mod 2 ^ 16.
Definition u8 (z : Z) : Z := z mod 2 ^ 8.

Definition is_u64 (z : Z) : Prop := 0 <= z < 2 ^ 64.

(** Modelled from the spec: the [TwoPow<N>()] helper is defined outside
    [virtual_mem.cpp].  The slow paths use it to split a value "into two
    halves of half the width", so [TwoPow<N>()] is the 64-bit constant
    [2^N]. *)
Definition TwoPow (n : Z) : Z := u64 (Z.shiftl 1 n).


(** ** The physical backing store: data *)

(** Modelled from the spec: the [Page] class is declared outside
    [virtual_mem.cpp].  A page is its storage of [SIZE] bytes together with
    [free_pointer], "offset marking the first unoccupied byte within the
    page; starts at 0", with the invariant
    [0 <= free_pointer <= PAGE_SIZE]. *)
Record Page := mkPage { mem_ : list Z; free_mem_ptr_ : Z }.

(** Modelled from the spec: the [PhysMem] class is declared outside
    [virtual_mem.cpp].  It owns "a collection of Pages keyed by page id; entries created
    on demand", and "total physical memory committed never exceeds a
    configured capacity ceiling". *)
Record PhysMem := mkPhysMem { pages_ : gmap Z Page; capacity_ : Z }.

(** [PhysMem::CreatePhysMem(16_GB)], as called by the constructor of
    [VirtualMem]. *)
Definition CreatePhysMem (capacity : Z) : PhysMem := mkPhysMem ∅ capacity.
Definition CreateVirtualMem : PhysMem := CreatePhysMem (16 * 2 ^ 30).

(** A raw [uint8_t *] into the storage of a page. *)
Record phys_ptr := PhysPtr { ptr_page : Z; ptr_offset : Z }.

(** The conditions the backing store and the loader signal by throwing
    [std::runtime_error], and the exception of the standard library for
    an allocation it refuses ([std::length_error] or [std::bad_alloc]),
    which is not a [std::runtime_error]. *)
Inductive exn :=
| PageFault
| CapacityExceeded
| RuntimeError (what : string)
| AllocationError.

Definition is_runtime_error (e : exn) : bool :=
  match e with
  | AllocationError => false
  | _ => true
  end.

(** One dereference of a physical pointer: its width in bytes, the pointer
    and, for a store, the value. *)
Inductive access :=
| Write (width : nat) (p : phys_ptr) (value : Z)
| Read (width : nat) (p : phys_ptr).

(** What a call does: it returns a value in a new state, having made the
    logged accesses; or an exception leaves it, with the state at the
    [throw]; or the process is gone after [std::abort()]; or the model ran
    out of loop iterations. *)
Inductive outcome (A : Type) :=
| Ok (a : A) (ram : PhysMem) (log : list access)
| Thrown (e : exn) (ram : PhysMem)
| Aborted
| OutOfFuel.
Arguments Ok {A} a ram log.
Arguments Thrown {A} e ram.
Arguments Aborted {A}.
Arguments OutOfFuel {A}.

Definition M (A : Type) : Type := PhysMem -> outcome A.

Definition ret {A} (a : A) : M A := fun ram => Ok a ram [].

Definition bind {A B} (m : M A) (f : A -> M B) : M B := fun ram =>
  match m ram with
  | Ok a ram1 log1 =>
      match f a ram1 with
      | Ok b ram2 log2 => Ok b ram2 (log1 ++ log2)
      | Thrown e ram2 => Thrown e ram2
      | Aborted => Aborted
      | OutOfFuel => OutOfFuel
      end
  | Thrown e ram1 => Thrown e ram1
  | Aborted => Aborted
  | OutOfFuel => OutOfFuel
  end.

Notation "x <- m ;; k" := (bind m (fun x => k))
  (at level 100, m at next level, right associativity).
Notation "m ;;; k" := (bind m (fun _ => k))
  (at level 100, right associativity).

Definition throw {A} (e : exn) : M A := fun ram => Thrown e ram.

(** [assert(cond)]: a failed assertion ends the process. *)
Definition assert_ (cond : bool) : M unit := fun ram =>
  if cond then Ok tt ram [] else Aborted.

(** [try { m } catch (const std::runtime_error &e) { ...; std::abort(); }] *)
Definition try_or_abort {A} (m : M A) : M A := fun ram =>
  match m ram with
  | Thrown e ram' => if is_runtime_error e then Aborted else Thrown e ram'
  | o => o
  end.

(** Modelled from the spec: [PhysMem::GetPage] is "fetch-or-fault on the
    page's existence".  The [Page *] it returns is the page's identifier
    here: the page is read and updated in the store through it. *)
Definition GetPage (page_id : Z) : M Z := fun ram =>
  match pages_ ram !! page_id with
  | Some _ => Ok page_id ram []
  | None => Thrown PageFault ram
  end.

(** Calls through a [Page *]. *)
Definition page_get {A} (page : Z) (f : Page -> A) : M A := fun ram =>
  match pages_ ram !! page with
  | Some pg => Ok (f pg) ram []
  | None => Aborted
  end.

Definition page_set (page : Z) (f : Page -> Page) : M unit := fun ram =>
  match pages_ ram !! page with
  | Some pg => Ok tt (mkPhysMem (<[page := f pg]> (pages_ ram)) (capacity_ ram)) []
  | None => Aborted
  end.

(** Little-endian byte images of unsigned values. *)
Fixpoint le_bytes (width : nat) (value : Z) : list Z :=
  match width with
  | O => []
  | S w => value mod 2 ^ 8 :: le_bytes w (value / 2 ^ 8)
  end.

Fixpoint le_value (bytes : list Z) : Z :=
  match bytes with
  | [] => 0
  | b :: bs => b + 2 ^ 8 * le_value bs
  end.

Fixpoint write_mem (offset : nat) (bytes : list Z) (mem : list Z) : list Z :=
  match bytes with
  | [] => mem
  | b :: bs => write_mem (S offset) bs (<[offset := b]> mem)
  end.

Definition read_mem (offset width : nat) (mem : list Z) : list Z :=
  take width (drop offset mem).

(** [*reinterpret_cast<uintN_t *>(p) = value] (and [*p = chr] for N = 1). *)
Definition deref_store (width : nat) (p : phys_ptr) (value : Z) : M unit :=
  fun ram =>
    match pages_ ram !! ptr_page p with
    | Some pg =>
        let mem := write_mem (Z.to_nat (ptr_offset p)) (le_bytes width value) (mem_ pg) in
        Ok tt (mkPhysMem (<[ptr_page p := mkPage mem (free_mem_ptr_ pg)]> (pages_ ram))
                         (capacity_ ram))
           [Write width p value]
    | None => Aborted
    end.

(** [*reinterpret_cast<uintN_t *>(p)] (and [*p] for N = 1). *)
Definition deref_load (width : nat) (p : phys_ptr) : M Z := fun ram =>
  match pages_ ram !! ptr_page p with
  | Some pg =>
      Ok (le_value (read_mem (Z.to_nat (ptr_offset p)) width (mem_ pg))) ram
         [Read width p]
  | None => Aborted
  end.


(** ** ELF images *)

(** Constants of [<elf.h>]. *)
Definition EI_MAG0 : nat := 0.
Definition EI_MAG1 : nat := 1.
Definition EI_MAG2 : nat := 2.
Definition EI_MAG3 : nat := 3.
Definition EI_CLASS : nat := 4.
Definition EI_DATA : nat := 5.
Definition ELFMAG0 : Z := 127.
Definition ELFMAG1 : Z := 69.
Definition ELFMAG2 : Z := 76.
Definition ELFMAG3 : Z := 70.
Definition ELFCLASS64 : Z := 2.
Definition ELFDATA2LSB : Z := 1.
Definition EM_RISCV : Z := 243.
Definition PT_LOAD : Z := 1.

(** The fields of [GElf_Ehdr] and [GElf_Phdr] the loader reads. *)
Record GElf_Ehdr := mkEhdr { e_ident : list Z; e_machine : Z; e_entry : Z }.

Record GElf_Phdr := mkPhdr {
  p_type : Z; p_offset : Z; p_vaddr : Z; p_filesz : Z; p_memsz : Z }.

(** What the operating system and libelf answer for a file name: whether
    [open], [elf_version] and [elf_begin] succeed, the header
    [gelf_getehdr] yields, the program header table ([None] when
    [elf_getphdrnum] fails, and [None] at the index where [gelf_getphdr]
    fails), the bytes of the file, the value [pread(fd, buf, count, offset)]
    returns for a [count] and an [offset], and the text of
    [elf_errmsg(-1)]. *)
Record ElfFile := mkElfFile {
  open_ok : bool;
  elf_version_ok : bool;
  elf_begin_ok : bool;
  gelf_getehdr : option GElf_Ehdr;
  program_headers : option (list (option GElf_Phdr));
  file_bytes : list Z;
  pread_ret : Z -> Z -> Z;
  elf_errmsg : string }.

(** The value of a [pread] that delivers what the file has: [count], or
    the number of bytes from [offset] to the end of the file if that is
    less. *)
Definition read_to_eof (bytes : list Z) (count offset : Z) : Z :=
  Z.min count (Z.max 0 (Z.of_nat (length bytes) - offset)).

(** The bytes a [pread(fd, buf, count, offset)] delivers: as many as it
    returns (none when it returns an error, never more than [count]), from
    the file at [offset], as far as the file has them. *)
Definition pread_data (file : ElfFile) (count offset : Z) : list Z :=
  take (Z.to_nat (Z.min (pread_ret file count offset) count))
       (drop (Z.to_nat offset) (file_bytes file)).

(** [pread(fd, buf, count, offset)] on the memory [buf] points to: the
    bytes delivered overwrite its start, the rest is as it was. *)
Definition pread (file : ElfFile) (buf : list Z) (count offset : Z) : list Z :=
  let data := pread_data file count offset in
  data ++ drop (length data) buf.

(** A [std::vector<uint8_t>]: the bytes of its allocation, [capacity()]
    many, of which the first [size()] are its elements.  A vector that
    has never allocated has no storage, and its [data()] is [nullptr]. *)
Record vector := mkVector { storage_ : list Z; size_ : nat }.

Definition empty_vector : vector := mkVector [] 0.

Definition vec_capacity (v : vector) : nat := length (storage_ v).

(** The elements of a vector are within its allocation. *)
Definition vector_ok (v : vector) : Prop := (size_ v <= vec_capacity v)%nat.

(** A [uint8_t *] to a buffer is [None] for [nullptr], and else the bytes
    it points to. *)
Definition vec_data (v : vector) : option (list Z) :=
  match storage_ v with
  | [] => None
  | _ :: _ => Some (storage_ v)
  end.

(** ** The hart: run modes and instrumentation output *)

(** The enumerators the [switch] of [RunImpl] names; [UNSUPPORTED] stands
    for any other value, which takes the [default] branch. *)
Inductive Mode := SIMPLE | BB | NONE | UNSUPPORTED.

(** The lines [RunImpl] writes to [std::cout]; the floating-point quotients
    are kept as their operands. *)
Inductive cout_line :=
| AmountOfExecutedInstructions (counter : Z)
| ExecutionTime (duration : Z)
| MIPS (counter duration : Z).

(** ** Inputs for the instances *)

(** A header of a 64-bit little-endian RISC-V image, and one of an x86-64
    image. *)
Definition riscv_ehdr : GElf_Ehdr := mkEhdr [127; 69; 76; 70; 2; 1; 1; 0] 243 16.
Definition x86_64_ehdr : GElf_Ehdr := mkEhdr [127; 69; 76; 70; 2; 1; 1; 0] 62 65536.

Definition x86_64_file : ElfFile :=
  mkElfFile true true true (Some x86_64_ehdr) (Some []) [] (read_to_eof []) "".

(** One LOAD header with [p_filesz = 2] above [p_memsz = 1]. *)
Definition short_memsz_phdr : GElf_Phdr := mkPhdr PT_LOAD 0 16 2 1.
Definition short_memsz_file : ElfFile :=
  mkElfFile true true true (Some riscv_ehdr) (Some [Some short_memsz_phdr]) [19; 5]
            (read_to_eof [19; 5]) "".

(** A PT_PHDR header followed by two LOAD headers. *)
Definition three_phdrs : list GElf_Phdr :=
  [mkPhdr 6 0 0 56 56; mkPhdr PT_LOAD 1 16 3 3; mkPhdr PT_LOAD 0 32 2 1].
Definition three_phdrs_file : ElfFile :=
  mkElfFile true true true (Some riscv_ehdr) (Some (Some <$> three_phdrs))
            [19; 5; 0; 147] (read_to_eof [19; 5; 0; 147]) "".

(** A hart whose state is its program counter: the fetch unit hands back
    the address, the decoder the raw word; [exec_straight] runs the five
    instructions at 4, 8, ..., 20, the last of which sets the program
    counter to 0; [exec_halt] sets it to 0 at once. *)
Definition pc_of (s : Z) : Z := s.
Definition fetch_at (s pc : Z) : Z := pc.
Definition decode_raw (raw : Z) : Z := raw.
Definition exec_straight (instr s : Z) : Z := if s =? 20 then 0 else s + 4.
Definition exec_halt (instr s : Z) : Z := 0.


(** A store whose only committed page is page 0, all zero, with 4 KiB
    pages; the same store after the byte 7 is stored at address 5; and
    after the bytes 19, 5, 0 are stored as a sequence at address 16. *)
Definition page_0_mem : PhysMem :=
  mkPhysMem {[0 := mkPage (replicate 4096 0) 0]} (16 * 2 ^ 30).
Definition page_0_with_byte : PhysMem :=
  mkPhysMem {[0 := mkPage (<[5%nat := 7]> (replicate 4096 0)) 0]} (16 * 2 ^ 30).
Definition page_0_with_sequence : PhysMem :=
  mkPhysMem {[0 := mkPage (<[18%nat := 0]> (<[17%nat := 5]> (<[16%nat := 19]>
                             (replicate 4096 0)))) 19]}
            (16 * 2 ^ 30).

(** A header of a 32-bit i386 image: the class and the machine both differ
    from what the loader supports. *)
Definition elf32_i386_ehdr : GElf_Ehdr := mkEhdr [127; 69; 76; 70; 1; 1; 1; 0] 3 0.

(** A name that cannot be opened. *)
Definition missing_file : ElfFile :=
  mkElfFile false false false None None [] (read_to_eof []) "".

(** A table of three program headers of which the second cannot be read,
    and the store after the LOAD segment of the first is stored. *)
Definition first_phdr : GElf_Phdr := mkPhdr PT_LOAD 0 16 2 2.
Definition third_phdr : GElf_Phdr := mkPhdr PT_LOAD 2 32 2 2.
Definition broken_table_file : ElfFile :=
  mkElfFile true true true (Some riscv_ehdr)
            (Some [Some first_phdr; None; Some third_phdr]) [19; 5; 0; 147]
            (read_to_eof [19; 5; 0; 147]) "invalid index".
Definition first_segment_stored : PhysMem :=
  mkPhysMem {[0 := mkPage (<[17%nat := 5]> (<[16%nat := 19]> (replicate 4096 0))) 18]}
            (16 * 2 ^ 30).

(** A file of four bytes whose table has, after a PT_PHDR header, a LOAD
    header for the four bytes from offset 2 on, of which the file has two;
    a second LOAD header follows. *)
Definition truncated_phdr : GElf_Phdr := mkPhdr PT_LOAD 2 32 4 4.
Definition truncated_table_file : ElfFile :=
  mkElfFile true true true (Some riscv_ehdr)
            (Some [Some (mkPhdr 6 0 0 56 56); Some truncated_phdr; Some first_phdr])
            [19; 5; 0; 147] (read_to_eof [19; 5; 0; 147]) "".
(** A standard library that doubles: a vector of [size] elements resized
    to [new_size] above its capacity gets the capacity
    [max (2 * size) new_size], and a size of [2^63] or more is refused.
    The spare bytes, indeterminate, are shown as 170. *)
Definition doubling_growth (size new_size : nat) : option (list Z) :=
  if Z.of_nat new_size <? 2 ^ 63
  then Some (replicate (Nat.max (2 * size) new_size - new_size) 170)
  else None.
(** ** Page geometry and address translation *)

Section Simulator.

(** [Page::OFFSET_BIT_LENGTH]: the number of low address bits that form
    the in-page offset.  Its value is declared with the [Page] class,
    outside [virtual_mem.cpp], so it is a parameter here. *)
Variable OFFSET_BIT_LENGTH : Z.
Hypothesis OBL_range : 0 < OFFSET_BIT_LENGTH < 64.

(** Modelled from the spec: [Page::SIZE], [Page::OFFSET_MASK] and
    [Page::ID_MASK] are declared with the [Page] class.  The spec
    splits a flat 64-bit address into a page identifier (high bits) and an
    in-page offset (low bits), so the page holds [2^OFFSET_BIT_LENGTH]
    bytes, the offset mask selects the low bits and the identifier mask
    is its 64-bit complement. *)
Definition SIZE : Z := Z.shiftl 1 OFFSET_BIT_LENGTH.
Definition OFFSET_MASK : Z := SIZE - 1.
Definition ID_MASK : Z := u64 (Z.lnot OFFSET_MASK).

Definition GetPointer (page_id page_offset : Z) : Z :=
  let addr := 0 in
  u64 (addr + u64 (u64 (Z.shiftl page_id OFFSET_BIT_LENGTH) + page_offset)).

Definition GetPageIdByAddress (addr : Z) : Z :=
  Z.shiftr (Z.land addr ID_MASK) OFFSET_BIT_LENGTH.

Definition GetPageOffsetByAddress (addr : Z) : Z :=
  Z.land addr OFFSET_MASK.


(** ** The physical backing store: pages of [SIZE] bytes *)

(** Modelled from the spec: the accessors of [Page].  [GetFreeMemoryPtr]
    and [SetFreeMemoryPtr] read and write [free_pointer] (the setter stores
    the value it is given); "derived: occupied_size = free_pointer,
    free_size = PAGE_SIZE - free_pointer" (an unsigned 64-bit
    difference).  A page starts zero-initialized with [free_pointer] 0. *)
Definition GetFreeMemoryPtr (page : Page) : Z := free_mem_ptr_ page.
Definition SetFreeMemoryPtr (ptr : Z) (page : Page) : Page :=
  mkPage (mem_ page) ptr.
Definition GetFreeMemorySize (page : Page) : Z := u64 (SIZE - free_mem_ptr_ page).
Definition GetOccupiedMemorySize (page : Page) : Z := free_mem_ptr_ page.

Definition new_page : Page := mkPage (replicate (Z.to_nat SIZE) 0) 0.

(** Modelled from the spec: [PhysMem::GetAddr<AllocPageIfNeeded>] "resolves
    a raw pointer into the physical page's storage for that page/offset.  If
    the page does not exist and allocate_if_missing is false, this is a page
    fault ...  If allocate_if_missing is true and the page is missing, the
    page is created and zero-initialized, then the address is returned";
    "exceeding [the ceiling] while allocating a new page is a fatal
    resource-exhaustion condition". *)
Definition GetAddr (AllocPageIfNeeded : bool) (page_id offset : Z) : M phys_ptr :=
  fun ram =>
    match pages_ ram !! page_id with
    | Some _ => Ok (PhysPtr page_id offset) ram []
    | None =>
        if AllocPageIfNeeded then
          if (Z.of_nat (size (pages_ ram)) + 1) * SIZE <=? capacity_ ram
          then Ok (PhysPtr page_id offset)
                  (mkPhysMem (<[page_id := new_page]> (pages_ ram)) (capacity_ ram)) []
          else Thrown CapacityExceeded ram
        else Thrown PageFault ram
    end.

(** Modelled from the spec: [PhysMem::AtOnePage(offset, size)] is "true iff
    [offset, offset+size) does not cross the page boundary". *)
Definition AtOnePage (offset size : Z) : bool := offset + size <=? SIZE.

(** ** VirtualMem *)

Definition GetPhysAddress (AllocPageIfNeeded : bool) (addr : Z) : M phys_ptr :=
  let page_id := GetPageIdByAddress addr in
  let offset := GetPageOffsetByAddress addr in
  GetAddr AllocPageIfNeeded page_id offset.

Definition GetPageByAddress (addr : Z) : M Z :=
  let page_id := GetPageIdByAddress addr in
  GetPage page_id.

Definition StoreByte (addr chr : Z) : M unit :=
  phys_addr <- try_or_abort (GetPhysAddress true addr) ;;
  deref_store 1 phys_addr chr.

Definition LoadByte (addr : Z) : M Z :=
  phys_addr <- try_or_abort (GetPhysAddress false addr) ;;
  deref_load 1 phys_addr.

(** The body of [for (uint64_t i = 0; i < length; ++i)] in
    [StoreByteSequence], for the [n] iterations that start at [i]. *)
Fixpoint store_loop (addr : Z) (chrs : list Z) (i : Z) (n : nat) : M unit :=
  match n with
  | O => ret tt
  | S n' =>
      StoreByte (u64 (addr + i)) (nth (Z.to_nat i) chrs 0) ;;;
      store_loop addr chrs (i + 1) n'
  end.

(** The [while (length != 0)] loop of [IncrementOccupiedValue]; [fuel]
    bounds the number of iterations. *)
Fixpoint IncrementOccupiedValue (fuel : nat) (addr length : Z) : M unit :=
  if length =? 0 then ret tt else
  match fuel with
  | O => fun _ => OutOfFuel
  | S fuel' =>
      page <- GetPageByAddress addr ;;
      let page_start := Z.land addr ID_MASK in
      assert_ (page_start <=? addr) ;;;
      unoccupied_mem <- page_get page GetFreeMemoryPtr ;;
      let rest (addr length : Z) : M unit :=
        free_mem_size <- page_get page GetFreeMemorySize ;;
        if length >? free_mem_size then
          page_set page (SetFreeMemoryPtr (u64 (unoccupied_mem + free_mem_size))) ;;;
          now_free <- page_get page GetFreeMemorySize ;;
          assert_ (now_free =? 0) ;;;
          now_occupied <- page_get page GetOccupiedMemorySize ;;
          assert_ (now_occupied =? SIZE) ;;;
          let length := u64 (length - free_mem_size) in
          let addr := u64 (addr + free_mem_size) in
          IncrementOccupiedValue fuel' addr length
        else
          page_set page (SetFreeMemoryPtr (u64 (unoccupied_mem + length))) ;;;
          let length := u64 (length - length) in
          let addr := u64 (addr + length) in
          IncrementOccupiedValue fuel' addr length
      in
      if addr <? unoccupied_mem then
        let length := u64 (length - Z.min length (u64 (unoccupied_mem - addr))) in
        let addr := unoccupied_mem in
        rest addr length
      else if addr >? unoccupied_mem then
        page_set page (SetFreeMemoryPtr addr) ;;;
        IncrementOccupiedValue fuel' addr length
      else rest addr length
  end.

(** [chrs] is the [uint8_t *] of the caller: [None] for [nullptr], else the
    bytes it points to. *)
Definition StoreByteSequence (fuel : nat) (addr : Z) (chrs : option (list Z))
    (length : Z) : M bool :=
  assert_ (match chrs with Some _ => true | None => false end) ;;;
  store_loop addr (default [] chrs) 0 (Z.to_nat length) ;;;
  IncrementOccupiedValue fuel addr length ;;;
  ret true.

(** The loop of [LoadByteSequence], for the [n] elements from index [i].
    The vector [arr(length)] is the list the loop builds; that the
    standard library grants its allocation is taken for granted. *)
Fixpoint load_loop (addr : Z) (i : Z) (n : nat) : M (list Z) :=
  match n with
  | O => ret []
  | S n' =>
      b <- LoadByte (u64 (addr + i)) ;;
      bs <- load_loop addr (i + 1) n' ;;
      ret (b :: bs)
  end.

Definition LoadByteSequence (addr length : Z) : M (list Z) :=
  load_loop addr 0 (Z.to_nat length).

Definition StoreTwoBytesFast (addr value : Z) : M unit :=
  (if AtOnePage (GetPageOffsetByAddress addr) 2
   then p <- GetPhysAddress true addr ;; deref_store 2 p value
   else ret tt) ;;;
  (* taking slower path *)
  let lower_value := u8 (Z.land value (TwoPow 8 - 1)) in
  let upper_value := u8 (Z.shiftr (Z.land value (Z.shiftl (TwoPow 8 - 1) 8)) 8) in
  StoreByte addr lower_value ;;;
  StoreByte (u64 (addr + 1)) upper_value.

Definition LoadTwoBytesFast (addr : Z) : M Z :=
  if AtOnePage (GetPageOffsetByAddress addr) 2
  then p <- GetPhysAddress false addr ;; deref_load 2 p
  else
    (* taking slower path *)
    let value := 0 in
    b0 <- LoadByte addr ;;
    let value := u16 (Z.lor value b0) in
    b1 <- LoadByte (u64 (addr + 1)) ;;
    let value := u16 (Z.lor value (Z.shiftl (u16 b1) 8)) in
    ret value.

Definition StoreFourBytesFast (addr value : Z) : M unit :=
  (if AtOnePage (GetPageOffsetByAddress addr) 4
   then p <- GetPhysAddress true addr ;; deref_store 4 p value
   else ret tt) ;;;
  (* taking slower path *)
  let lower_value := u16 (Z.land value (TwoPow 16 - 1)) in
  let upper_value := u16 (Z.shiftr (Z.land value (Z.shiftl (TwoPow 16 - 1) 16)) 16) in
  StoreTwoBytesFast addr lower_value ;;;
  StoreTwoBytesFast (u64 (addr + 2)) upper_value.

Definition LoadFourBytesFast (addr : Z) : M Z :=
  if AtOnePage (GetPageOffsetByAddress addr) 4
  then p <- GetPhysAddress false addr ;; deref_load 4 p
  else
    (* taking slower path *)
    let value := 0 in
    h0 <- LoadTwoBytesFast addr ;;
    let value := u32 (Z.lor value h0) in
    h1 <- LoadTwoBytesFast (u64 (addr + 2)) ;;
    let value := u32 (Z.lor value (u32 (Z.shiftl (u32 h1) 16))) in
    ret value.

Definition StoreEightBytesFast (addr value : Z) : M unit :=
  (if AtOnePage (GetPageOffsetByAddress addr) 8
   then p <- GetPhysAddress true addr ;; deref_store 8 p value
   else ret tt) ;;;
  (* taking slower path *)
  let lower_value := u32 (Z.land value (TwoPow 32 - 1)) in
  let upper_value := u32 (Z.shiftr (Z.land value (Z.shiftl (TwoPow 32 - 1) 32)) 32) in
  StoreFourBytesFast addr lower_value ;;;
  StoreFourBytesFast (u64 (addr + 4)) upper_value.

Definition LoadEightBytesFast (addr : Z) : M Z :=
  if AtOnePage (GetPageOffsetByAddress addr) 8
  then p <- GetPhysAddress false addr ;; deref_load 8 p
  else
    (* taking slower path *)
    let value := 0 in
    w0 <- LoadFourBytesFast addr ;;
    let value := u64 (Z.lor value w0) in
    w1 <- LoadFourBytesFast (u64 (addr + 4)) ;;
    let value := u64 (Z.lor value (u64 (Z.shiftl (u64 w1) 32))) in
    ret value.


(** *** The ELF loader *)

Definition checkHeaderField (actual expected : Z) (offset value : string) : M unit :=
  if negb (actual =? expected)
  then throw (RuntimeError
                (offset +:+ " != " +:+ value +:+ " in elf header we don't support it"))
  else ret tt.

Definition validateElfHeader (ehdr : GElf_Ehdr) : M unit :=
  checkHeaderField (nth EI_MAG0 (e_ident ehdr) 0) ELFMAG0 "e_ident[EI_MAG0]" "ELFMAG0" ;;;
  checkHeaderField (nth EI_MAG1 (e_ident ehdr) 0) ELFMAG1 "e_ident[EI_MAG1]" "ELFMAG1" ;;;
  checkHeaderField (nth EI_MAG2 (e_ident ehdr) 0) ELFMAG2 "e_ident[EI_MAG2]" "ELFMAG2" ;;;
  checkHeaderField (nth EI_MAG3 (e_ident ehdr) 0) ELFMAG3 "e_ident[EI_MAG3]" "ELFMAG3" ;;;
  checkHeaderField (nth EI_CLASS (e_ident ehdr) 0) ELFCLASS64 "e_ident[EI_CLASS]" "ELFCLASS64" ;;;
  checkHeaderField (nth EI_DATA (e_ident ehdr) 0) ELFDATA2LSB "e_ident[EI_DATA]" "ELFDATA2LSB" ;;;
  checkHeaderField (e_machine ehdr) EM_RISCV "e_machine" "EM_RISCV".

(** What the standard library does when a vector of [size] elements is
    resized to a [new_size] above its capacity is not fixed by the
    source: it refuses the allocation ([None]), or the new allocation has,
    beyond the [new_size] elements, some spare capacity, whose bytes are
    indeterminate. *)
Variable vector_growth : nat -> nat -> option (list Z).

(** [buff.resize(n)] for an [n] above the capacity: the elements move to
    a new allocation, the new elements are zero. *)
Definition resize (buff : vector) (n : Z) : M vector :=
  match vector_growth (size_ buff) (Z.to_nat n) with
  | None => throw AllocationError
  | Some spare =>
      ret (mkVector (take (size_ buff) (storage_ buff) ++
                     replicate (Z.to_nat n - size_ buff) 0 ++ spare)
                    (Z.to_nat n))
  end.

(** [pread(fd, buff.data(), count, offset)]: the value it returns is
    dropped. *)
Definition pread_into (file : ElfFile) (buff : vector) (count offset : Z) : vector :=
  mkVector (pread file (storage_ buff) count offset) (size_ buff).

(** The loop over the program headers in [StoreElfFile]; [buff] is the
    temporary buffer. *)
Fixpoint load_segments (fuel : nat) (file : ElfFile)
    (phdrs : list (option GElf_Phdr)) (buff : vector) : M unit :=
  match phdrs with
  | [] => ret tt
  | None :: _ =>
      throw (RuntimeError ("gelf_getphdr() failed: " +:+ elf_errmsg file))
  | Some phdr :: phdrs' =>
      if negb (p_type phdr =? PT_LOAD) then load_segments fuel file phdrs' buff
      else
        buff <- (if Z.of_nat (vec_capacity buff) <? p_filesz phdr
                 then resize buff (p_filesz phdr)
                 else ret buff) ;;
        let buff := pread_into file buff (p_filesz phdr) (p_offset phdr) in
        StoreByteSequence fuel (p_vaddr phdr) (vec_data buff) (p_filesz phdr) ;;;
        load_segments fuel file phdrs' buff
  end.

Definition StoreElfFile (fuel : nat) (name : string) (file : ElfFile) : M Z :=
  if negb (open_ok file)
  then throw (RuntimeError ("cannot open file failed " +:+ name)) else
  if negb (elf_version_ok file)
  then throw (RuntimeError
                ("ELF library initialization failed: " +:+ elf_errmsg file)) else
  if negb (elf_begin_ok file)
  then throw (RuntimeError ("elf_begin() failed " +:+ elf_errmsg file)) else
  match gelf_getehdr file with
  | None => throw (RuntimeError ("gelf_getehdr() failed " +:+ elf_errmsg file))
  | Some ehdr =>
      validateElfHeader ehdr ;;;
      match program_headers file with
      | None => throw (RuntimeError ("elf_getphdrnum() failed: " +:+ elf_errmsg file))
      | Some phdrs =>
          load_segments fuel file phdrs empty_vector ;;;
          ret (e_entry ehdr)
      end
  end.

(** ** The hart *)

(** The collaborators of the hart are outside the two source files: the
    state that the executor and the memory make up, the fetch unit, the
    decoder and the executor. *)
Variable HartState : Type.
Variable Instr : Type.
Variable getPC : HartState -> Z.
Variable loadInstr : HartState -> Z -> Z.
Variable DecodeInstr : Z -> Instr.
Variable executor_RunInstr : Instr -> HartState -> HartState.

(** The microseconds between the two readings of the clock in [RunImpl]. *)
Variable duration : Z.

(** What a run leaves behind: the state, the addresses handed to
    [fetch_.loadInstr] and the instructions handed to
    [executor_.RunInstr], in order. *)
Record run := mkRun {
  hart : HartState;
  fetched : list Z;
  executed : list Instr }.

Definition RunInstr (s : HartState) : Z * run :=
  if getPC s =? 0 then (1, mkRun s [] [])
  else
    let raw_instr := loadInstr s (getPC s) in
    let instr := DecodeInstr raw_instr in
    (0, mkRun (executor_RunInstr instr s) [getPC s] [instr]).

(** The [do ... while (executor_.getPC() != 0)] loop of [Mode::SIMPLE];
    [fuel] bounds the number of iterations. *)
Fixpoint simple_loop (fuel : nat) (r : run) (counter : Z) : option (run * Z) :=
  match fuel with
  | O => None
  | S fuel' =>
      let s := hart r in
      let raw_instr := loadInstr s (getPC s) in
      let instr := DecodeInstr raw_instr in
      let r' := mkRun (executor_RunInstr instr s)
                      (fetched r ++ [getPC s]) (executed r ++ [instr]) in
      let counter := u64 (counter + 1) in
      if negb (getPC (hart r') =? 0) then simple_loop fuel' r' counter
      else Some (r', counter)
  end.

Record run_output := mkOutput {
  result : run;
  cout : list cout_line;
  cerr : list string }.

Definition RunImpl (fuel : nat) (mode : Mode) (need_to_measure : bool)
    (s : HartState) : option run_output :=
  let counter := 0 in
  let after_switch :=
    match mode with
    | SIMPLE =>
        match simple_loop fuel (mkRun s [] []) counter with
        | Some (r, counter) => Some (r, counter, [])
        | None => None
        end
    | BB => Some (mkRun s [] [], counter, [])
    | NONE => Some (mkRun s [] [], counter, ["None mode is used"%string])
    | UNSUPPORTED => Some (mkRun s [] [], counter, ["Unsupported mode"%string])
    end in
  match after_switch with
  | None => None
  | Some (r, counter, err) =>
      Some (mkOutput r
              (if need_to_measure
               then [AmountOfExecutedInstructions counter;
                     ExecutionTime duration;
                     MIPS counter duration]
               else [])
              err)
  end.

(** ** Vocabulary of the properties *)

(** A call runs to completion: from [ram] it returns [a] in state [ram']. *)
Definition runs_to {A} (m : M A) (ram : PhysMem) (a : A) (ram' : PhysMem) : Prop :=
  exists log, m ram = Ok a ram' log.

(** Every committed page has its [SIZE] bytes of storage. *)
Definition wf (ram : PhysMem) : Prop :=
  forall page_id pg, pages_ ram !! page_id = Some pg ->
                     length (mem_ pg) = Z.to_nat SIZE.

(** The byte the store holds for an address, if its page is committed. *)
Definition cell (ram : PhysMem) (addr : Z) : option Z :=
  match pages_ ram !! GetPageIdByAddress addr with
  | Some pg => mem_ pg !! Z.to_nat (GetPageOffsetByAddress addr)
  | None => None
  end.

(** The ceiling leaves room for [n] more pages. *)
Definition has_room (n : nat) (ram : PhysMem) : Prop :=
  (Z.of_nat (size (pages_ ram)) + Z.of_nat n) * SIZE <= capacity_ ram.

(** A write access to the page succeeds: it is committed or can be. *)
Definition touchable (page_id : Z) (ram : PhysMem) : bool :=
  match pages_ ram !! page_id with
  | Some _ => true
  | None => (Z.of_nat (size (pages_ ram)) + 1) * SIZE <=? capacity_ ram
  end.

(** The store after the bytes of a page (committed first if need be) are
    changed by [f]. *)
Definition upd_page (page_id : Z) (f : list Z -> list Z) (ram : PhysMem) : PhysMem :=
  let pg := default new_page (pages_ ram !! page_id) in
  mkPhysMem (<[page_id := mkPage (f (mem_ pg)) (free_mem_ptr_ pg)]> (pages_ ram))
            (capacity_ ram).

(** The bytes [bs] are what the store holds from [addr] on. *)
Definition holds (ram : PhysMem) (addr : Z) (bs : list Z) : Prop :=
  forall i b, bs !! i = Some b -> cell ram (u64 (addr + Z.of_nat i)) = Some b.

Definition is_byte (b : Z) : Prop := 0 <= b < 2 ^ 8.

(** Single-byte stores of the bytes [bs] at consecutive addresses. *)
Fixpoint store_list (addr : Z) (bs : list Z) : M unit :=
  match bs with
  | [] => ret tt
  | b :: bs' => StoreByte addr b ;;; store_list (u64 (addr + 1)) bs'
  end.

(** The fields [validateElfHeader] compares, in its order: the value the
    header has, the value required, and the two names the error message is
    made of. *)
Definition header_checks (ehdr : GElf_Ehdr) : list (Z * Z * string * string) :=
  [ (nth EI_MAG0 (e_ident ehdr) 0, ELFMAG0, "e_ident[EI_MAG0]", "ELFMAG0");
    (nth EI_MAG1 (e_ident ehdr) 0, ELFMAG1, "e_ident[EI_MAG1]", "ELFMAG1");
    (nth EI_MAG2 (e_ident ehdr) 0, ELFMAG2, "e_ident[EI_MAG2]", "ELFMAG2");
    (nth EI_MAG3 (e_ident ehdr) 0, ELFMAG3, "e_ident[EI_MAG3]", "ELFMAG3");
    (nth EI_CLASS (e_ident ehdr) 0, ELFCLASS64, "e_ident[EI_CLASS]", "ELFCLASS64");
    (nth EI_DATA (e_ident ehdr) 0, ELFDATA2LSB, "e_ident[EI_DATA]", "ELFDATA2LSB");
    (e_machine ehdr, EM_RISCV, "e_machine", "EM_RISCV") ]%string.

Definition mismatch_message (offset value : string) : string :=
  offset +:+ " != " +:+ value +:+ " in elf header we don't support it".

Definition mismatched (check : Z * Z * string * string) : bool :=
  let '(actual, expected, _, _) := check in negb (actual =? expected).

(** The image is a 64-bit little-endian RISC-V ELF. *)
Definition header_matches (ehdr : GElf_Ehdr) : Prop :=
  forallb (fun check => negb (mismatched check)) (header_checks ehdr) = true.

Definition is_LOAD (phdr : GElf_Phdr) : bool := p_type phdr =? PT_LOAD.

(** The bytes [p_offset, p_offset + p_filesz) of the file. *)
Definition segment_bytes (file : ElfFile) (phdr : GElf_Phdr) : list Z :=
  take (Z.to_nat (p_filesz phdr)) (drop (Z.to_nat (p_offset phdr)) (file_bytes file)).

(** The loader gets the segment: the file has the bytes the program
    header names, [pread] delivers them all, and the standard library
    grants a buffer of that size. *)
Definition segment_in_file (file : ElfFile) (phdr : GElf_Phdr) : Prop :=
  0 <= p_offset phdr /\ 0 <= p_filesz phdr /\
  p_offset phdr + p_filesz phdr <= Z.of_nat (length (file_bytes file)) /\
  pread_ret file (p_filesz phdr) (p_offset phdr) = p_filesz phdr /\
  forall size, is_Some (vector_growth size (Z.to_nat (p_filesz phdr))).

(** The first of the program headers of type LOAD, if there is one, has
    bytes in the file: with it the temporary buffer is allocated. *)
Definition first_LOAD_has_bytes (phdrs : list GElf_Phdr) : Prop :=
  match filter is_LOAD phdrs with
  | [] => True
  | phdr :: _ => 0 < p_filesz phdr
  end.

(** What the loader is to do with the program headers, in the words of the
    interface description: "for every program header with type = LOAD:
    bytes [p_offset, p_offset+p_filesz) of the file are copied verbatim to
    virtual addresses [p_vaddr, p_vaddr+p_filesz)", through
    [StoreByteSequence]. *)
Fixpoint store_segments (fuel : nat) (file : ElfFile) (phdrs : list GElf_Phdr) : M unit :=
  match phdrs with
  | [] => ret tt
  | phdr :: phdrs' =>
      StoreByteSequence fuel (p_vaddr phdr) (Some (segment_bytes file phdr))
                        (p_filesz phdr) ;;;
      store_segments fuel file phdrs'
  end.

(** One fetch-decode-execute cycle on the state of the hart, and [n] of
    them. *)
Definition cycle (s : HartState) : HartState :=
  executor_RunInstr (DecodeInstr (loadInstr s (getPC s))) s.

Fixpoint cycles (n : nat) (s : HartState) : HartState :=
  match n with
  | O => s
  | S n' => cycles n' (cycle s)
  end.

(** Two states of the store with the same ceiling and the same bytes in
    the same pages (the free pointers may differ). *)
Definition same_bytes (ram ram' : PhysMem) : Prop :=
  capacity_ ram = capacity_ ram' /\
  forall page_id, mem_ <$> pages_ ram !! page_id = mem_ <$> pages_ ram' !! page_id.

(** The store with the free pointer of a page set to [ptr]. *)
Definition with_free_ptr (page_id : Z) (pg : Page) (ptr : Z) (ram : PhysMem) : PhysMem :=
  mkPhysMem (<[page_id := mkPage (mem_ pg) ptr]> (pages_ ram)) (capacity_ ram).

(** A call that leaves the store as it found it, whether it returns or
    throws. *)
Definition read_only {A} (m : M A) : Prop :=
  forall ram,
    match m ram with
    | Ok _ ram' _ => ram' = ram
    | Thrown _ ram' => ram' = ram
    | Aborted => True
    | OutOfFuel => True
    end.

(** A call that does not return and has stored nothing: the process is
    aborted, or an exception leaves the call with the store as it was. *)
Definition fails_without_storing {A} (m : M A) (ram : PhysMem) : Prop :=
  match m ram with
  | Ok _ _ _ => False
  | Thrown _ ram' => ram' = ram
  | Aborted => True
  | OutOfFuel => False
  end.

(** The pages committed in [ram] are committed in [ram']. *)
Definition pages_kept (ram ram' : PhysMem) : Prop :=
  forall page_id, is_Some (pages_ ram !! page_id) -> is_Some (pages_ ram' !! page_id).

(** [n] successive calls of [Hart::RunInstr] by a driver that goes on
    whatever they return: the values returned, and the run they add up
    to. *)
Fixpoint RunInstr_times (n : nat) (r : run) : list Z * run :=
  match n with
  | O => ([], r)
  | S n' =>
      let '(rc, step) := RunInstr (hart r) in
      let '(rcs, r') :=
        RunInstr_times n' (mkRun (hart step) (fetched r ++ fetched step)
                                 (executed r ++ executed step)) in
      (rc :: rcs, r')
  end.

(** The run after one more fetch-decode-execute cycle. *)
Definition advance (r : run) : run :=
  mkRun (cycle (hart r)) (fetched r ++ [getPC (hart r)])
        (executed r ++ [DecodeInstr (loadInstr (hart r) (getPC (hart r)))]).

(** The seven header fields have the values [validateElfHeader] asks for. *)
Definition supported_header (ehdr : GElf_Ehdr) : Prop :=
  nth EI_MAG0 (e_ident ehdr) 0 = ELFMAG0 /\
  nth EI_MAG1 (e_ident ehdr) 0 = ELFMAG1 /\
  nth EI_MAG2 (e_ident ehdr) 0 = ELFMAG2 /\
  nth EI_MAG3 (e_ident ehdr) 0 = ELFMAG3 /\
  nth EI_CLASS (e_ident ehdr) 0 = ELFCLASS64 /\
  nth EI_DATA (e_ident ehdr) 0 = ELFDATA2LSB /\
  e_machine ehdr = EM_RISCV.

(** The bytes [pread] delivers for a program header, followed by zeros up
    to [p_filesz] where it delivers fewer. *)
Definition padded_segment (file : ElfFile) (phdr : GElf_Phdr) : list Z :=
  pread_data file (p_filesz phdr) (p_offset phdr) ++
  replicate (Z.to_nat (p_filesz phdr) -
             length (pread_data file (p_filesz phdr) (p_offset phdr))) 0.
(** * Properties *)

(** ** Fixed-width arithmetic *)

Lemma u64_range z : is_u64 (u64 z).
Proof. unfold is_u64, u64. apply Z.mod_pos_bound. lia. Qed.

Lemma u64_small z : is_u64 z -> u64 z = z.
Proof. unfold is_u64, u64. intros. apply Z.mod_small. lia. Qed.

Lemma u64_idemp z : u64 (u64 z) = u64 z.
Proof. apply u64_small, u64_range. Qed.

Lemma u64_testbit z i : Z.testbit (u64 z) i = (i <? 64) && Z.testbit z i.
Proof. unfold u64. apply Z.testbit_mod_pow2. lia. Qed.

(** ** Address translation *)

Lemma SIZE_eq : SIZE = 2 ^ OFFSET_BIT_LENGTH.
Proof. unfold SIZE. rewrite Z.shiftl_1_l. reflexivity. Qed.

Lemma SIZE_pos : 2 <= SIZE.
Proof.
  rewrite SIZE_eq.
  change 2 with (2 ^ 1) at 1. apply Z.pow_le_mono_r; lia.
Qed.

Lemma SIZE_le : SIZE <= 2 ^ 63.
Proof. rewrite SIZE_eq. apply Z.pow_le_mono_r; lia. Qed.

Lemma OFFSET_MASK_ones : OFFSET_MASK = Z.ones OFFSET_BIT_LENGTH.
Proof. unfold OFFSET_MASK. rewrite SIZE_eq, Z.ones_equiv. lia. Qed.

Lemma ID_MASK_testbit i :
  0 <= i ->
  Z.testbit ID_MASK i = (OFFSET_BIT_LENGTH <=? i) && (i <? 64).
Proof.
  intros Hi. unfold ID_MASK.
  rewrite u64_testbit, Z.lnot_spec, OFFSET_MASK_ones by lia.
  destruct (Z.leb_spec OFFSET_BIT_LENGTH i).
  - rewrite Z.ones_spec_high by lia. simpl. apply andb_true_r.
  - rewrite Z.ones_spec_low by lia. simpl. apply andb_false_r.
Qed.

Lemma GetPageOffsetByAddress_mod addr :
  GetPageOffsetByAddress addr = addr mod SIZE.
Proof.
  unfold GetPageOffsetByAddress.
  rewrite OFFSET_MASK_ones, Z.land_ones, SIZE_eq by lia. reflexivity.
Qed.

Lemma GetPageIdByAddress_div addr :
  GetPageIdByAddress addr = u64 addr / SIZE.
Proof.
  unfold GetPageIdByAddress. rewrite SIZE_eq, <- Z.shiftr_div_pow2 by lia.
  apply Z.bits_inj'. intros i Hi.
  rewrite !Z.shiftr_spec, Z.land_spec, u64_testbit, ID_MASK_testbit by lia.
  destruct (Z.ltb_spec (i + OFFSET_BIT_LENGTH) 64);
    destruct (Z.leb_spec OFFSET_BIT_LENGTH (i + OFFSET_BIT_LENGTH));
    simpl; try lia; auto using andb_true_r, andb_false_r.
Qed.

Lemma GetPageOffsetByAddress_range addr :
  0 <= GetPageOffsetByAddress addr < SIZE.
Proof.
  rewrite GetPageOffsetByAddress_mod. apply Z.mod_pos_bound.
  pose proof SIZE_pos. lia.
Qed.

Lemma GetPageOffsetByAddress_u64 addr :
  GetPageOffsetByAddress (u64 addr) = GetPageOffsetByAddress addr.
Proof.
  rewrite !GetPageOffsetByAddress_mod. unfold u64.
  apply Z.mod_mod_divide. exists (2 ^ (64 - OFFSET_BIT_LENGTH)).
  rewrite SIZE_eq, <- Z.pow_add_r by lia. f_equal. lia.
Qed.

Lemma GetPageIdByAddress_u64 addr :
  GetPageIdByAddress (u64 addr) = GetPageIdByAddress addr.
Proof. rewrite !GetPageIdByAddress_div, u64_idemp. reflexivity. Qed.

Lemma GetPageIdByAddress_range addr :
  0 <= GetPageIdByAddress addr < 2 ^ (64 - OFFSET_BIT_LENGTH).
Proof.
  rewrite GetPageIdByAddress_div. pose proof (u64_range addr) as Hr.
  pose proof SIZE_pos. unfold is_u64 in Hr. split.
  - apply Z.div_pos; lia.
  - apply Z.div_lt_upper_bound; [lia|].
    rewrite SIZE_eq, <- Z.pow_add_r by lia.
    replace (OFFSET_BIT_LENGTH + (64 - OFFSET_BIT_LENGTH)) with 64 by lia.
    lia.
Qed.

Lemma GetPointer_eq page_id page_offset :
  GetPointer page_id page_offset = u64 (page_id * SIZE + page_offset).
Proof.
  unfold GetPointer. cbv zeta. rewrite Z.add_0_l, u64_idemp.
  unfold u64. rewrite Z.shiftl_mul_pow2, SIZE_eq by lia.
  rewrite Z.add_mod_idemp_l by lia. reflexivity.
Qed.

(** Recombining the two parts of an address gives the address back. *)
Lemma GetPointer_split addr :
  is_u64 addr ->
  GetPointer (GetPageIdByAddress addr) (GetPageOffsetByAddress addr) = addr.
Proof.
  intros Ha. rewrite GetPointer_eq, GetPageIdByAddress_div,
    GetPageOffsetByAddress_mod, (u64_small addr Ha).
  pose proof SIZE_pos.
  rewrite Z.mul_comm, <- Z.div_mod by lia. apply u64_small, Ha.
Qed.

Lemma GetPointer_in_range page_id page_offset :
  0 <= page_id < 2 ^ (64 - OFFSET_BIT_LENGTH) ->
  0 <= page_offset < SIZE ->
  is_u64 (page_id * SIZE + page_offset).
Proof.
  intros Hp Ho. unfold is_u64. split; [nia|].
  replace (2 ^ 64) with (2 ^ (64 - OFFSET_BIT_LENGTH) * SIZE).
  - nia.
  - rewrite SIZE_eq, <- Z.pow_add_r by lia. f_equal. lia.
Qed.

Lemma GetPageIdByAddress_GetPointer page_id page_offset :
  0 <= page_id < 2 ^ (64 - OFFSET_BIT_LENGTH) ->
  0 <= page_offset < SIZE ->
  GetPageIdByAddress (GetPointer page_id page_offset) = page_id.
Proof.
  intros Hp Ho. pose proof (GetPointer_in_range _ _ Hp Ho) as Hr.
  rewrite GetPointer_eq, GetPageIdByAddress_div, u64_idemp, (u64_small _ Hr).
  rewrite Z.add_comm, Z.div_add by lia. rewrite Z.div_small by lia. lia.
Qed.

Lemma GetPageOffsetByAddress_GetPointer page_id page_offset :
  0 <= page_offset < SIZE ->
  GetPageOffsetByAddress (GetPointer page_id page_offset) = page_offset.
Proof.
  intros Ho. rewrite GetPointer_eq, GetPageOffsetByAddress_u64,
    GetPageOffsetByAddress_mod.
  rewrite Z.add_comm, Z.mod_add by lia. apply Z.mod_small, Ho.
Qed.

(** Two 64-bit addresses with the same page and offset are equal. *)
Lemma translation_injective a b :
  is_u64 a -> is_u64 b ->
  GetPageIdByAddress a = GetPageIdByAddress b ->
  GetPageOffsetByAddress a = GetPageOffsetByAddress b ->
  a = b.
Proof.
  intros Ha Hb Hid Hoff.
  rewrite <- (GetPointer_split a Ha), <- (GetPointer_split b Hb).
  congruence.
Qed.

(** ** Halves of a value and little-endian images *)

(** Side conditions on powers of two. *)
Ltac pow2 :=
  first [ assumption
        | apply Z.pow_nonzero; lia
        | apply Z.pow_pos_nonneg; lia
        | lia ].

Lemma TwoPow_ones w : 0 <= w < 64 -> TwoPow w - 1 = Z.ones w.
Proof.
  intros Hw. unfold TwoPow. rewrite Z.shiftl_1_l, Z.ones_equiv.
  rewrite u64_small; [lia|]. unfold is_u64. split; [lia|].
  apply Z.pow_lt_mono_r; lia.
Qed.

(** [value & (TwoPow<w>() - 1)], converted to [w] bits. *)
Lemma lower_half w value :
  0 <= w < 64 ->
  Z.land value (TwoPow w - 1) mod 2 ^ w = value mod 2 ^ w.
Proof.
  intros Hw. rewrite TwoPow_ones, Z.land_ones by lia.
  apply Z.mod_mod. apply Z.pow_nonzero; lia.
Qed.

(** [(value & ((TwoPow<w>() - 1) << w)) >> w], converted to [w] bits. *)
Lemma upper_half w value :
  0 <= w < 64 ->
  Z.shiftr (Z.land value (Z.shiftl (TwoPow w - 1) w)) w mod 2 ^ w =
  (value / 2 ^ w) mod 2 ^ w.
Proof.
  intros Hw. rewrite TwoPow_ones by lia.
  rewrite Z.shiftr_land, Z.shiftr_shiftl_l, Z.sub_diag, Z.shiftl_0_r by lia.
  rewrite Z.land_ones, Z.shiftr_div_pow2 by lia.
  apply Z.mod_mod. apply Z.pow_nonzero; lia.
Qed.


Lemma length_le_bytes width : forall value, length (le_bytes width value) = width.
Proof. induction width as [|w IH]; intros value; simpl; [|rewrite IH]; reflexivity. Qed.

Lemma le_bytes_is_byte width : forall value,
  Forall is_byte (le_bytes width value).
Proof.
  induction width as [|w IH]; intros value; simpl; constructor.
  - unfold is_byte. apply Z.mod_pos_bound. lia.
  - apply IH.
Qed.

Lemma le_bytes_app n : forall m value,
  le_bytes (n + m) value = le_bytes n value ++ le_bytes m (value / 2 ^ (8 * Z.of_nat n)).
Proof.
  induction n as [|n IH]; intros m value.
  - simpl. rewrite Z.div_1_r. reflexivity.
  - change (S n + m)%nat with (S (n + m)). cbn [le_bytes app]. rewrite IH.
    assert (0 < 2 ^ (8 * Z.of_nat n)) by (apply Z.pow_pos_nonneg; lia).
    do 2 f_equal.
    replace (8 * Z.of_nat (S n)) with (8 + 8 * Z.of_nat n) by lia.
    rewrite Z.pow_add_r by lia. rewrite Z.div_div by pow2. reflexivity.
Qed.

Lemma le_bytes_mod n : forall value,
  le_bytes n (value mod 2 ^ (8 * Z.of_nat n)) = le_bytes n value.
Proof.
  induction n as [|n IH]; intros value; [reflexivity|].
  cbn [le_bytes].
  assert (0 < 2 ^ (8 * Z.of_nat n)) by (apply Z.pow_pos_nonneg; lia).
  replace (8 * Z.of_nat (S n)) with (8 + 8 * Z.of_nat n) by lia.
  rewrite Z.pow_add_r by lia. f_equal.
  - apply Z.mod_mod_divide. exists (2 ^ (8 * Z.of_nat n)). lia.
  - rewrite Z.rem_mul_r by pow2.
    rewrite (Z.add_comm (value mod 2 ^ 8)), Z.mul_comm, Z.div_add_l by pow2.
    rewrite (Z.div_small (value mod 2 ^ 8)) by (apply Z.mod_pos_bound; lia).
    rewrite Z.add_0_r. apply IH.
Qed.




(** C10 (as amended): address translation splits a 64-bit address into a
    page identifier and an in-page offset and back.  Recombining the parts
    of any 64-bit address [addr] with [GetPointer] gives [addr]; and for an
    offset within a page and a page identifier below
    [2^(64 - OFFSET_BIT_LENGTH)] (the identifiers 64-bit addresses have),
    splitting [GetPointer page_id offset] gives [page_id] and [offset]
    back. *)
Theorem translation_split_roundtrip addr page_id offset :
  is_u64 addr ->
  0 <= page_id < 2 ^ (64 - OFFSET_BIT_LENGTH) ->
  0 <= offset < SIZE ->
  GetPointer (GetPageIdByAddress addr) (GetPageOffsetByAddress addr) = addr /\
  GetPageIdByAddress (GetPointer page_id offset) = page_id /\
  GetPageOffsetByAddress (GetPointer page_id offset) = offset.
Proof.
  intros Ha Hp Ho. split; [|split].
  - apply GetPointer_split, Ha.
  - apply GetPageIdByAddress_GetPointer; assumption.
  - apply GetPageOffsetByAddress_GetPointer, Ho.
Qed.

(** A page identifier that needs more than [64 - OFFSET_BIT_LENGTH] bits
    does not survive [GetPointer]: the shift drops its high bits. *)
Lemma GetPointer_drops_high_bits page_id offset :
  2 ^ (64 - OFFSET_BIT_LENGTH) <= page_id ->
  GetPageIdByAddress (GetPointer page_id offset) <> page_id.
Proof.
  intros Hp Heq.
  pose proof (GetPageIdByAddress_range (GetPointer page_id offset)). lia.
Qed.

(** ** The monad *)

Lemma runs_to_ret {A} (a b : A) ram ram' :
  runs_to (ret a) ram b ram' <-> a = b /\ ram = ram'.
Proof.
  unfold runs_to, ret. split.
  - intros [log H]. inversion H. auto.
  - intros [-> ->]. eauto.
Qed.

Lemma runs_to_bind {A B} (m : M A) (f : A -> M B) ram b ram2 :
  runs_to (bind m f) ram b ram2 <->
  exists a ram1, runs_to m ram a ram1 /\ runs_to (f a) ram1 b ram2.
Proof.
  unfold runs_to, bind. split.
  - intros [log H]. destruct (m ram) as [a ram1 log1| | |]; try discriminate.
    destruct (f a ram1) as [b' ram2' log2| | |] eqn:Hf; try discriminate.
    inversion H; subst. exists a, ram1. split; eauto.
  - intros (a & ram1 & [log1 H1] & [log2 H2]). rewrite H1, H2. eauto.
Qed.

Lemma runs_to_det {A} (m : M A) ram a1 ram1 a2 ram2 :
  runs_to m ram a1 ram1 -> runs_to m ram a2 ram2 -> a1 = a2 /\ ram1 = ram2.
Proof. intros [l1 H1] [l2 H2]. rewrite H1 in H2. inversion H2. auto. Qed.

(** ** Bytes of a page *)

Lemma length_write_mem bs : forall off mem,
  length (write_mem off bs mem) = length mem.
Proof.
  induction bs as [|b bs IH]; intros off mem; simpl; [reflexivity|].
  rewrite IH. apply length_insert.
Qed.

Lemma write_mem_lookup_lt bs : forall off mem (i : nat),
  (i < off)%nat -> write_mem off bs mem !! i = mem !! i.
Proof.
  induction bs as [|b bs IH]; intros off mem i Hi; simpl; [reflexivity|].
  rewrite IH by lia. apply list_lookup_insert_ne. lia.
Qed.

Lemma write_mem_lookup_ge bs : forall off mem (i : nat),
  (off + length bs <= i)%nat -> write_mem off bs mem !! i = mem !! i.
Proof.
  induction bs as [|b bs IH]; intros off mem i Hi; simpl in *; [reflexivity|].
  rewrite IH by lia. apply list_lookup_insert_ne. lia.
Qed.

Lemma write_mem_lookup_in bs : forall off mem (j : nat),
  (off + length bs <= length mem)%nat -> (j < length bs)%nat ->
  write_mem off bs mem !! (off + j)%nat = bs !! j.
Proof.
  induction bs as [|b bs IH]; intros off mem j Hlen Hj; simpl in *; [lia|].
  destruct j as [|j].
  - rewrite Nat.add_0_r, write_mem_lookup_lt by lia.
    apply list_lookup_insert_eq. lia.
  - replace (off + S j)%nat with (S off + j)%nat by lia.
    apply IH; [rewrite length_insert|]; lia.
Qed.

Lemma write_mem_app bs1 : forall bs2 off mem,
  write_mem off (bs1 ++ bs2) mem =
  write_mem (off + length bs1) bs2 (write_mem off bs1 mem).
Proof.
  induction bs1 as [|b bs1 IH]; intros bs2 off mem; simpl.
  - rewrite Nat.add_0_r. reflexivity.
  - rewrite IH. f_equal. lia.
Qed.

(** Writing bytes a second time changes nothing. *)
Lemma write_mem_idemp bs off mem :
  (off + length bs <= length mem)%nat ->
  write_mem off bs (write_mem off bs mem) = write_mem off bs mem.
Proof.
  intros Hlen. apply list_eq. intros i.
  destruct (decide (i < off)%nat) as [Hlt|Hge].
  - rewrite !write_mem_lookup_lt by lia. reflexivity.
  - destruct (decide (off + length bs <= i)%nat) as [Hhi|Hin].
    + rewrite !write_mem_lookup_ge by lia. reflexivity.
    + replace i with (off + (i - off))%nat by lia.
      rewrite !write_mem_lookup_in; rewrite ?length_write_mem; try lia.
      reflexivity.
Qed.

Lemma read_mem_write_mem bs off mem :
  (off + length bs <= length mem)%nat ->
  read_mem off (length bs) (write_mem off bs mem) = bs.
Proof.
  intros Hlen. unfold read_mem. apply list_eq. intros j.
  destruct (decide (j < length bs)%nat) as [Hj|Hj].
  - rewrite lookup_take_lt, lookup_drop by lia.
    apply write_mem_lookup_in; lia.
  - rewrite lookup_take_ge by lia. symmetry. apply lookup_ge_None. lia.
Qed.


Lemma length_new_page : length (mem_ new_page) = Z.to_nat SIZE.
Proof. simpl. apply length_replicate. Qed.

(** ** Updating a page of the store *)

Lemma wf_upd_page page_id f ram :
  wf ram -> (forall mem, length (f mem) = length mem) ->
  wf (upd_page page_id f ram).
Proof.
  intros Hwf Hf pid pg. unfold upd_page. simpl.
  rewrite lookup_insert. case_decide as Heq.
  - intros [= <-]. simpl. rewrite Hf.
    destruct (pages_ ram !! page_id) as [pg0|] eqn:Hpg; simpl.
    + eapply Hwf, Hpg.
    + apply length_replicate.
  - apply Hwf.
Qed.

Lemma wf_CreatePhysMem capacity : wf (CreatePhysMem capacity).
Proof. intros pid pg. unfold CreatePhysMem. simpl. rewrite lookup_empty. discriminate. Qed.

Lemma upd_page_upd_page page_id f g ram :
  upd_page page_id g (upd_page page_id f ram) =
  upd_page page_id (fun mem => g (f mem)) ram.
Proof.
  unfold upd_page. simpl. rewrite lookup_insert_eq. simpl.
  rewrite insert_insert_eq. reflexivity.
Qed.

Lemma upd_page_ext page_id f g ram :
  (forall pg, default new_page (pages_ ram !! page_id) = pg -> f (mem_ pg) = g (mem_ pg)) ->
  upd_page page_id f ram = upd_page page_id g ram.
Proof. intros H. unfold upd_page. rewrite (H _ eq_refl). reflexivity. Qed.

Lemma touchable_upd_page page_id f ram :
  touchable page_id (upd_page page_id f ram) = true.
Proof. unfold touchable, upd_page. simpl. rewrite lookup_insert_eq. reflexivity. Qed.

Lemma size_upd_page page_id f ram :
  (size (pages_ (upd_page page_id f ram)) <= S (size (pages_ ram)))%nat.
Proof.
  unfold upd_page. simpl.
  destruct (pages_ ram !! page_id) as [pg|] eqn:Hpg.
  - rewrite map_size_insert_Some by (rewrite Hpg; eauto). lia.
  - rewrite map_size_insert_None by exact Hpg. lia.
Qed.

Lemma capacity_upd_page page_id f ram :
  capacity_ (upd_page page_id f ram) = capacity_ ram.
Proof. reflexivity. Qed.

Lemma has_room_touchable n page_id ram :
  has_room (S n) ram -> touchable page_id ram = true.
Proof.
  unfold has_room, touchable. intros H.
  destruct (pages_ ram !! page_id); [reflexivity|].
  apply Z.leb_le. pose proof SIZE_pos. nia.
Qed.

Lemma has_room_upd_page n page_id f ram :
  has_room (S n) ram -> has_room n (upd_page page_id f ram).
Proof.
  unfold has_room. intros H. rewrite capacity_upd_page.
  pose proof (size_upd_page page_id f ram). pose proof SIZE_pos. nia.
Qed.

Lemma cell_upd_page page_id f ram addr :
  cell (upd_page page_id f ram) addr =
  if decide (page_id = GetPageIdByAddress addr)
  then f (mem_ (default new_page (pages_ ram !! page_id)))
         !! Z.to_nat (GetPageOffsetByAddress addr)
  else cell ram addr.
Proof.
  unfold cell, upd_page. simpl. rewrite lookup_insert.
  case_decide; reflexivity.
Qed.

(** ** Single accesses *)

Lemma store_at_eq width addr value ram :
  (p <- GetPhysAddress true addr ;; deref_store width p value) ram =
  if touchable (GetPageIdByAddress addr) ram
  then Ok tt
         (upd_page (GetPageIdByAddress addr)
            (write_mem (Z.to_nat (GetPageOffsetByAddress addr)) (le_bytes width value))
            ram)
         [Write width (PhysPtr (GetPageIdByAddress addr) (GetPageOffsetByAddress addr)) value]
  else Thrown CapacityExceeded ram.
Proof.
  unfold bind, GetPhysAddress, GetAddr, deref_store, touchable, upd_page.
  destruct (pages_ ram !! GetPageIdByAddress addr) as [pg|] eqn:Hpg; simpl.
  - rewrite Hpg. reflexivity.
  - destruct (_ <=? _); [|reflexivity]. simpl.
    rewrite lookup_insert_eq. simpl. rewrite insert_insert_eq. reflexivity.
Qed.

Lemma StoreByte_eq addr chr ram :
  StoreByte addr chr ram =
  if touchable (GetPageIdByAddress addr) ram
  then Ok tt
         (upd_page (GetPageIdByAddress addr)
            (write_mem (Z.to_nat (GetPageOffsetByAddress addr)) [chr mod 2 ^ 8]) ram)
         [Write 1 (PhysPtr (GetPageIdByAddress addr) (GetPageOffsetByAddress addr)) chr]
  else Aborted.
Proof.
  unfold StoreByte, bind, try_or_abort, GetPhysAddress, GetAddr, deref_store,
    touchable, upd_page.
  destruct (pages_ ram !! GetPageIdByAddress addr) as [pg|] eqn:Hpg; simpl.
  - rewrite Hpg. reflexivity.
  - destruct (_ <=? _); [|reflexivity]. simpl.
    rewrite lookup_insert_eq. simpl. rewrite insert_insert_eq. reflexivity.
Qed.

Lemma StoreByte_u64 addr chr ram :
  StoreByte (u64 addr) chr ram = StoreByte addr chr ram.
Proof.
  rewrite !StoreByte_eq, GetPageIdByAddress_u64, GetPageOffsetByAddress_u64.
  reflexivity.
Qed.

Lemma load_at_eq width addr ram :
  (p <- GetPhysAddress false addr ;; deref_load width p) ram =
  match pages_ ram !! GetPageIdByAddress addr with
  | Some pg =>
      Ok (le_value (read_mem (Z.to_nat (GetPageOffsetByAddress addr)) width (mem_ pg)))
         ram
         [Read width (PhysPtr (GetPageIdByAddress addr) (GetPageOffsetByAddress addr))]
  | None => Thrown PageFault ram
  end.
Proof.
  unfold bind, GetPhysAddress, GetAddr, deref_load.
  destruct (pages_ ram !! GetPageIdByAddress addr) as [pg|] eqn:Hpg; simpl.
  - rewrite Hpg. reflexivity.
  - reflexivity.
Qed.

Lemma LoadByte_eq addr ram :
  LoadByte addr ram =
  match pages_ ram !! GetPageIdByAddress addr with
  | Some pg =>
      Ok (le_value (read_mem (Z.to_nat (GetPageOffsetByAddress addr)) 1 (mem_ pg)))
         ram
         [Read 1 (PhysPtr (GetPageIdByAddress addr) (GetPageOffsetByAddress addr))]
  | None => Aborted
  end.
Proof.
  unfold LoadByte, bind, try_or_abort, GetPhysAddress, GetAddr, deref_load.
  destruct (pages_ ram !! GetPageIdByAddress addr) as [pg|] eqn:Hpg; simpl.
  - rewrite Hpg. reflexivity.
  - reflexivity.
Qed.

Lemma LoadByte_u64 addr ram : LoadByte (u64 addr) ram = LoadByte addr ram.
Proof.
  rewrite !LoadByte_eq, GetPageIdByAddress_u64, GetPageOffsetByAddress_u64.
  reflexivity.
Qed.

(** With its page committed, a byte is loaded as the store holds it. *)
Lemma LoadByte_cell addr ram b :
  cell ram addr = Some b ->
  LoadByte addr ram =
  Ok b ram [Read 1 (PhysPtr (GetPageIdByAddress addr) (GetPageOffsetByAddress addr))].
Proof.
  unfold cell. rewrite LoadByte_eq.
  destruct (pages_ ram !! GetPageIdByAddress addr) as [pg|]; [|discriminate].
  intros Hb. unfold read_mem.
  rewrite (drop_S _ _ _ Hb). cbn [take le_value].
  rewrite Z.mul_0_r, Z.add_0_r. reflexivity.
Qed.

(** ** Bytes of the store *)

Lemma pow64_split : 2 ^ 64 = SIZE * 2 ^ (64 - OFFSET_BIT_LENGTH).
Proof. rewrite SIZE_eq, <- Z.pow_add_r by lia. f_equal. lia. Qed.

(** Addresses that follow [addr] within its page. *)
Lemma same_page_add addr j :
  0 <= j -> GetPageOffsetByAddress addr + j < SIZE ->
  GetPageIdByAddress (u64 (addr + j)) = GetPageIdByAddress addr /\
  GetPageOffsetByAddress (u64 (addr + j)) = GetPageOffsetByAddress addr + j.
Proof.
  intros Hj Hfit.
  rewrite <- (GetPageOffsetByAddress_u64 addr) in *.
  rewrite !GetPageIdByAddress_div, !GetPageOffsetByAddress_mod, u64_idemp in *.
  pose proof (u64_range addr) as Ha. unfold is_u64 in Ha.
  pose proof SIZE_pos as HS.
  pose proof (GetPageIdByAddress_range addr) as Hp.
  rewrite GetPageIdByAddress_div in Hp.
  pose proof (Z.div_mod (u64 addr) SIZE ltac:(lia)) as Hdm.
  pose proof (Z.mod_pos_bound (u64 addr) SIZE ltac:(lia)) as Hm.
  pose proof pow64_split as H64.
  remember (u64 addr / SIZE) as q eqn:Hq.
  remember (u64 addr mod SIZE) as r eqn:Hr.
  assert (Hsum : u64 (addr + j) = u64 addr + j).
  { unfold u64 at 1. rewrite <- Z.add_mod_idemp_l by lia. fold (u64 addr).
    apply Z.mod_small. nia. }
  rewrite Hsum. split; symmetry.
  - apply (Z.div_unique_pos _ SIZE _ (r + j)); lia.
  - apply (Z.mod_unique_pos _ SIZE q); lia.
Qed.

Lemma cell_u64 ram addr : cell ram (u64 addr) = cell ram addr.
Proof.
  unfold cell. rewrite GetPageIdByAddress_u64, GetPageOffsetByAddress_u64.
  reflexivity.
Qed.

Lemma offset_lt_length ram addr pg :
  wf ram -> pages_ ram !! GetPageIdByAddress addr = Some pg ->
  (Z.to_nat (GetPageOffsetByAddress addr) < length (mem_ pg))%nat.
Proof.
  intros Hwf Hpg. rewrite (Hwf _ _ Hpg).
  pose proof (GetPageOffsetByAddress_range addr). lia.
Qed.

Lemma length_default_page ram page_id :
  wf ram ->
  length (mem_ (default new_page (pages_ ram !! page_id))) = Z.to_nat SIZE.
Proof.
  intros Hwf. destruct (pages_ ram !! page_id) as [pg|] eqn:Hpg; simpl.
  - eapply Hwf, Hpg.
  - apply length_replicate.
Qed.

(** The bytes written into the page of [addr], read back. *)
Lemma cell_written ram addr bs (j : nat) b :
  wf ram ->
  GetPageOffsetByAddress addr + Z.of_nat (length bs) <= SIZE ->
  bs !! j = Some b ->
  cell (upd_page (GetPageIdByAddress addr)
          (write_mem (Z.to_nat (GetPageOffsetByAddress addr)) bs) ram)
       (u64 (addr + Z.of_nat j)) = Some b.
Proof.
  intros Hwf Hfit Hb. pose proof (lookup_lt_Some _ _ _ Hb) as Hj.
  pose proof (GetPageOffsetByAddress_range addr) as Ho.
  destruct (same_page_add addr (Z.of_nat j)) as [Hpid Hoff]; [lia|lia|].
  rewrite cell_upd_page, Hpid, Hoff. rewrite decide_True by reflexivity.
  replace (Z.to_nat (GetPageOffsetByAddress addr + Z.of_nat j))
    with (Z.to_nat (GetPageOffsetByAddress addr) + j)%nat by lia.
  rewrite write_mem_lookup_in; [exact Hb| |lia].
  rewrite length_default_page by assumption. lia.
Qed.

(** A byte the store holds elsewhere stays when a byte is written. *)
Lemma cell_frame ram addr addr' chr b :
  wf ram -> is_u64 addr -> is_u64 addr' -> addr <> addr' ->
  cell ram addr' = Some b ->
  cell (upd_page (GetPageIdByAddress addr)
          (write_mem (Z.to_nat (GetPageOffsetByAddress addr)) [chr]) ram)
       addr' = Some b.
Proof.
  intros Hwf Ha Ha' Hne Hb. rewrite cell_upd_page. case_decide as Hpid.
  - unfold cell in Hb. rewrite <- Hpid in Hb.
    destruct (pages_ ram !! GetPageIdByAddress addr) as [pg|]; [|discriminate].
    simpl. rewrite list_lookup_insert_ne; [exact Hb|].
    intros Hoff. apply Hne.
    pose proof (GetPageOffsetByAddress_range addr).
    pose proof (GetPageOffsetByAddress_range addr').
    apply translation_injective; [assumption|assumption|congruence|lia].
  - exact Hb.
Qed.

Lemma wf_StoreByte addr chr ram ram' :
  wf ram -> runs_to (StoreByte addr chr) ram tt ram' -> wf ram'.
Proof.
  intros Hwf [log H]. rewrite StoreByte_eq in H.
  destruct (touchable _ ram); [|discriminate]. inversion H; subst.
  apply wf_upd_page; [assumption|]. intros mem. apply (length_write_mem [_]).
Qed.

(** [StoreByte] completes exactly when the page is committed or the ceiling
    leaves room for it; otherwise the process is aborted. *)
Lemma StoreByte_runs addr chr ram (u : unit) ram' :
  runs_to (StoreByte addr chr) ram u ram' <->
  touchable (GetPageIdByAddress addr) ram = true /\
  ram' = upd_page (GetPageIdByAddress addr)
           (write_mem (Z.to_nat (GetPageOffsetByAddress addr)) [chr mod 2 ^ 8]) ram.
Proof.
  destruct u. unfold runs_to. rewrite StoreByte_eq.
  destruct (touchable _ ram); split.
  - intros [log H]. inversion H. auto.
  - intros [_ ->]. eauto.
  - intros [log H]. discriminate.
  - intros [H _]. discriminate.
Qed.

Lemma StoreByte_aborts addr chr ram :
  touchable (GetPageIdByAddress addr) ram = false ->
  StoreByte addr chr ram = Aborted.
Proof. intros H. rewrite StoreByte_eq, H. reflexivity. Qed.

Lemma LoadByte_runs addr ram b :
  cell ram addr = Some b -> runs_to (LoadByte addr) ram b ram.
Proof. intros H. unfold runs_to. rewrite (LoadByte_cell _ _ _ H). eauto. Qed.

(** C4: for every address and every byte value, [LoadByte] after
    [StoreByte] at the same address returns the value stored.  ([StoreByte]
    completes when the page of the address is committed or the capacity
    ceiling leaves room to commit it.) *)
Theorem StoreByte_LoadByte_roundtrip ram addr v :
  wf ram -> is_byte v ->
  touchable (GetPageIdByAddress addr) ram = true ->
  exists ram', runs_to (StoreByte addr v) ram tt ram' /\
               runs_to (LoadByte addr) ram' v ram'.
Proof.
  intros Hwf Hv Ht. eexists. split.
  - apply StoreByte_runs. split; [exact Ht|reflexivity].
  - apply LoadByte_runs. rewrite <- cell_u64.
    replace (u64 addr) with (u64 (addr + Z.of_nat 0)) by (f_equal; simpl; lia).
    apply cell_written; [assumption| |].
    + pose proof (GetPageOffsetByAddress_range addr). simpl. lia.
    + simpl. f_equal. apply Z.mod_small, Hv.
Qed.

(** ** Sequences of single-byte stores *)

Lemma u64_add_u64_l a b : u64 (u64 a + b) = u64 (a + b).
Proof. unfold u64. apply Z.add_mod_idemp_l. lia. Qed.

(** Distinct offsets below [2^64] give distinct 64-bit addresses. *)
Lemma u64_add_ne addr d : 0 < d < 2 ^ 64 -> u64 (addr + d) <> u64 addr.
Proof.
  intros Hd Heq.
  assert (H : (addr + d - addr) mod 2 ^ 64 = 0).
  { rewrite Zminus_mod. unfold u64 in Heq. rewrite Heq, Z.sub_diag.
    reflexivity. }
  replace (addr + d - addr) with d in H by lia.
  rewrite Z.mod_small in H by lia. lia.
Qed.

Lemma store_list_u64 bs addr ram :
  store_list (u64 addr) bs ram = store_list addr bs ram.
Proof.
  destruct bs as [|b bs]; [reflexivity|].
  cbn [store_list]. unfold bind. rewrite StoreByte_u64, u64_add_u64_l.
  reflexivity.
Qed.

(** The loop of [StoreByteSequence] stores the bytes it is handed. *)
Lemma store_loop_store_list chrs addr n : forall i ram,
  0 <= i -> (Z.to_nat i + n <= length chrs)%nat ->
  store_loop addr chrs i n ram =
  store_list (u64 (addr + i)) (take n (drop (Z.to_nat i) chrs)) ram.
Proof.
  induction n as [|n IH]; intros i ram Hi Hlen.
  - reflexivity.
  - destruct (lookup_lt_is_Some_2 chrs (Z.to_nat i)) as [x Hx]; [lia|].
    rewrite (drop_S _ _ _ Hx). cbn [store_loop take store_list].
    rewrite (nth_lookup_Some _ _ _ _ Hx). unfold bind.
    destruct (StoreByte (u64 (addr + i)) x ram) as [[] ram1 log1| | |];
      try reflexivity.
    rewrite IH by lia. rewrite u64_add_u64_l.
    replace (Z.to_nat (i + 1)) with (S (Z.to_nat i)) by lia.
    replace (addr + (i + 1)) with (addr + i + 1) by lia. reflexivity.
Qed.


Lemma wf_store_list bs : forall addr ram ram',
  wf ram -> runs_to (store_list addr bs) ram tt ram' -> wf ram'.
Proof.
  induction bs as [|b bs IH]; intros addr ram ram' Hwf Hrun.
  - apply runs_to_ret in Hrun as [_ <-]. exact Hwf.
  - cbn [store_list] in Hrun.
    apply runs_to_bind in Hrun as ([] & ram1 & H1 & H2).
    eapply IH; [|exact H2]. eapply wf_StoreByte; eassumption.
Qed.

Lemma store_list_app bs1 : forall bs2 addr ram ram',
  runs_to (store_list addr (bs1 ++ bs2)) ram tt ram' <->
  exists ram1, runs_to (store_list addr bs1) ram tt ram1 /\
               runs_to (store_list (u64 (addr + Z.of_nat (length bs1))) bs2) ram1 tt ram'.
Proof.
  induction bs1 as [|b bs1 IH]; intros bs2 addr ram ram'.
  - cbn [app length store_list]. simpl (Z.of_nat 0). rewrite Z.add_0_r.
    unfold runs_to at 3. setoid_rewrite store_list_u64. split.
    + intros H. exists ram. split; [apply runs_to_ret; auto|exact H].
    + intros (ram1 & H1 & H2). apply runs_to_ret in H1 as [_ ->]. exact H2.
  - cbn [app length store_list]. rewrite runs_to_bind. split.
    + intros ([] & ram1 & H1 & H2). apply IH in H2 as (ram2 & H2 & H3).
      exists ram2. split.
      * apply runs_to_bind. exists tt, ram1. auto.
      * rewrite u64_add_u64_l in H3.
        replace (addr + Z.of_nat (S (length bs1)))
          with (addr + 1 + Z.of_nat (length bs1)) by lia. exact H3.
    + intros (ram2 & H1 & H3). apply runs_to_bind in H1 as ([] & ram1 & H1 & H2).
      exists tt, ram1. split; [exact H1|]. apply IH. exists ram2. split; [exact H2|].
      rewrite u64_add_u64_l.
      replace (addr + 1 + Z.of_nat (length bs1))
        with (addr + Z.of_nat (S (length bs1))) by lia. exact H3.
Qed.


(** Bytes stored within one page: one update of that page. *)
Lemma store_list_fits bs : forall addr ram ram',
  bs <> [] -> Forall is_byte bs ->
  GetPageOffsetByAddress addr + Z.of_nat (length bs) <= SIZE ->
  runs_to (store_list addr bs) ram tt ram' <->
  touchable (GetPageIdByAddress addr) ram = true /\
  ram' = upd_page (GetPageIdByAddress addr)
           (write_mem (Z.to_nat (GetPageOffsetByAddress addr)) bs) ram.
Proof.
  induction bs as [|b bs IH]; intros addr ram ram' Hne Hbs Hfit; [congruence|].
  inversion Hbs as [|? ? Hb Hbs']; subst.
  pose proof (GetPageOffsetByAddress_range addr) as Ho.
  cbn [store_list length] in *. rewrite runs_to_bind.
  setoid_rewrite StoreByte_runs. rewrite (Z.mod_small b) by exact Hb.
  destruct bs as [|b' bs].
  - cbn [store_list]. setoid_rewrite runs_to_ret. split.
    + intros ([] & ram1 & [Ht ->] & _ & <-). auto.
    + intros [Ht ->]. eexists tt, _. auto.
  - destruct (same_page_add addr 1) as [Hpid Hoff]; [lia|simpl in Hfit; lia|].
    setoid_rewrite IH; [|congruence|assumption|rewrite Hoff; simpl in *; lia].
    rewrite Hpid, Hoff. split.
    + intros ([] & ram1 & [Ht ->] & _ & ->). split; [exact Ht|].
      rewrite upd_page_upd_page. apply upd_page_ext. intros pg _.
      cbn [write_mem]. do 2 f_equal; lia.
    + intros [Ht ->]. eexists tt, _. split; [split; [exact Ht|reflexivity]|].
      split; [apply touchable_upd_page|].
      rewrite upd_page_upd_page. apply upd_page_ext. intros pg _.
      cbn [write_mem]. do 2 f_equal; lia.
Qed.

(** ** What the store holds after a sequence of stores *)

Lemma holds_nil ram addr : holds ram addr [].
Proof. intros i b H. rewrite lookup_nil in H. discriminate. Qed.


Lemma holds_u64 ram addr bs : holds ram (u64 addr) bs <-> holds ram addr bs.
Proof.
  unfold holds. split; intros H i b Hb; specialize (H i b Hb);
    rewrite u64_add_u64_l in *; exact H.
Qed.

Lemma store_list_holds bs : forall addr ram ram',
  wf ram -> Forall is_byte bs -> Z.of_nat (length bs) <= 2 ^ 64 ->
  runs_to (store_list addr bs) ram tt ram' ->
  holds ram' addr bs /\
  (forall x c, is_u64 x ->
     (forall j, (j < length bs)%nat -> x <> u64 (addr + Z.of_nat j)) ->
     cell ram x = Some c -> cell ram' x = Some c).
Proof.
  induction bs as [|b bs IH]; intros addr ram ram' Hwf Hbs Hlen Hrun.
  - apply runs_to_ret in Hrun as [_ <-]. split; [apply holds_nil|auto].
  - inversion Hbs as [|? ? Hb Hbs']; subst. cbn [store_list length] in *.
    apply runs_to_bind in Hrun as ([] & ram1 & H1 & H2).
    pose proof (wf_StoreByte _ _ _ _ Hwf H1) as Hwf1.
    apply StoreByte_runs in H1 as [Ht ->].
    rewrite (Z.mod_small b) in * by exact Hb.
    destruct (IH _ _ _ Hwf1 Hbs' ltac:(lia) H2) as [Hholds Hframe].
    pose proof (GetPageOffsetByAddress_range addr) as Ho.
    split.
    + intros [|i] c Hc.
      * injection Hc as <-. apply Hframe.
        -- apply u64_range.
        -- intros j Hj. rewrite u64_add_u64_l. simpl (Z.of_nat 0).
           rewrite Z.add_0_r. replace (addr + 1 + Z.of_nat j)
             with (addr + (1 + Z.of_nat j)) by lia.
           intros Heq. symmetry in Heq. revert Heq. apply u64_add_ne. lia.
        -- apply (cell_written ram addr [b] 0 b); [assumption|simpl; lia|reflexivity].
      * specialize (Hholds i c Hc). rewrite u64_add_u64_l in Hholds.
        replace (addr + Z.of_nat (S i)) with (addr + 1 + Z.of_nat i) by lia.
        exact Hholds.
    + intros x c Hx Hdiff Hc. apply Hframe; [exact Hx| |].
      * intros j Hj. rewrite u64_add_u64_l.
        replace (addr + 1 + Z.of_nat j) with (addr + Z.of_nat (S j)) by lia.
        apply Hdiff. lia.
      * rewrite <- (GetPageIdByAddress_u64 addr), <- (GetPageOffsetByAddress_u64 addr).
        apply cell_frame; [assumption|apply u64_range|assumption| |assumption].
        specialize (Hdiff 0%nat ltac:(lia)). simpl (Z.of_nat 0) in Hdiff.
        rewrite Z.add_0_r in Hdiff. congruence.
Qed.




(** ** The multi-byte stores *)

Lemma runs_to_then_ret (m : M unit) ram ram' :
  runs_to (m ;;; ret tt) ram tt ram' <-> runs_to m ram tt ram'.
Proof.
  rewrite runs_to_bind. setoid_rewrite runs_to_ret. split.
  - intros ([] & ram1 & H & _ & <-). exact H.
  - intros H. exists tt, ram'. auto.
Qed.

Lemma upd_write_idemp ram page_id off bs :
  wf ram -> (off + length bs <= Z.to_nat SIZE)%nat ->
  upd_page page_id (write_mem off bs) (upd_page page_id (write_mem off bs) ram) =
  upd_page page_id (write_mem off bs) ram.
Proof.
  intros Hwf Hlen. rewrite upd_page_upd_page. apply upd_page_ext.
  intros pg <-. apply write_mem_idemp. rewrite length_default_page; assumption.
Qed.

(** The access of the fast path changes nothing that the stores which
    follow it do not write again: the missing [return] costs time, not
    correctness. *)
Lemma fast_prefix_absorbed (width : nat) addr value (X : M unit) ram ram' :
  (0 < width)%nat -> wf ram ->
  (forall r r', wf r ->
     runs_to X r tt r' <-> runs_to (store_list addr (le_bytes width value)) r tt r') ->
  runs_to ((if AtOnePage (GetPageOffsetByAddress addr) (Z.of_nat width)
            then p <- GetPhysAddress true addr ;; deref_store width p value
            else ret tt) ;;; X) ram tt ram' <->
  runs_to (store_list addr (le_bytes width value)) ram tt ram'.
Proof.
  intros Hw Hwf HX. rewrite runs_to_bind.
  pose proof (GetPageOffsetByAddress_range addr) as Ho.
  unfold AtOnePage. destruct (Z.leb_spec (GetPageOffsetByAddress addr + Z.of_nat width) SIZE)
    as [Hfit|Hcross].
  - assert (Hne : le_bytes width value <> []).
    { intros Hnil. apply (f_equal length) in Hnil.
      rewrite length_le_bytes in Hnil. simpl in Hnil. lia. }
    assert (Hfit' : GetPageOffsetByAddress addr +
                    Z.of_nat (length (le_bytes width value)) <= SIZE)
      by (rewrite length_le_bytes; exact Hfit).
    assert (Hidem : forall r, wf r ->
      upd_page (GetPageIdByAddress addr)
        (write_mem (Z.to_nat (GetPageOffsetByAddress addr)) (le_bytes width value))
        (upd_page (GetPageIdByAddress addr)
           (write_mem (Z.to_nat (GetPageOffsetByAddress addr)) (le_bytes width value)) r) =
      upd_page (GetPageIdByAddress addr)
        (write_mem (Z.to_nat (GetPageOffsetByAddress addr)) (le_bytes width value)) r).
    { intros r Hr. apply upd_write_idemp; [exact Hr|]. rewrite length_le_bytes. lia. }
    assert (Hwf' : forall r, wf r ->
      wf (upd_page (GetPageIdByAddress addr)
            (write_mem (Z.to_nat (GetPageOffsetByAddress addr)) (le_bytes width value)) r)).
    { intros r Hr. apply wf_upd_page; [exact Hr|]. intros mem.
      apply length_write_mem. }
    rewrite (store_list_fits _ addr ram ram' Hne (le_bytes_is_byte _ _) Hfit').
    split.
    + intros ([] & ram1 & [log1 H1] & H2). rewrite store_at_eq in H1.
      destruct (touchable (GetPageIdByAddress addr) ram) eqn:Ht; [|discriminate].
      injection H1 as <- _. split; [reflexivity|].
      apply HX in H2; [|apply Hwf', Hwf].
      apply store_list_fits in H2 as [_ ->]; try assumption;
        [|apply le_bytes_is_byte].
      apply Hidem, Hwf.
    + intros [Ht ->]. eexists tt, _. split.
      * unfold runs_to. rewrite store_at_eq, Ht. eauto.
      * apply HX; [apply Hwf', Hwf|].
        apply store_list_fits; try assumption; [apply le_bytes_is_byte|].
        split; [apply touchable_upd_page|]. symmetry. apply Hidem, Hwf.
  - setoid_rewrite runs_to_ret. split.
    + intros ([] & ram1 & [_ <-] & H2). apply HX; assumption.
    + intros H. exists tt, ram. split; [auto|]. apply HX; assumption.
Qed.

(** Two stores of half the width, one after the other, are the stores of
    the bytes of the whole value. *)
Lemma split_store (h : nat) (store_half : Z -> Z -> M unit) addr value lo hi :
  (forall a v r r', wf r ->
     runs_to (store_half a v) r tt r' <-> runs_to (store_list a (le_bytes h v)) r tt r') ->
  lo = value mod 2 ^ (8 * Z.of_nat h) ->
  hi = (value / 2 ^ (8 * Z.of_nat h)) mod 2 ^ (8 * Z.of_nat h) ->
  forall r r', wf r ->
    runs_to (store_half addr lo ;;; store_half (u64 (addr + Z.of_nat h)) hi) r tt r' <->
    runs_to (store_list addr (le_bytes (h + h) value)) r tt r'.
Proof.
  intros Hhalf -> -> r r' Hwf.
  rewrite le_bytes_app, store_list_app, runs_to_bind, length_le_bytes.
  rewrite <- (le_bytes_mod h value).
  rewrite <- (le_bytes_mod h (value / 2 ^ (8 * Z.of_nat h))).
  split.
  - intros ([] & r1 & H1 & H2). apply Hhalf in H1; [|exact Hwf].
    exists r1. split; [exact H1|]. apply Hhalf in H2; [exact H2|].
    eapply wf_store_list; eassumption.
  - intros (r1 & H1 & H2). exists tt, r1. split.
    + apply Hhalf; assumption.
    + apply Hhalf; [|exact H2]. eapply wf_store_list; eassumption.
Qed.

Lemma StoreByte_store_list addr value ram ram' :
  wf ram ->
  runs_to (StoreByte addr value) ram tt ram' <->
  runs_to (store_list addr (le_bytes 1 value)) ram tt ram'.
Proof.
  intros _. cbn [le_bytes store_list]. rewrite runs_to_then_ret, !StoreByte_runs.
  rewrite Z.mod_mod by lia. reflexivity.
Qed.

Lemma StoreTwoBytesFast_runs addr value ram ram' :
  wf ram ->
  runs_to (StoreTwoBytesFast addr value) ram tt ram' <->
  runs_to (store_list addr (le_bytes 2 value)) ram tt ram'.
Proof.
  intros Hwf. unfold StoreTwoBytesFast.
  apply (fast_prefix_absorbed 2); [lia|exact Hwf|].
  apply (split_store 1 StoreByte).
  - intros a v r r'. apply StoreByte_store_list.
  - unfold u8. apply (lower_half 8). lia.
  - unfold u8. apply (upper_half 8). lia.
Qed.

Lemma StoreFourBytesFast_runs addr value ram ram' :
  wf ram ->
  runs_to (StoreFourBytesFast addr value) ram tt ram' <->
  runs_to (store_list addr (le_bytes 4 value)) ram tt ram'.
Proof.
  intros Hwf. unfold StoreFourBytesFast.
  apply (fast_prefix_absorbed 4); [lia|exact Hwf|].
  apply (split_store 2 StoreTwoBytesFast).
  - intros a v r r'. apply StoreTwoBytesFast_runs.
  - unfold u16. apply (lower_half 16). lia.
  - unfold u16. apply (upper_half 16). lia.
Qed.

Lemma StoreEightBytesFast_runs addr value ram ram' :
  wf ram ->
  runs_to (StoreEightBytesFast addr value) ram tt ram' <->
  runs_to (store_list addr (le_bytes 8 value)) ram tt ram'.
Proof.
  intros Hwf. unfold StoreEightBytesFast.
  apply (fast_prefix_absorbed 8); [lia|exact Hwf|].
  apply (split_store 4 StoreFourBytesFast).
  - intros a v r r'. apply StoreFourBytesFast_runs.
  - unfold u32. apply (lower_half 32). lia.
  - unfold u32. apply (upper_half 32). lia.
Qed.

(** ** The multi-byte loads *)








(** ** Store, then load *)




(** ** Which accesses a store makes *)

Lemma bind_Ok {A B} (m : M A) (f : A -> M B) ram a ram1 log1 :
  m ram = Ok a ram1 log1 ->
  bind m f ram =
  match f a ram1 with
  | Ok b ram2 log2 => Ok b ram2 (log1 ++ log2)
  | Thrown e ram2 => Thrown e ram2
  | Aborted => Aborted
  | OutOfFuel => OutOfFuel
  end.
Proof. intros H. unfold bind. rewrite H. reflexivity. Qed.

Lemma bind_OutOfFuel {A B} (m : M A) (f : A -> M B) ram :
  m ram = OutOfFuel -> bind m f ram = OutOfFuel.
Proof. intros H. unfold bind. rewrite H. reflexivity. Qed.

(** A two-byte store that fits its page makes the two-byte access and then
    the two single-byte accesses of the slow path as well. *)
Lemma bind_Thrown {A B} (m : M A) (f : A -> M B) ram e ram' :
  m ram = Thrown e ram' -> bind m f ram = Thrown e ram'.
Proof. intros H. unfold bind. rewrite H. reflexivity. Qed.

Lemma bind_Aborted {A B} (m : M A) (f : A -> M B) ram :
  m ram = Aborted -> bind m f ram = Aborted.
Proof. intros H. unfold bind. rewrite H. reflexivity. Qed.

Lemma bind_Ok_nil {A B} (m : M A) (f : A -> M B) ram a :
  m ram = Ok a ram [] -> bind m f ram = f a ram.
Proof. intros H. unfold bind. rewrite H. destruct (f a ram); reflexivity. Qed.

(** Handed a buffer, [StoreByteSequence] passes its assertion. *)
Lemma bind_same_tail {A B} (m m' : M A) (f : A -> M B) ram :
  m ram = m' ram -> bind m f ram = bind m' f ram.
Proof. intros H. unfold bind. rewrite H. reflexivity. Qed.

Lemma StoreByteSequence_non_null fuel addr chrs length ram :
  StoreByteSequence fuel addr (Some chrs) length ram =
  (store_loop addr chrs 0 (Z.to_nat length) ;;;
   IncrementOccupiedValue fuel addr length ;;;
   ret true) ram.
Proof.
  unfold StoreByteSequence. rewrite (bind_Ok_nil _ _ ram tt) by reflexivity.
  reflexivity.
Qed.

(** Handed [nullptr], it fails the assertion. *)
Lemma StoreByteSequence_null fuel addr length ram :
  StoreByteSequence fuel addr None length ram = Aborted.
Proof. reflexivity. Qed.

Lemma StoreByteSequence_runs fuel addr chrs length ram b ram' :
  runs_to (StoreByteSequence fuel addr chrs length) ram b ram' <->
  exists bytes,
    chrs = Some bytes /\
    runs_to (store_loop addr bytes 0 (Z.to_nat length) ;;;
             IncrementOccupiedValue fuel addr length ;;;
             ret true) ram b ram'.
Proof.
  unfold runs_to. destruct chrs as [bytes|].
  - rewrite StoreByteSequence_non_null. split.
    + intros H. exists bytes. split; [reflexivity|exact H].
    + intros (bytes' & [= <-] & H). exact H.
  - rewrite StoreByteSequence_null. split.
    + intros [log H]. discriminate.
    + intros (bytes & H & _). discriminate.
Qed.

Lemma StoreTwoBytesFast_fit_accesses addr value ram :
  AtOnePage (GetPageOffsetByAddress addr) 2 = true ->
  touchable (GetPageIdByAddress addr) ram = true ->
  exists ram',
    StoreTwoBytesFast addr value ram =
    Ok tt ram'
       [Write 2 (PhysPtr (GetPageIdByAddress addr) (GetPageOffsetByAddress addr)) value;
        Write 1 (PhysPtr (GetPageIdByAddress addr) (GetPageOffsetByAddress addr))
                (u8 (Z.land value (TwoPow 8 - 1)));
        Write 1 (PhysPtr (GetPageIdByAddress addr) (GetPageOffsetByAddress addr + 1))
                (u8 (Z.shiftr (Z.land value (Z.shiftl (TwoPow 8 - 1) 8)) 8))].
Proof.
  intros Hfit Ht. unfold StoreTwoBytesFast. rewrite Hfit.
  unfold AtOnePage in Hfit. apply Z.leb_le in Hfit.
  pose proof (GetPageOffsetByAddress_range addr) as Ho.
  destruct (same_page_add addr 1) as [Hpid Hoff]; [lia|lia|].
  erewrite bind_Ok by (rewrite store_at_eq, Ht; reflexivity).
  erewrite bind_Ok by (rewrite StoreByte_eq, touchable_upd_page; reflexivity).
  rewrite StoreByte_eq, Hpid, Hoff, touchable_upd_page. simpl. eauto.
Qed.

(** A two-byte load that fits its page makes the two-byte access only. *)
Lemma LoadTwoBytesFast_fit_accesses addr ram pg :
  AtOnePage (GetPageOffsetByAddress addr) 2 = true ->
  pages_ ram !! GetPageIdByAddress addr = Some pg ->
  exists value,
    LoadTwoBytesFast addr ram =
    Ok value ram
       [Read 2 (PhysPtr (GetPageIdByAddress addr) (GetPageOffsetByAddress addr))].
Proof.
  intros Hfit Hpg. unfold LoadTwoBytesFast. rewrite Hfit, load_at_eq, Hpg. eauto.
Qed.

(** A two-byte store that crosses into the next page makes the two
    single-byte accesses only. *)
Lemma StoreTwoBytesFast_cross_accesses addr value ram :
  AtOnePage (GetPageOffsetByAddress addr) 2 = false ->
  has_room 2 ram ->
  exists ram',
    StoreTwoBytesFast addr value ram =
    Ok tt ram'
       [Write 1 (PhysPtr (GetPageIdByAddress addr) (GetPageOffsetByAddress addr))
                (u8 (Z.land value (TwoPow 8 - 1)));
        Write 1 (PhysPtr (GetPageIdByAddress (u64 (addr + 1)))
                         (GetPageOffsetByAddress (u64 (addr + 1))))
                (u8 (Z.shiftr (Z.land value (Z.shiftl (TwoPow 8 - 1) 8)) 8))].
Proof.
  intros Hfit Hroom. unfold StoreTwoBytesFast. rewrite Hfit.
  erewrite bind_Ok by reflexivity.
  erewrite bind_Ok
    by (rewrite StoreByte_eq, (has_room_touchable 1 _ _ Hroom); reflexivity).
  rewrite StoreByte_eq.
  rewrite (has_room_touchable 0); [simpl; eauto|].
  apply has_room_upd_page, Hroom.
Qed.

(** ** Occupancy bookkeeping *)

Lemma GetPageIdByAddress_SIZE : GetPageIdByAddress SIZE = 1.
Proof.
  rewrite GetPageIdByAddress_div. pose proof SIZE_pos. pose proof SIZE_le.
  rewrite u64_small by (unfold is_u64; lia). apply Z.div_same. lia.
Qed.

Lemma gtb_true n m : m < n -> (n >? m) = true.
Proof. intros H. rewrite Z.gtb_ltb. apply Z.ltb_lt, H. Qed.

Lemma gtb_false n m : n <= m -> (n >? m) = false.
Proof. intros H. rewrite Z.gtb_ltb. apply Z.ltb_ge, H. Qed.

Lemma ltb_false n m : m <= n -> (n <? m) = false.
Proof. apply Z.ltb_ge. Qed.

Lemma land_le a b : 0 <= a -> Z.land a b <= a.
Proof.
  intros Ha.
  assert (Hdis : Z.land (Z.ldiff a b) (Z.land a b) = 0).
  { rewrite (Z.land_comm a b), Z.land_assoc, Z.land_ldiff. apply Z.land_0_l. }
  assert (Hnn : 0 <= Z.ldiff a b) by (apply Z.ldiff_nonneg; auto).
  rewrite <- (Z.lor_ldiff_and a b) at 2.
  rewrite <- Z.lxor_lor, <- Z.add_nocarry_lxor by exact Hdis. lia.
Qed.

Lemma land_ID_MASK_le addr : 0 <= addr -> (Z.land addr ID_MASK <=? addr) = true.
Proof. intros Ha. apply Z.leb_le, land_le, Ha. Qed.

(** Once the free pointer of page 1 is [SIZE], the walk from address
    [SIZE] makes no progress: the page has no free bytes, so neither the
    length nor the address changes. *)
Lemma IncrementOccupiedValue_spins fuel : forall ram pg length,
  pages_ ram !! 1 = Some pg -> free_mem_ptr_ pg = SIZE ->
  0 < length < 2 ^ 64 ->
  IncrementOccupiedValue fuel SIZE length ram = OutOfFuel.
Proof.
  pose proof SIZE_pos as HS. pose proof SIZE_le as HS'.
  induction fuel as [|fuel IH]; intros ram pg length Hpg Hfp Hlen;
    cbn [IncrementOccupiedValue];
    destruct (Z.eqb_spec length 0) as [|_]; try lia; [reflexivity|].
  unfold GetPageByAddress. rewrite GetPageIdByAddress_SIZE.
  erewrite bind_Ok by (unfold GetPage; rewrite Hpg; reflexivity).
  erewrite bind_Ok by (unfold assert_; rewrite land_ID_MASK_le by lia; reflexivity).
  erewrite bind_Ok by (unfold page_get; rewrite Hpg; reflexivity).
  unfold GetFreeMemoryPtr. rewrite Hfp, Z.ltb_irrefl.
  rewrite (gtb_false SIZE SIZE) by lia.
  erewrite bind_Ok by (unfold page_get; rewrite Hpg; reflexivity).
  unfold GetFreeMemorySize. rewrite Hfp, Z.sub_diag. change (u64 0) with 0.
  rewrite (gtb_true length 0) by lia.
  rewrite Z.add_0_r, Z.sub_0_r.
  rewrite !(u64_small SIZE), (u64_small length) by (unfold is_u64; lia).
  erewrite bind_Ok by (unfold page_set; rewrite Hpg; reflexivity).
  erewrite bind_Ok
    by (unfold page_get; cbn [pages_]; rewrite lookup_insert_eq; reflexivity).
  cbn [GetFreeMemorySize SetFreeMemoryPtr free_mem_ptr_].
  rewrite Z.sub_diag. change (u64 0 =? 0) with true.
  erewrite bind_Ok by reflexivity.
  erewrite bind_Ok
    by (unfold page_get; cbn [pages_]; rewrite lookup_insert_eq; reflexivity).
  cbn [GetOccupiedMemorySize SetFreeMemoryPtr free_mem_ptr_].
  rewrite Z.eqb_refl.
  erewrite bind_Ok by reflexivity.
  erewrite IH;
    [reflexivity|cbn [pages_]; apply lookup_insert_eq|reflexivity|lia].
Qed.

(** From a fresh page 1, the first iteration moves the free pointer up to
    the address, [SIZE], and the walk is stuck from there. *)
Lemma IncrementOccupiedValue_fresh_page_1 fuel ram pg length :
  pages_ ram !! 1 = Some pg -> free_mem_ptr_ pg = 0 ->
  0 < length < 2 ^ 64 ->
  IncrementOccupiedValue fuel SIZE length ram = OutOfFuel.
Proof.
  pose proof SIZE_pos as HS. pose proof SIZE_le as HS'.
  intros Hpg Hfp Hlen. destruct fuel as [|fuel];
    cbn [IncrementOccupiedValue];
    destruct (Z.eqb_spec length 0) as [|_]; try lia; [reflexivity|].
  unfold GetPageByAddress. rewrite GetPageIdByAddress_SIZE.
  erewrite bind_Ok by (unfold GetPage; rewrite Hpg; reflexivity).
  erewrite bind_Ok by (unfold assert_; rewrite land_ID_MASK_le by lia; reflexivity).
  erewrite bind_Ok by (unfold page_get; rewrite Hpg; reflexivity).
  unfold GetFreeMemoryPtr. rewrite Hfp.
  rewrite (ltb_false SIZE 0), (gtb_true SIZE 0) by lia.
  erewrite bind_Ok by (unfold page_set; rewrite Hpg; reflexivity).
  erewrite IncrementOccupiedValue_spins;
    [reflexivity|cbn [pages_]; apply lookup_insert_eq|reflexivity|lia].
Qed.

(** [StoreByteSequence] of one byte at the first address of page 1, when
    that page is not committed yet, does not return. *)
Lemma StoreByteSequence_page_1_stuck fuel ram chr :
  pages_ ram !! 1 = None -> touchable 1 ram = true ->
  StoreByteSequence fuel SIZE (Some [chr]) 1 ram = OutOfFuel.
Proof.
  pose proof SIZE_pos as HS. pose proof SIZE_le as HS'.
  intros Hnone Ht. rewrite StoreByteSequence_non_null.
  change (Z.to_nat 1) with 1%nat. cbn [store_loop].
  erewrite bind_Ok.
  2:{ erewrite bind_Ok.
      2:{ rewrite StoreByte_u64, Z.add_0_r, StoreByte_eq, GetPageIdByAddress_SIZE, Ht.
          reflexivity. }
      reflexivity. }
  rewrite bind_OutOfFuel; [reflexivity|].
  eapply IncrementOccupiedValue_fresh_page_1;
    [unfold upd_page; cbn [pages_]; rewrite lookup_insert_eq, Hnone; reflexivity
    |reflexivity|lia].
Qed.

(** A range that starts in page 0, at or beyond its free pointer, and
    reaches into a fresh page 1: the walk fills page 0, arrives at address
    [SIZE] and is stuck there. *)
Lemma IncrementOccupiedValue_crossing_at_ptr fuel ram pg0 pg1 addr length :
  pages_ ram !! 0 = Some pg0 -> free_mem_ptr_ pg0 = addr ->
  pages_ ram !! 1 = Some pg1 -> free_mem_ptr_ pg1 = 0 ->
  0 <= addr < SIZE -> SIZE < addr + length -> length < 2 ^ 64 ->
  IncrementOccupiedValue fuel addr length ram = OutOfFuel.
Proof.
  pose proof SIZE_pos as HS. pose proof SIZE_le as HS'.
  intros Hpg0 Hfp0 Hpg1 Hfp1 Haddr Hcross Hlen.
  destruct fuel as [|fuel]; cbn [IncrementOccupiedValue];
    destruct (Z.eqb_spec length 0) as [|_]; try lia; [reflexivity|].
  assert (Hpid : GetPageIdByAddress addr = 0).
  { rewrite GetPageIdByAddress_div, u64_small by (unfold is_u64; lia).
    apply Z.div_small. lia. }
  unfold GetPageByAddress. rewrite Hpid.
  erewrite bind_Ok by (unfold GetPage; rewrite Hpg0; reflexivity).
  erewrite bind_Ok by (unfold assert_; rewrite land_ID_MASK_le by lia; reflexivity).
  erewrite bind_Ok by (unfold page_get; rewrite Hpg0; reflexivity).
  unfold GetFreeMemoryPtr. rewrite Hfp0, Z.ltb_irrefl, (gtb_false addr addr) by lia.
  erewrite bind_Ok by (unfold page_get; rewrite Hpg0; reflexivity).
  unfold GetFreeMemorySize. rewrite Hfp0.
  rewrite (u64_small (SIZE - addr)) by (unfold is_u64; lia).
  rewrite (gtb_true length (SIZE - addr)) by lia.
  replace (addr + (SIZE - addr)) with SIZE by lia.
  rewrite (u64_small SIZE), (u64_small (length - (SIZE - addr)))
    by (unfold is_u64; lia).
  erewrite bind_Ok by (unfold page_set; rewrite Hpg0; reflexivity).
  erewrite bind_Ok
    by (unfold page_get; cbn [pages_]; rewrite lookup_insert_eq; reflexivity).
  cbn [GetFreeMemorySize SetFreeMemoryPtr free_mem_ptr_].
  rewrite Z.sub_diag. change (u64 0 =? 0) with true.
  erewrite bind_Ok by reflexivity.
  erewrite bind_Ok
    by (unfold page_get; cbn [pages_]; rewrite lookup_insert_eq; reflexivity).
  cbn [GetOccupiedMemorySize SetFreeMemoryPtr free_mem_ptr_].
  rewrite Z.eqb_refl.
  erewrite bind_Ok by reflexivity.
  erewrite IncrementOccupiedValue_fresh_page_1;
    [reflexivity
    |cbn [pages_]; rewrite lookup_insert_ne by lia; exact Hpg1
    |exact Hfp1|lia].
Qed.

Lemma IncrementOccupiedValue_crossing fuel ram pg0 pg1 addr length :
  pages_ ram !! 0 = Some pg0 -> free_mem_ptr_ pg0 <= addr ->
  pages_ ram !! 1 = Some pg1 -> free_mem_ptr_ pg1 = 0 ->
  0 <= addr < SIZE -> SIZE < addr + length -> length < 2 ^ 64 ->
  IncrementOccupiedValue fuel addr length ram = OutOfFuel.
Proof.
  pose proof SIZE_pos as HS. pose proof SIZE_le as HS'.
  intros Hpg0 Hfp0 Hpg1 Hfp1 Haddr Hcross Hlen.
  destruct (Z.eq_dec (free_mem_ptr_ pg0) addr) as [Heq|Hne].
  { eapply IncrementOccupiedValue_crossing_at_ptr; eassumption. }
  destruct fuel as [|fuel]; cbn [IncrementOccupiedValue];
    destruct (Z.eqb_spec length 0) as [|_]; try lia; [reflexivity|].
  assert (Hpid : GetPageIdByAddress addr = 0).
  { rewrite GetPageIdByAddress_div, u64_small by (unfold is_u64; lia).
    apply Z.div_small. lia. }
  unfold GetPageByAddress. rewrite Hpid.
  erewrite bind_Ok by (unfold GetPage; rewrite Hpg0; reflexivity).
  erewrite bind_Ok by (unfold assert_; rewrite land_ID_MASK_le by lia; reflexivity).
  erewrite bind_Ok by (unfold page_get; rewrite Hpg0; reflexivity).
  unfold GetFreeMemoryPtr.
  rewrite (ltb_false addr (free_mem_ptr_ pg0)), (gtb_true addr (free_mem_ptr_ pg0))
    by lia.
  erewrite bind_Ok by (unfold page_set; rewrite Hpg0; reflexivity).
  erewrite IncrementOccupiedValue_crossing_at_ptr;
    [reflexivity
    |cbn [pages_]; apply lookup_insert_eq
    |reflexivity
    |cbn [pages_]; rewrite lookup_insert_ne by lia; exact Hpg1
    |exact Hfp1|lia|lia|lia].
Qed.

(** ** What [StoreByteSequence] does when it returns *)

Lemma runs_to_GetPage page_id ram a ram' :
  runs_to (GetPage page_id) ram a ram' -> a = page_id /\ ram' = ram.
Proof.
  intros [log H]. unfold GetPage in H.
  destruct (pages_ ram !! page_id); inversion H; auto.
Qed.

Lemma runs_to_assert cond ram u ram' :
  runs_to (assert_ cond) ram u ram' -> ram' = ram /\ cond = true.
Proof.
  intros [log H]. unfold assert_ in H. destruct cond; inversion H; auto.
Qed.

Lemma runs_to_page_get {A} page (f : Page -> A) ram a ram' :
  runs_to (page_get page f) ram a ram' ->
  ram' = ram /\ exists pg, pages_ ram !! page = Some pg /\ a = f pg.
Proof.
  intros [log H]. unfold page_get in H.
  destruct (pages_ ram !! page) as [pg|]; inversion H; eauto.
Qed.

Lemma same_bytes_refl ram : same_bytes ram ram.
Proof. split; reflexivity. Qed.

Lemma same_bytes_trans ram1 ram2 ram3 :
  same_bytes ram1 ram2 -> same_bytes ram2 ram3 -> same_bytes ram1 ram3.
Proof.
  intros [Hc1 Hb1] [Hc2 Hb2]. split; [congruence|].
  intros p. rewrite Hb1. apply Hb2.
Qed.

Lemma runs_to_page_set page ptr ram u ram' :
  runs_to (page_set page (SetFreeMemoryPtr ptr)) ram u ram' -> same_bytes ram ram'.
Proof.
  intros [log H]. unfold page_set in H.
  destruct (pages_ ram !! page) as [pg|] eqn:Hpg; inversion H; subst.
  split; [reflexivity|]. intros p. cbn [pages_]. rewrite lookup_insert.
  case_decide as Heq; [subst; rewrite Hpg|]; reflexivity.
Qed.

Lemma same_bytes_cell ram ram' addr :
  same_bytes ram ram' -> cell ram' addr = cell ram addr.
Proof.
  intros [_ Hb]. unfold cell. specialize (Hb (GetPageIdByAddress addr)).
  destruct (pages_ ram !! GetPageIdByAddress addr),
           (pages_ ram' !! GetPageIdByAddress addr); simpl in Hb;
    try discriminate; [|reflexivity].
  injection Hb as ->. reflexivity.
Qed.

Lemma same_bytes_wf ram ram' : same_bytes ram ram' -> wf ram -> wf ram'.
Proof.
  intros [_ Hb] Hwf p pg' Hpg'. specialize (Hb p). rewrite Hpg' in Hb.
  destruct (pages_ ram !! p) as [pg|] eqn:Hpg; simpl in Hb; [|discriminate].
  injection Hb as Hb. rewrite <- Hb. eapply Hwf, Hpg.
Qed.

Lemma same_bytes_holds ram ram' addr bs :
  same_bytes ram ram' -> holds ram addr bs -> holds ram' addr bs.
Proof.
  intros Hsame H i b Hb. rewrite (same_bytes_cell _ _ _ Hsame). apply H, Hb.
Qed.

(** The occupancy bookkeeping changes free pointers only. *)
Lemma IncrementOccupiedValue_same_bytes fuel : forall addr length ram u ram',
  runs_to (IncrementOccupiedValue fuel addr length) ram u ram' ->
  same_bytes ram ram'.
Proof.
  induction fuel as [|fuel IH]; intros addr length ram u ram' H;
    cbn [IncrementOccupiedValue] in H;
    (destruct (length =? 0);
     [apply runs_to_ret in H as [_ <-]; apply same_bytes_refl|]).
  - destruct H as [log H]. discriminate.
  - unfold GetPageByAddress in H. cbv zeta in H.
    repeat match goal with
           | H : runs_to (bind _ _) _ _ _ |- _ =>
               let a := fresh "a" in
               let r := fresh "ram" in
               let H1 := fresh "Hstep" in
               apply runs_to_bind in H as (a & r & H1 & H)
           | H : runs_to (GetPage _) _ _ _ |- _ =>
               apply runs_to_GetPage in H as [-> ->]
           | H : runs_to (assert_ _) _ _ _ |- _ =>
               apply runs_to_assert in H as [-> _]
           | H : runs_to (page_get _ _) _ _ _ |- _ =>
               apply runs_to_page_get in H as [-> _]
           | H : runs_to (page_set _ (SetFreeMemoryPtr _)) _ _ _ |- _ =>
               apply runs_to_page_set in H
           | H : runs_to (IncrementOccupiedValue fuel _ _) _ _ _ |- _ =>
               apply IH in H
           | H : runs_to (if ?c then _ else _) _ _ _ |- _ => destruct c
           end;
      eauto using same_bytes_trans.
Qed.

Lemma load_loop_holds ram addr bs : forall i,
  (forall j b, bs !! j = Some b -> cell ram (u64 (addr + i + Z.of_nat j)) = Some b) ->
  runs_to (load_loop addr i (length bs)) ram bs ram.
Proof.
  induction bs as [|b bs IH]; intros i H; cbn [length load_loop].
  - apply runs_to_ret. auto.
  - apply runs_to_bind. exists b, ram. split.
    + apply LoadByte_runs. rewrite <- (Z.add_0_r (addr + i)) at 1.
      apply (H 0%nat). reflexivity.
    + apply runs_to_bind. exists bs, ram. split; [|apply runs_to_ret; auto].
      apply IH. intros j c Hc.
      replace (addr + (i + 1) + Z.of_nat j) with (addr + i + Z.of_nat (S j)) by lia.
      apply H. exact Hc.
Qed.

Lemma LoadByteSequence_holds ram addr length bs :
  holds ram addr bs -> Z.to_nat length = List.length bs ->
  runs_to (LoadByteSequence addr length) ram bs ram.
Proof.
  intros H Hlen. unfold LoadByteSequence. rewrite Hlen.
  apply load_loop_holds. intros j b Hb. rewrite Z.add_0_r. apply H, Hb.
Qed.

(** With length 0, [StoreByteSequence] changes nothing and returns true. *)
Lemma StoreByteSequence_empty fuel addr chrs ram :
  StoreByteSequence fuel addr (Some chrs) 0 ram = Ok true ram [].
Proof. destruct fuel; reflexivity. Qed.

(** When [StoreByteSequence] returns, it returns true and
    [LoadByteSequence] reads the stored bytes back, also across page
    boundaries. *)
Lemma StoreByteSequence_LoadByteSequence fuel ram addr chrs length b ram' :
  wf ram -> Forall is_byte chrs ->
  0 <= length <= 2 ^ 64 -> Z.to_nat length = List.length chrs ->
  runs_to (StoreByteSequence fuel addr (Some chrs) length) ram b ram' ->
  b = true /\ runs_to (LoadByteSequence addr length) ram' chrs ram'.
Proof.
  intros Hwf Hbytes Hrange Hlen Hrun.
  apply StoreByteSequence_runs in Hrun as (? & [= <-] & Hrun).
  apply runs_to_bind in Hrun as ([] & ram1 & Hstore & Hrun).
  apply runs_to_bind in Hrun as ([] & ram2 & Hocc & Hret).
  apply runs_to_ret in Hret as [<- <-]. split; [reflexivity|].
  apply IncrementOccupiedValue_same_bytes in Hocc.
  apply LoadByteSequence_holds; [|exact Hlen].
  apply (same_bytes_holds _ _ _ _ Hocc).
  destruct Hstore as [log Hstore].
  rewrite store_loop_store_list in Hstore by (simpl; lia).
  simpl (Z.to_nat 0) in Hstore.
  rewrite drop_0, take_ge, Z.add_0_r, store_list_u64 in Hstore by lia.
  eapply store_list_holds; [exact Hwf|exact Hbytes|lia|exists log; exact Hstore].
Qed.

Lemma wf_store_loop addr chrs n : forall i ram ram',
  wf ram -> runs_to (store_loop addr chrs i n) ram tt ram' -> wf ram'.
Proof.
  induction n as [|n IH]; intros i ram ram' Hwf Hrun; cbn [store_loop] in Hrun.
  - apply runs_to_ret in Hrun as [_ <-]. exact Hwf.
  - apply runs_to_bind in Hrun as ([] & ram1 & H1 & H2).
    eapply IH; [|exact H2]. eapply wf_StoreByte; eassumption.
Qed.

(** The stores keep the store well-formed. *)
Lemma wf_StoreByteSequence fuel addr chrs length ram b ram' :
  wf ram -> runs_to (StoreByteSequence fuel addr chrs length) ram b ram' -> wf ram'.
Proof.
  intros Hwf Hrun. apply StoreByteSequence_runs in Hrun as (bytes & -> & Hrun).
  apply runs_to_bind in Hrun as ([] & ram1 & Hstore & Hrun).
  apply runs_to_bind in Hrun as ([] & ram2 & Hocc & Hret).
  apply runs_to_ret in Hret as [_ <-].
  apply IncrementOccupiedValue_same_bytes in Hocc.
  eapply same_bytes_wf; [exact Hocc|]. eapply wf_store_loop; eassumption.
Qed.

Lemma wf_StoreEightBytesFast addr value ram ram' :
  wf ram -> runs_to (StoreEightBytesFast addr value) ram tt ram' -> wf ram'.
Proof.
  intros Hwf Hrun. apply StoreEightBytesFast_runs in Hrun; [|exact Hwf].
  eapply wf_store_list; eassumption.
Qed.

(** ** The ELF loader *)

Lemma validateElfHeader_eq ehdr ram :
  validateElfHeader ehdr ram =
  match find mismatched (header_checks ehdr) with
  | Some (_, _, offset, value) =>
      Thrown (RuntimeError (mismatch_message offset value)) ram
  | None => Ok tt ram []
  end.
Proof.
  unfold validateElfHeader, header_checks, checkHeaderField, bind, mismatched.
  cbn [find].
  repeat match goal with
         | |- context [negb (?a =? ?b)] => destruct (a =? b); cbn [negb]
         end; reflexivity.
Qed.

Lemma validateElfHeader_accepts ehdr ram :
  header_matches ehdr -> validateElfHeader ehdr ram = Ok tt ram [].
Proof.
  intros H. rewrite validateElfHeader_eq.
  destruct (find mismatched (header_checks ehdr)) as [check|] eqn:Hfind;
    [|reflexivity].
  apply find_some in Hfind as [Hin Hmis].
  unfold header_matches in H. rewrite forallb_forall in H.
  specialize (H _ Hin). rewrite Hmis in H. discriminate.
Qed.

(** C7: an image whose magic bytes, class, data encoding or machine type
    does not match is rejected: [StoreElfFile] throws the error that names
    a field of the header which indeed differs from the required value (the
    first one in the order of the checks), and the memory is as it was. *)
Theorem StoreElfFile_rejects_mismatch fuel name file ehdr ram :
  open_ok file = true -> elf_version_ok file = true -> elf_begin_ok file = true ->
  gelf_getehdr file = Some ehdr ->
  nth EI_MAG0 (e_ident ehdr) 0 <> ELFMAG0 \/
  nth EI_MAG1 (e_ident ehdr) 0 <> ELFMAG1 \/
  nth EI_MAG2 (e_ident ehdr) 0 <> ELFMAG2 \/
  nth EI_MAG3 (e_ident ehdr) 0 <> ELFMAG3 \/
  nth EI_CLASS (e_ident ehdr) 0 <> ELFCLASS64 \/
  nth EI_DATA (e_ident ehdr) 0 <> ELFDATA2LSB \/
  e_machine ehdr <> EM_RISCV ->
  exists actual expected offset value,
    In (actual, expected, offset, value) (header_checks ehdr) /\
    actual <> expected /\
    StoreElfFile fuel name file ram =
    Thrown (RuntimeError (mismatch_message offset value)) ram.
Proof.
  intros Hopen Hver Hbegin Hehdr Hbad.
  unfold StoreElfFile. rewrite Hopen, Hver, Hbegin, Hehdr. cbn [negb].
  unfold bind at 1. rewrite validateElfHeader_eq.
  destruct (find mismatched (header_checks ehdr)) as [[[[actual expected] offset] value]|]
    eqn:Hfind.
  - apply find_some in Hfind as [Hin Hmis]. exists actual, expected, offset, value.
    split; [exact Hin|]. split; [|reflexivity].
    unfold mismatched in Hmis. apply negb_true_iff, Z.eqb_neq in Hmis. exact Hmis.
  - exfalso. unfold header_checks in Hfind. cbn [find mismatched] in Hfind.
    repeat match type of Hfind with
           | context [?a =? ?b] =>
               destruct (Z.eqb_spec a b); cbn [negb] in Hfind; [|discriminate Hfind]
           end.
    destruct Hbad as [H|[H|[H|[H|[H|[H|H]]]]]]; contradiction.
Qed.

Lemma store_loop_ext chrs chrs' addr n : forall i ram,
  0 <= i ->
  (forall j, (Z.to_nat i <= j < Z.to_nat i + n)%nat -> nth j chrs 0 = nth j chrs' 0) ->
  store_loop addr chrs i n ram = store_loop addr chrs' i n ram.
Proof.
  induction n as [|n IH]; intros i ram Hi Hsame; [reflexivity|].
  cbn [store_loop]. unfold bind. rewrite (Hsame (Z.to_nat i)) by lia.
  destruct (StoreByte _ _ ram) as [[] ram1 log1| | |]; try reflexivity.
  rewrite IH; [reflexivity|lia|]. intros j Hj. apply Hsame. lia.
Qed.

(** [StoreByteSequence] reads the first [length] bytes of its buffer. *)
Lemma StoreByteSequence_take fuel addr chrs chrs' length ram :
  take (Z.to_nat length) chrs = take (Z.to_nat length) chrs' ->
  StoreByteSequence fuel addr (Some chrs) length ram =
  StoreByteSequence fuel addr (Some chrs') length ram.
Proof.
  intros Htake. rewrite !StoreByteSequence_non_null. unfold bind.
  rewrite (store_loop_ext chrs chrs'); [reflexivity|lia|].
  intros j Hj. simpl in Hj.
  rewrite !nth_lookup. f_equal.
  rewrite <- (lookup_take_lt chrs (Z.to_nat length) j) by lia.
  rewrite <- (lookup_take_lt chrs' (Z.to_nat length) j) by lia.
  rewrite Htake. reflexivity.
Qed.

Lemma length_segment_bytes file phdr :
  segment_in_file file phdr ->
  length (segment_bytes file phdr) = Z.to_nat (p_filesz phdr).
Proof.
  intros (Ho & Hs & Hin & _). unfold segment_bytes.
  rewrite length_take, length_drop. lia.
Qed.

(** For a segment the loader gets, [pread] delivers the bytes of the
    segment. *)
Lemma pread_data_segment file phdr :
  segment_in_file file phdr ->
  pread_data file (p_filesz phdr) (p_offset phdr) = segment_bytes file phdr.
Proof.
  intros (_ & _ & _ & Hret & _). unfold pread_data, segment_bytes.
  rewrite Hret, Z.min_id. reflexivity.
Qed.

Lemma length_pread_data file count offset :
  (length (pread_data file count offset) <= Z.to_nat count)%nat.
Proof. unfold pread_data. rewrite length_take. lia. Qed.

Lemma length_pread file buf count offset :
  (Z.to_nat count <= length buf)%nat ->
  length (pread file buf count offset) = length buf.
Proof.
  intros Hroom. pose proof (length_pread_data file count offset).
  unfold pread. rewrite length_app, length_drop. lia.
Qed.

(** After [pread] the buffer starts with the bytes of the segment. *)
Lemma take_pread file phdr buf :
  segment_in_file file phdr ->
  take (Z.to_nat (p_filesz phdr))
       (pread file buf (p_filesz phdr) (p_offset phdr)) =
  take (Z.to_nat (p_filesz phdr)) (segment_bytes file phdr).
Proof.
  intros Hin. pose proof (length_segment_bytes _ _ Hin) as Hlen.
  unfold pread. rewrite (pread_data_segment _ _ Hin).
  rewrite take_app_le by lia. reflexivity.
Qed.

Lemma vec_data_non_null buff :
  storage_ buff <> [] -> vec_data buff = Some (storage_ buff).
Proof. unfold vec_data. destruct (storage_ buff); [contradiction|reflexivity]. Qed.

Lemma vec_data_null buff : storage_ buff = [] -> vec_data buff = None.
Proof. unfold vec_data. intros ->. reflexivity. Qed.

Lemma non_empty_length {A} (l : list A) : (0 < length l)%nat -> l <> [].
Proof. destruct l; simpl; [lia|discriminate]. Qed.

(** The buffer the loop has for a segment it gets: resized if need be, it
    has room for the segment, and it has been allocated if it was before
    or if the segment has bytes. *)
Lemma buffer_ready file phdr buff ram :
  segment_in_file file phdr -> vector_ok buff ->
  storage_ buff <> [] \/ 0 < p_filesz phdr ->
  exists buff1,
    (if Z.of_nat (vec_capacity buff) <? p_filesz phdr
     then resize buff (p_filesz phdr)
     else ret buff) ram = Ok buff1 ram [] /\
    vector_ok buff1 /\
    (Z.to_nat (p_filesz phdr) <= length (storage_ buff1))%nat /\
    storage_ buff1 <> [].
Proof.
  intros (_ & Hsz & _ & _ & Hgrow) Hok Hready. unfold vector_ok, vec_capacity in *.
  destruct (Z.ltb_spec (Z.of_nat (length (storage_ buff))) (p_filesz phdr)) as [Hlt|Hge].
  - destruct (Hgrow (size_ buff)) as [spare Hspare].
    unfold resize. rewrite Hspare. eexists. split; [reflexivity|].
    cbn [storage_ size_]. rewrite !length_app, length_replicate, length_take.
    split; [lia|]. split; [lia|]. apply non_empty_length.
    rewrite !length_app, length_replicate, length_take. lia.
  - exists buff. split; [reflexivity|]. split; [exact Hok|]. split; [lia|].
    destruct Hready as [Hne|Hpos]; [exact Hne|].
    apply non_empty_length. lia.
Qed.

Lemma vector_ok_pread_into file buff count offset :
  (Z.to_nat count <= length (storage_ buff))%nat -> vector_ok buff ->
  vector_ok (pread_into file buff count offset).
Proof.
  unfold vector_ok, vec_capacity, pread_into. cbn [storage_ size_].
  intros Hroom Hok. rewrite length_pread by exact Hroom. exact Hok.
Qed.

Lemma first_LOAD_has_bytes_cons phdr phdrs :
  first_LOAD_has_bytes (phdr :: phdrs) <->
  if is_LOAD phdr then 0 < p_filesz phdr else first_LOAD_has_bytes phdrs.
Proof.
  unfold first_LOAD_has_bytes. rewrite filter_cons.
  destruct (decide (is_LOAD phdr)) as [Hload|Hload].
  - apply Is_true_true in Hload. rewrite Hload. reflexivity.
  - apply Is_true_false in Hload. rewrite Hload. reflexivity.
Qed.

Lemma load_segments_store_segments fuel file phdrs : forall buff ram,
  Forall (segment_in_file file) (filter is_LOAD phdrs) ->
  vector_ok buff ->
  storage_ buff <> [] \/ first_LOAD_has_bytes phdrs ->
  load_segments fuel file (Some <$> phdrs) buff ram =
  store_segments fuel file (filter is_LOAD phdrs) ram.
Proof.
  induction phdrs as [|phdr phdrs IH]; intros buff ram Hin Hok Hready;
    [reflexivity|].
  cbn [fmap list_fmap load_segments]. fold (is_LOAD phdr).
  rewrite first_LOAD_has_bytes_cons in Hready.
  rewrite filter_cons in Hin |- *.
  destruct (decide (is_LOAD phdr)) as [Hload|Hload].
  - apply Is_true_true in Hload. rewrite Hload in Hready |- *.
    cbn [negb store_segments].
    inversion Hin as [|? ? Hphdr Hrest]; subst.
    destruct (buffer_ready file phdr buff ram Hphdr Hok Hready)
      as (buff1 & Hbuff1 & Hok1 & Hroom & Hne).
    rewrite (bind_Ok_nil _ _ ram buff1 Hbuff1). cbv zeta.
    assert (Hne' : storage_ (pread_into file buff1 (p_filesz phdr) (p_offset phdr))
                   <> []).
    { apply non_empty_length. cbn [pread_into storage_].
      rewrite length_pread by exact Hroom. destruct (storage_ buff1); [contradiction|].
      simpl. lia. }
    rewrite (vec_data_non_null _ Hne'). cbn [pread_into storage_].
    unfold bind. erewrite StoreByteSequence_take by (apply take_pread, Hphdr).
    destruct (StoreByteSequence _ _ _ _ ram) as [b ram1 log1| | |]; try reflexivity.
    rewrite IH; [reflexivity|exact Hrest| |left; exact Hne'].
    apply vector_ok_pread_into; assumption.
  - apply Is_true_false in Hload. rewrite Hload in Hready |- *. cbn [negb].
    apply IH; assumption.
Qed.

(** C6 (as amended): for an image that passes the header checks, whose
    LOAD segments the loader gets (the file has their bytes, [pread]
    delivers them, the buffer is granted) and whose first LOAD header has
    [p_filesz > 0], [StoreElfFile] does for the program headers of type
    LOAD, in their order, what [store_segments] says: for each one,
    [StoreByteSequence] of the [p_filesz] bytes the file has at
    [p_offset], at address [p_vaddr] (whatever [p_memsz] is); it writes
    nothing for the headers of another type; and when these stores return
    it returns [e_entry]. *)
Theorem StoreElfFile_loads_LOAD_segments fuel name file ehdr phdrs ram :
  open_ok file = true -> elf_version_ok file = true -> elf_begin_ok file = true ->
  gelf_getehdr file = Some ehdr -> header_matches ehdr ->
  program_headers file = Some (Some <$> phdrs) ->
  Forall (segment_in_file file) (filter is_LOAD phdrs) ->
  first_LOAD_has_bytes phdrs ->
  StoreElfFile fuel name file ram =
  (store_segments fuel file (filter is_LOAD phdrs) ;;; ret (e_entry ehdr)) ram.
Proof.
  intros Hopen Hver Hbegin Hehdr Hok Hphdrs Hin Hfirst.
  unfold StoreElfFile. rewrite Hopen, Hver, Hbegin, Hehdr, Hphdrs. cbn [negb].
  erewrite bind_Ok by (apply validateElfHeader_accepts, Hok).
  unfold bind.
  rewrite load_segments_store_segments;
    [|exact Hin|unfold vector_ok; reflexivity|right; exact Hfirst].
  destruct (store_segments fuel file (filter is_LOAD phdrs) ram); reflexivity.
Qed.

(** An image without LOAD headers leaves the memory as it is. *)
Lemma StoreElfFile_without_LOAD fuel name file ehdr phdrs ram :
  open_ok file = true -> elf_version_ok file = true -> elf_begin_ok file = true ->
  gelf_getehdr file = Some ehdr -> header_matches ehdr ->
  program_headers file = Some (Some <$> phdrs) ->
  Forall (fun phdr => p_type phdr <> PT_LOAD) phdrs ->
  StoreElfFile fuel name file ram = Ok (e_entry ehdr) ram [].
Proof.
  intros Hopen Hver Hbegin Hehdr Hok Hphdrs Hnone.
  assert (Hfilter : filter is_LOAD phdrs = []).
  { clear Hphdrs. induction Hnone as [|phdr phdrs Hp _ IH]; [reflexivity|].
    rewrite filter_cons. destruct (decide (is_LOAD phdr)) as [Hl|_]; [|exact IH].
    apply Is_true_true in Hl. unfold is_LOAD in Hl. apply Z.eqb_eq in Hl.
    contradiction. }
  unfold StoreElfFile. rewrite Hopen, Hver, Hbegin, Hehdr, Hphdrs. cbn [negb].
  erewrite bind_Ok by (apply validateElfHeader_accepts, Hok).
  unfold bind. rewrite load_segments_store_segments;
    [|rewrite Hfilter; constructor
     |unfold vector_ok; reflexivity
     |right; unfold first_LOAD_has_bytes; rewrite Hfilter; exact I].
  rewrite Hfilter. reflexivity.
Qed.

(** Until a LOAD header with bytes in the file has been met the temporary
    buffer is not allocated, and [buff.data()] is [nullptr]: a LOAD header
    with [p_filesz = 0] that comes first fails the assertion of
    [StoreByteSequence], and the process is aborted. *)
(** Program headers of another type are passed over. *)
Lemma load_segments_skips fuel file before phdrs buff ram :
  Forall (fun phdr => p_type phdr <> PT_LOAD) before ->
  load_segments fuel file ((Some <$> before) ++ phdrs) buff ram =
  load_segments fuel file phdrs buff ram.
Proof.
  intros Hbefore. induction Hbefore as [|other before Hother _ IH]; [reflexivity|].
  rewrite fmap_cons. cbn [app load_segments].
  destruct (Z.eqb_spec (p_type other) PT_LOAD); [contradiction|]. exact IH.
Qed.

(** Where the first LOAD header has [p_filesz = 0] the buffer has never
    been allocated, its [data()] is [nullptr], and the assertion of
    [StoreByteSequence] ends the process. *)
Lemma load_segments_aborts_on_empty_first_LOAD fuel file before phdr rest ram :
  Forall (fun phdr => p_type phdr <> PT_LOAD) before ->
  p_type phdr = PT_LOAD -> p_filesz phdr = 0 ->
  load_segments fuel file ((Some <$> before) ++ Some phdr :: rest) empty_vector ram
  = Aborted.
Proof.
  intros Hbefore Hload Hsz. rewrite load_segments_skips by exact Hbefore.
  cbn [load_segments]. rewrite Hload, Hsz, Z.eqb_refl.
  cbn [negb]. rewrite (bind_Ok_nil _ _ ram empty_vector) by reflexivity.
  cbv zeta. apply bind_Aborted. rewrite vec_data_null; [reflexivity|].
  cbn [pread_into storage_ empty_vector]. unfold pread, pread_data.
  replace (Z.to_nat (Z.min (pread_ret file 0 (p_offset phdr)) 0)) with 0%nat
    by lia.
  reflexivity.
Qed.

Lemma StoreElfFile_aborts_on_empty_first_LOAD fuel name file ehdr before phdr rest ram :
  open_ok file = true -> elf_version_ok file = true -> elf_begin_ok file = true ->
  gelf_getehdr file = Some ehdr -> header_matches ehdr ->
  program_headers file = Some ((Some <$> before) ++ Some phdr :: rest) ->
  Forall (fun phdr => p_type phdr <> PT_LOAD) before ->
  p_type phdr = PT_LOAD -> p_filesz phdr = 0 ->
  StoreElfFile fuel name file ram = Aborted.
Proof.
  intros Hopen Hver Hbegin Hehdr Hok Hphdrs Hbefore Hload Hsz.
  unfold StoreElfFile. rewrite Hopen, Hver, Hbegin, Hehdr, Hphdrs. cbn [negb].
  erewrite bind_Ok by (apply validateElfHeader_accepts, Hok).
  rewrite bind_Aborted; [reflexivity|].
  apply load_segments_aborts_on_empty_first_LOAD; assumption.
Qed.
(** ** Occupancy bookkeeping within page 0

    In page 0 an address is its own in-page offset, and there the walk does
    what the occupancy update is meant to do: the free pointer becomes the
    larger of its old value and the end of the written range. *)

Lemma IncrementOccupiedValue_done fuel addr ram :
  IncrementOccupiedValue fuel addr 0 ram = Ok tt ram [].
Proof. destruct fuel; reflexivity. Qed.

Lemma GetPageIdByAddress_page_0 addr :
  0 <= addr < SIZE -> GetPageIdByAddress addr = 0.
Proof.
  intros Ha. rewrite GetPageIdByAddress_div. pose proof SIZE_le.
  rewrite u64_small by (unfold is_u64; lia). apply Z.div_small, Ha.
Qed.

Lemma GetPage_runs page_id ram pg :
  pages_ ram !! page_id = Some pg -> runs_to (GetPage page_id) ram page_id ram.
Proof. intros H. unfold runs_to, GetPage. rewrite H. eauto. Qed.

Lemma assert_runs cond ram : cond = true -> runs_to (assert_ cond) ram tt ram.
Proof. intros ->. unfold runs_to, assert_. eauto. Qed.

Lemma page_get_runs {A} page (f : Page -> A) ram pg :
  pages_ ram !! page = Some pg -> runs_to (page_get page f) ram (f pg) ram.
Proof. intros H. unfold runs_to, page_get. rewrite H. eauto. Qed.

Lemma page_set_runs page ptr ram pg :
  pages_ ram !! page = Some pg ->
  runs_to (page_set page (SetFreeMemoryPtr ptr)) ram tt (with_free_ptr page pg ptr ram).
Proof. intros H. unfold runs_to, page_set. rewrite H. eauto. Qed.

Lemma IncrementOccupiedValue_done_runs fuel addr ram :
  runs_to (IncrementOccupiedValue fuel addr 0) ram tt ram.
Proof. unfold runs_to. rewrite IncrementOccupiedValue_done. eauto. Qed.

(** One step of a sequence of calls. *)
Ltac run_step lemma :=
  apply runs_to_bind; eexists _, _; split; [eapply lemma; eassumption|]; cbv beta.

Lemma IncrementOccupiedValue_page_0_below fuel ram pg addr length :
  (1 <= fuel)%nat -> pages_ ram !! 0 = Some pg ->
  0 <= addr <= free_mem_ptr_ pg -> free_mem_ptr_ pg <= SIZE ->
  0 < length -> addr + length <= SIZE ->
  runs_to (IncrementOccupiedValue fuel addr length) ram tt
          (with_free_ptr 0 pg (Z.max (free_mem_ptr_ pg) (addr + length)) ram).
Proof.
  pose proof SIZE_pos as HS. pose proof SIZE_le as HS'.
  intros Hfuel Hpg Haddr Hfp Hlen Hend.
  destruct fuel as [|fuel]; [lia|].
  cbn [IncrementOccupiedValue].
  destruct (Z.eqb_spec length 0) as [|_]; [lia|].
  unfold GetPageByAddress. rewrite GetPageIdByAddress_page_0 by lia.
  run_step GetPage_runs.
  apply runs_to_bind; eexists _, _; split;
    [apply assert_runs, land_ID_MASK_le; lia|]; cbv beta.
  run_step @page_get_runs.
  unfold GetFreeMemoryPtr.
  rewrite (gtb_false addr (free_mem_ptr_ pg)) by lia.
  assert (Hrest : forall addr' length',
    0 <= length' -> free_mem_ptr_ pg + length' = Z.max (free_mem_ptr_ pg) (addr + length) ->
    runs_to
      (free_mem_size <- page_get 0 GetFreeMemorySize ;;
       if length' >? free_mem_size
       then (page_set 0 (SetFreeMemoryPtr (u64 (free_mem_ptr_ pg + free_mem_size))) ;;;
             now_free <- page_get 0 GetFreeMemorySize ;;
             assert_ (now_free =? 0) ;;;
             now_occupied <- page_get 0 GetOccupiedMemorySize ;;
             assert_ (now_occupied =? SIZE) ;;;
             IncrementOccupiedValue fuel (u64 (addr' + free_mem_size))
               (u64 (length' - free_mem_size)))
       else (page_set 0 (SetFreeMemoryPtr (u64 (free_mem_ptr_ pg + length'))) ;;;
             IncrementOccupiedValue fuel (u64 (addr' + u64 (length' - length')))
               (u64 (length' - length'))))
      ram tt (with_free_ptr 0 pg (Z.max (free_mem_ptr_ pg) (addr + length)) ram)).
  { intros addr' length' Hl' Hsum.
    run_step @page_get_runs.
    unfold GetFreeMemorySize.
    rewrite (u64_small (SIZE - free_mem_ptr_ pg)) by (unfold is_u64; lia).
    rewrite (gtb_false length') by lia.
    rewrite (u64_small (free_mem_ptr_ pg + length')) by (unfold is_u64; lia).
    rewrite Hsum, Z.sub_diag. change (u64 0) with 0.
    run_step page_set_runs.
    apply IncrementOccupiedValue_done_runs. }
  destruct (Z.ltb_spec addr (free_mem_ptr_ pg)) as [Hlt|Hge].
  - apply Hrest.
    + rewrite (u64_small (free_mem_ptr_ pg - addr)) by (unfold is_u64; lia).
      rewrite u64_small by (unfold is_u64; lia). lia.
    + rewrite (u64_small (free_mem_ptr_ pg - addr)) by (unfold is_u64; lia).
      rewrite u64_small by (unfold is_u64; lia). lia.
  - apply Hrest; lia.
Qed.

Lemma IncrementOccupiedValue_page_0 fuel ram pg addr length :
  (2 <= fuel)%nat -> pages_ ram !! 0 = Some pg ->
  0 <= free_mem_ptr_ pg <= SIZE ->
  0 <= addr -> 0 < length -> addr + length <= SIZE ->
  runs_to (IncrementOccupiedValue fuel addr length) ram tt
          (with_free_ptr 0 pg (Z.max (free_mem_ptr_ pg) (addr + length)) ram).
Proof.
  pose proof SIZE_pos as HS. pose proof SIZE_le as HS'.
  intros Hfuel Hpg Hfp Haddr Hlen Hend.
  destruct (Z.le_gt_cases addr (free_mem_ptr_ pg)) as [Hle|Hgt].
  - apply IncrementOccupiedValue_page_0_below; try assumption; lia.
  - destruct fuel as [|fuel]; [lia|].
    cbn [IncrementOccupiedValue].
    destruct (Z.eqb_spec length 0) as [|_]; [lia|].
    unfold GetPageByAddress. rewrite GetPageIdByAddress_page_0 by lia.
    run_step GetPage_runs.
    apply runs_to_bind; eexists _, _; split;
      [apply assert_runs, land_ID_MASK_le; lia|]; cbv beta.
    run_step @page_get_runs.
    unfold GetFreeMemoryPtr.
    rewrite (ltb_false addr (free_mem_ptr_ pg)), (gtb_true addr (free_mem_ptr_ pg)) by lia.
    run_step page_set_runs.
    pose proof (IncrementOccupiedValue_page_0_below fuel
                  (with_free_ptr 0 pg addr ram) (mkPage (mem_ pg) addr) addr length)
      as Hbelow.
    cbn [free_mem_ptr_ mem_] in Hbelow.
    replace (with_free_ptr 0 pg (Z.max (free_mem_ptr_ pg) (addr + length)) ram)
      with (with_free_ptr 0 (mkPage (mem_ pg) addr) (Z.max addr (addr + length))
              (with_free_ptr 0 pg addr ram)).
    + apply Hbelow; try lia. unfold with_free_ptr. cbn [pages_]. apply lookup_insert_eq.
    + unfold with_free_ptr. cbn [pages_ capacity_ mem_]. rewrite insert_insert_eq.
      do 3 f_equal. lia.
Qed.

(** A sequence stored within page 0 of a store whose page 0 has its free
    pointer within the page: [StoreByteSequence] returns true, the bytes
    of the page are the only change besides the free pointer, which ends at
    the larger of its old value and the end of the range: the written
    range lies in the occupied prefix and the prefix within the page. *)
Lemma StoreByteSequence_page_0 fuel ram addr chrs length :
  (2 <= fuel)%nat -> wf ram -> touchable 0 ram = true ->
  (forall pg, pages_ ram !! 0 = Some pg -> 0 <= free_mem_ptr_ pg <= SIZE) ->
  0 <= addr -> 0 < length -> addr + length <= SIZE ->
  exists ram' pg',
    runs_to (StoreByteSequence fuel addr (Some chrs) length) ram true ram' /\
    pages_ ram' !! 0 = Some pg' /\
    addr + length <= free_mem_ptr_ pg' <= SIZE /\
    free_mem_ptr_ pg' =
      Z.max (free_mem_ptr_ (default new_page (pages_ ram !! 0))) (addr + length).
Proof.
  pose proof SIZE_pos as HS. pose proof SIZE_le as HS'.
  intros Hfuel Hwf Ht Hfp Haddr Hlen Hend.
  assert (Hstore : exists ram1,
            runs_to (store_loop addr chrs 0 (Z.to_nat length)) ram tt ram1 /\
            exists pg1, pages_ ram1 !! 0 = Some pg1 /\
                        free_mem_ptr_ pg1 =
                        free_mem_ptr_ (default new_page (pages_ ram !! 0))).
  { assert (Hgen : forall n i r,
              0 <= i -> i + Z.of_nat n <= length -> touchable 0 r = true ->
              exists r1, runs_to (store_loop addr chrs i n) r tt r1 /\
                         touchable 0 r1 = true /\
                         (n <> O -> exists pg1, pages_ r1 !! 0 = Some pg1 /\
                            free_mem_ptr_ pg1 =
                            free_mem_ptr_ (default new_page (pages_ r !! 0)))).
    { induction n as [|n IH]; intros i r Hi Hin Hr.
      - exists r. split; [apply runs_to_ret; auto|]. split; [exact Hr|]. congruence.
      - cbn [store_loop].
        assert (Hpid : GetPageIdByAddress (u64 (addr + i)) = 0).
        { rewrite GetPageIdByAddress_u64. apply GetPageIdByAddress_page_0. lia. }
        set (r0 := upd_page 0
                     (write_mem (Z.to_nat (GetPageOffsetByAddress (u64 (addr + i))))
                        [nth (Z.to_nat i) chrs 0 mod 2 ^ 8]) r).
        destruct (IH (i + 1) r0 ltac:(lia) ltac:(lia) (touchable_upd_page _ _ _))
          as (r1 & Hrun & Ht1 & Hpg1).
        exists r1. split; [|split; [exact Ht1|]].
        + apply runs_to_bind. exists tt, r0. split; [|exact Hrun].
          apply StoreByte_runs. rewrite Hpid. auto.
        + intros _. destruct n as [|n].
          * apply runs_to_ret in Hrun as [_ <-]. unfold r0, upd_page.
            cbn [pages_]. rewrite lookup_insert_eq. eauto.
          * destruct (Hpg1 ltac:(congruence)) as (pg1 & Hl1 & Hf1).
            exists pg1. split; [exact Hl1|]. rewrite Hf1. unfold r0, upd_page.
            cbn [pages_]. rewrite lookup_insert_eq. reflexivity. }
    destruct (Hgen (Z.to_nat length) 0 ram ltac:(lia) ltac:(lia) Ht)
      as (r1 & Hrun & _ & Hpg1).
    exists r1. split; [exact Hrun|]. apply Hpg1. lia. }
  destruct Hstore as (ram1 & Hrun1 & pg1 & Hpg1 & Hfp1).
  assert (Hfp1' : 0 <= free_mem_ptr_ pg1 <= SIZE).
  { rewrite Hfp1. destruct (pages_ ram !! 0) as [pg|] eqn:Hpg; simpl.
    - apply Hfp. reflexivity.
    - lia. }
  pose proof (IncrementOccupiedValue_page_0 fuel ram1 pg1 addr length
                Hfuel Hpg1 Hfp1' Haddr Hlen Hend) as Hocc.
  eexists _, _. split; [|split; [|split]].
  - apply StoreByteSequence_runs. exists chrs. split; [reflexivity|].
    apply runs_to_bind. exists tt, ram1.
    split; [exact Hrun1|]. apply runs_to_bind. eexists tt, _.
    split; [exact Hocc|]. apply runs_to_ret. auto.
  - unfold with_free_ptr. cbn [pages_]. apply lookup_insert_eq.
  - cbn [free_mem_ptr_]. lia.
  - cbn [free_mem_ptr_]. rewrite Hfp1. reflexivity.
Qed.

(** ** The hart *)

(** The single step does not fetch at the sentinel. *)
Lemma RunInstr_halted s :
  getPC s = 0 -> RunInstr s = (1, mkRun s [] []).
Proof. intros H. unfold RunInstr. rewrite H. reflexivity. Qed.

Lemma RunInstr_steps s :
  getPC s <> 0 ->
  RunInstr s =
  (0, mkRun (cycle s) [getPC s] [DecodeInstr (loadInstr s (getPC s))]).
Proof.
  intros H. unfold RunInstr. destruct (Z.eqb_spec (getPC s) 0); [contradiction|].
  reflexivity.
Qed.

(** The loop of the Simple mode stops only in a state whose program counter
    is the sentinel. *)
Lemma simple_loop_stops_at_sentinel fuel : forall r counter r' counter',
  simple_loop fuel r counter = Some (r', counter') -> getPC (hart r') = 0.
Proof.
  induction fuel as [|fuel IH]; intros r counter r' counter' H; [discriminate|].
  cbn [simple_loop] in H.
  destruct (Z.eqb_spec
              (getPC (hart (mkRun (executor_RunInstr
                                     (DecodeInstr (loadInstr (hart r) (getPC (hart r))))
                                     (hart r))
                                  (fetched r ++ [getPC (hart r)])
                                  (executed r ++
                                   [DecodeInstr (loadInstr (hart r) (getPC (hart r)))]))))
              0) as [Hz|Hnz]; cbn [negb] in H.
  - injection H as <- _. exact Hz.
  - eapply IH, H.
Qed.

(** The loop fetches at the program counter it is entered with, before any
    test of it. *)
Lemma simple_loop_fetches_first fuel : forall r counter r' counter',
  simple_loop fuel r counter = Some (r', counter') ->
  exists rest, fetched r' = fetched r ++ getPC (hart r) :: rest.
Proof.
  induction fuel as [|fuel IH]; intros r counter r' counter' H; [discriminate|].
  cbn [simple_loop] in H.
  match type of H with
  | (if negb (?a =? 0) then _ else _) = _ => destruct (a =? 0); cbn [negb] in H
  end.
  - injection H as <- _. exists []. reflexivity.
  - apply IH in H as [rest Hrest]. cbn [fetched hart] in Hrest.
    rewrite <- app_assoc in Hrest. cbn [app] in Hrest. eauto.
Qed.

Lemma RunImpl_fetches_at_entry fuel need_to_measure s out :
  RunImpl fuel SIMPLE need_to_measure s = Some out ->
  exists rest, fetched (result out) = getPC s :: rest.
Proof.
  unfold RunImpl.
  destruct (simple_loop fuel (mkRun s [] []) 0) as [[r counter]|] eqn:Hloop;
    [|discriminate].
  intros [= <-]. cbn [result].
  apply simple_loop_fetches_first in Hloop as [rest Hrest].
  cbn [fetched hart app] in Hrest. eauto.
Qed.

Lemma simple_loop_runs n : forall fuel r counter,
  (S n <= fuel)%nat ->
  (forall i, (0 < i < S n)%nat -> getPC (cycles i (hart r)) <> 0) ->
  getPC (cycles (S n) (hart r)) = 0 ->
  exists r',
    simple_loop fuel r counter = Some (r', u64 (counter + Z.of_nat (S n))) /\
    hart r' = cycles (S n) (hart r) /\
    length (executed r') = (length (executed r) + S n)%nat /\
    length (fetched r') = (length (fetched r) + S n)%nat.
Proof.
  induction n as [|n IH]; intros fuel r counter Hfuel Hrun Hend;
    (destruct fuel as [|fuel]; [lia|]); cbn [simple_loop].
  - cbn [cycles] in Hend. unfold cycle in Hend. cbn [hart]. rewrite Hend.
    cbn [negb Z.eqb]. eexists. split; [reflexivity|].
    cbn [hart executed fetched]. rewrite !length_app. cbn [length]. auto.
  - pose proof (Hrun 1%nat ltac:(lia)) as H1. cbn [cycles] in H1.
    unfold cycle in H1. cbn [hart].
    destruct (Z.eqb_spec
                (getPC (executor_RunInstr
                          (DecodeInstr (loadInstr (hart r) (getPC (hart r)))) (hart r)))
                0) as [|_]; [contradiction|]. cbn [negb].
    destruct (IH fuel
                (mkRun (executor_RunInstr
                          (DecodeInstr (loadInstr (hart r) (getPC (hart r)))) (hart r))
                       (fetched r ++ [getPC (hart r)])
                       (executed r ++ [DecodeInstr (loadInstr (hart r) (getPC (hart r)))]))
                (u64 (counter + 1))) as (r' & Hloop & Hh & He & Hf);
      [lia| | |].
    + intros i Hi. cbn [hart]. apply (Hrun (S i)). lia.
    + cbn [hart]. exact Hend.
    + exists r'. rewrite Hloop. split.
      * rewrite u64_add_u64_l. do 3 f_equal. lia.
      * cbn [hart executed fetched] in *. rewrite length_app in He, Hf.
        cbn [length] in *. split; [exact Hh|]. lia.
Qed.

(** C9: when the [n]-th instruction of the run is the first to leave the
    program counter at 0, [RunImpl] in Simple mode returns, having executed
    [n] instructions, and the count it reports is [n]; the three
    instrumentation lines are written when [need_to_measure] is set and no
    line is written when it is not. *)
Theorem RunImpl_simple_counts_instructions n fuel need_to_measure s :
  (0 < n <= fuel)%nat -> Z.of_nat n < 2 ^ 64 ->
  (forall i, (0 < i < n)%nat -> getPC (cycles i s) <> 0) ->
  getPC (cycles n s) = 0 ->
  exists out,
    RunImpl fuel SIMPLE need_to_measure s = Some out /\
    hart (result out) = cycles n s /\
    length (executed (result out)) = n /\
    cout out = (if need_to_measure
                then [AmountOfExecutedInstructions (Z.of_nat n);
                      ExecutionTime duration;
                      MIPS (Z.of_nat n) duration]
                else []) /\
    (length (cout out) = 3%nat <-> need_to_measure = true) /\
    (cout out = [] <-> need_to_measure = false).
Proof.
  intros Hn Hsmall Hrun Hend. destruct n as [|n]; [lia|].
  destruct (simple_loop_runs n fuel (mkRun s [] []) 0 ltac:(lia) Hrun Hend)
    as (r' & Hloop & Hh & He & _).
  unfold RunImpl. rewrite Hloop. eexists. split; [reflexivity|].
  cbn [result cout hart executed] in *.
  rewrite Z.add_0_l, u64_small by (unfold is_u64; lia).
  split; [exact Hh|]. split; [exact He|]. split; [reflexivity|].
  destruct need_to_measure; cbn [length]; split; split;
    intros; try reflexivity; try discriminate.
Qed.


(** * Further properties of the code *)

(** ** Address translation *)

(** X1: the two halves of an address are in range, the page identifier
    below [2^(64 - OFFSET_BIT_LENGTH)] and the offset below the page size,
    and two different 64-bit addresses never have both halves in common:
    no two addresses share a byte of the store. *)
Theorem translation_bounded_injective a b :
  is_u64 a -> is_u64 b ->
  0 <= GetPageIdByAddress a < 2 ^ (64 - OFFSET_BIT_LENGTH) /\
  0 <= GetPageOffsetByAddress a < SIZE /\
  (GetPageIdByAddress a = GetPageIdByAddress b ->
   GetPageOffsetByAddress a = GetPageOffsetByAddress b -> a = b).
Proof.
  intros Ha Hb. split; [apply GetPageIdByAddress_range|].
  split; [apply GetPageOffsetByAddress_range|].
  apply translation_injective; assumption.
Qed.

Lemma u64_mul_SIZE q : u64 (SIZE * q) = SIZE * (q mod 2 ^ (64 - OFFSET_BIT_LENGTH)).
Proof.
  unfold u64. rewrite pow64_split.
  assert (0 < 2 ^ (64 - OFFSET_BIT_LENGTH)) by (apply Z.pow_pos_nonneg; lia).
  pose proof SIZE_pos.
  apply Z.mul_mod_distr_l; lia.
Qed.

(** X2: walking up from an address, the page identifier stays and the
    offset grows as long as the offset stays below the page size; the step
    that brings the offset to the page size lands on offset 0 of the next
    page, and after the last page that is page 0. *)
Theorem translation_of_following_addresses addr j :
  0 <= j ->
  (GetPageOffsetByAddress addr + j < SIZE ->
   GetPageIdByAddress (u64 (addr + j)) = GetPageIdByAddress addr /\
   GetPageOffsetByAddress (u64 (addr + j)) = GetPageOffsetByAddress addr + j) /\
  (GetPageOffsetByAddress addr + j = SIZE ->
   GetPageIdByAddress (u64 (addr + j)) =
     (GetPageIdByAddress addr + 1) mod 2 ^ (64 - OFFSET_BIT_LENGTH) /\
   GetPageOffsetByAddress (u64 (addr + j)) = 0).
Proof.
  intros Hj. split; [apply same_page_add; exact Hj|].
  intros Hend. pose proof SIZE_pos as Hs.
  assert (Hnext : u64 (addr + j) =
                  SIZE * ((GetPageIdByAddress addr + 1) mod 2 ^ (64 - OFFSET_BIT_LENGTH))).
  { rewrite <- u64_mul_SIZE, <- u64_add_u64_l. f_equal.
    rewrite GetPageIdByAddress_div.
    rewrite <- GetPageOffsetByAddress_u64, GetPageOffsetByAddress_mod in Hend.
    pose proof (Z.div_mod (u64 addr) SIZE ltac:(lia)). lia. }
  rewrite GetPageIdByAddress_div, GetPageOffsetByAddress_mod, u64_idemp, Hnext.
  split.
  - rewrite Z.mul_comm. apply Z.div_mul. lia.
  - rewrite Z.mul_comm. apply Z.mod_mul. lia.
Qed.

(** ** Loads *)

Lemma read_only_ret {A} (a : A) : read_only (ret a).
Proof. intros ram. reflexivity. Qed.

Lemma read_only_bind {A B} (m : M A) (f : A -> M B) :
  read_only m -> (forall a, read_only (f a)) -> read_only (bind m f).
Proof.
  intros Hm Hf ram. unfold bind. specialize (Hm ram).
  destruct (m ram) as [a ram1 log1|e ram1| |]; try exact Hm; [].
  subst ram1. specialize (Hf a ram).
  destruct (f a ram); exact Hf.
Qed.

Lemma read_only_load_at width addr :
  read_only (p <- GetPhysAddress false addr ;; deref_load width p).
Proof.
  intros ram. rewrite load_at_eq.
  destruct (pages_ ram !! GetPageIdByAddress addr); reflexivity.
Qed.

Lemma read_only_LoadByte addr : read_only (LoadByte addr).
Proof.
  intros ram. rewrite LoadByte_eq.
  destruct (pages_ ram !! GetPageIdByAddress addr); [reflexivity|exact I].
Qed.

Lemma read_only_LoadTwoBytesFast addr : read_only (LoadTwoBytesFast addr).
Proof.
  unfold LoadTwoBytesFast.
  destruct (AtOnePage (GetPageOffsetByAddress addr) 2); [apply read_only_load_at|].
  repeat (apply read_only_bind; [apply read_only_LoadByte|intros ?]).
  apply read_only_ret.
Qed.

Lemma read_only_LoadFourBytesFast addr : read_only (LoadFourBytesFast addr).
Proof.
  unfold LoadFourBytesFast.
  destruct (AtOnePage (GetPageOffsetByAddress addr) 4); [apply read_only_load_at|].
  repeat (apply read_only_bind; [apply read_only_LoadTwoBytesFast|intros ?]).
  apply read_only_ret.
Qed.

Lemma read_only_LoadEightBytesFast addr : read_only (LoadEightBytesFast addr).
Proof.
  unfold LoadEightBytesFast.
  destruct (AtOnePage (GetPageOffsetByAddress addr) 8); [apply read_only_load_at|].
  repeat (apply read_only_bind; [apply read_only_LoadFourBytesFast|intros ?]).
  apply read_only_ret.
Qed.

Lemma read_only_load_loop addr n : forall i, read_only (load_loop addr i n).
Proof.
  induction n as [|n IH]; intros i; cbn [load_loop]; [apply read_only_ret|].
  apply read_only_bind; [apply read_only_LoadByte|intros b].
  apply read_only_bind; [apply IH|intros bs]. apply read_only_ret.
Qed.

(** X3: the loads never change the memory and never commit a page:
    whether [LoadByte], the three wider loads and [LoadByteSequence] return
    or throw, the store is left as it was. *)
Theorem loads_are_read_only addr length :
  read_only (LoadByte addr) /\
  read_only (LoadTwoBytesFast addr) /\
  read_only (LoadFourBytesFast addr) /\
  read_only (LoadEightBytesFast addr) /\
  read_only (LoadByteSequence addr length).
Proof.
  split; [apply read_only_LoadByte|].
  split; [apply read_only_LoadTwoBytesFast|].
  split; [apply read_only_LoadFourBytesFast|].
  split; [apply read_only_LoadEightBytesFast|].
  apply read_only_load_loop.
Qed.

Lemma AtOnePage_narrower offset w w' :
  w' <= w -> AtOnePage offset w = true -> AtOnePage offset w' = true.
Proof. unfold AtOnePage. intros Hw H. apply Z.leb_le in H. apply Z.leb_le. lia. Qed.

Lemma LoadTwoBytesFast_uncommitted addr ram :
  pages_ ram !! GetPageIdByAddress addr = None ->
  LoadTwoBytesFast addr ram =
  if AtOnePage (GetPageOffsetByAddress addr) 2 then Thrown PageFault ram else Aborted.
Proof.
  intros Hpg. unfold LoadTwoBytesFast.
  destruct (AtOnePage (GetPageOffsetByAddress addr) 2).
  - rewrite load_at_eq, Hpg. reflexivity.
  - apply bind_Aborted. rewrite LoadByte_eq, Hpg. reflexivity.
Qed.

Lemma LoadFourBytesFast_uncommitted addr ram :
  pages_ ram !! GetPageIdByAddress addr = None ->
  LoadFourBytesFast addr ram =
  if AtOnePage (GetPageOffsetByAddress addr) 2 then Thrown PageFault ram else Aborted.
Proof.
  intros Hpg. unfold LoadFourBytesFast.
  destruct (AtOnePage (GetPageOffsetByAddress addr) 4) eqn:H4.
  - rewrite (AtOnePage_narrower _ 4 2) by (lia || exact H4).
    rewrite load_at_eq, Hpg. reflexivity.
  - pose proof (LoadTwoBytesFast_uncommitted addr ram Hpg) as H2.
    destruct (AtOnePage (GetPageOffsetByAddress addr) 2);
      [eapply bind_Thrown|eapply bind_Aborted]; exact H2.
Qed.

Lemma LoadEightBytesFast_uncommitted addr ram :
  pages_ ram !! GetPageIdByAddress addr = None ->
  LoadEightBytesFast addr ram =
  if AtOnePage (GetPageOffsetByAddress addr) 2 then Thrown PageFault ram else Aborted.
Proof.
  intros Hpg. unfold LoadEightBytesFast.
  destruct (AtOnePage (GetPageOffsetByAddress addr) 8) eqn:H8.
  - rewrite (AtOnePage_narrower _ 8 2) by (lia || exact H8).
    rewrite load_at_eq, Hpg. reflexivity.
  - pose proof (LoadFourBytesFast_uncommitted addr ram Hpg) as H4.
    destruct (AtOnePage (GetPageOffsetByAddress addr) 2);
      [eapply bind_Thrown|eapply bind_Aborted]; exact H4.
Qed.

(** X4: a load from an address whose page is not committed never returns.
    [LoadByte] catches the page fault and aborts the process.  The three
    wider loads let the page fault escape as an exception, with the memory
    unchanged; only at the last byte of a page, where even two bytes do
    not fit the page, they end in [LoadByte] and abort.
    [LoadByteSequence] for a positive length does not return either, and
    stores nothing: it ends in its first [LoadByte] (or before, where its
    vector of [length] bytes is refused, in the exception of the
    allocation). *)
Theorem load_from_uncommitted_page addr length ram :
  pages_ ram !! GetPageIdByAddress addr = None -> 0 < length ->
  LoadByte addr ram = Aborted /\
  fails_without_storing (LoadByteSequence addr length) ram /\
  LoadTwoBytesFast addr ram =
    (if AtOnePage (GetPageOffsetByAddress addr) 2
     then Thrown PageFault ram else Aborted) /\
  LoadFourBytesFast addr ram =
    (if AtOnePage (GetPageOffsetByAddress addr) 2
     then Thrown PageFault ram else Aborted) /\
  LoadEightBytesFast addr ram =
    (if AtOnePage (GetPageOffsetByAddress addr) 2
     then Thrown PageFault ram else Aborted).
Proof.
  intros Hpg Hlen.
  split; [rewrite LoadByte_eq, Hpg; reflexivity|].
  split.
  { unfold fails_without_storing, LoadByteSequence.
    destruct (Z.to_nat length) as [|n] eqn:Hn; [lia|]. cbn [load_loop].
    rewrite bind_Aborted; [exact I|].
    rewrite Z.add_0_r, LoadByte_u64, LoadByte_eq, Hpg. reflexivity. }
  split; [apply LoadTwoBytesFast_uncommitted, Hpg|].
  split; [apply LoadFourBytesFast_uncommitted, Hpg|].
  apply LoadEightBytesFast_uncommitted, Hpg.
Qed.

Lemma LoadByte_runs_inv addr ram b ram' :
  wf ram -> runs_to (LoadByte addr) ram b ram' ->
  ram' = ram /\ cell ram addr = Some b.
Proof.
  intros Hwf [log H]. rewrite LoadByte_eq in H. unfold cell.
  destruct (pages_ ram !! GetPageIdByAddress addr) as [pg|] eqn:Hpg; [|discriminate].
  injection H as <- <- _. split; [reflexivity|].
  pose proof (offset_lt_length ram addr pg Hwf Hpg) as Hlt.
  apply lookup_lt_is_Some in Hlt as [x Hx]. rewrite Hx. f_equal.
  unfold read_mem.
  rewrite (take_S_r _ _ x), take_0
    by (rewrite lookup_drop, Nat.add_0_r; exact Hx).
  simpl. lia.
Qed.

Lemma load_loop_inv addr n : forall i ram bs ram',
  runs_to (load_loop addr i n) ram bs ram' ->
  ram' = ram /\ length bs = n /\
  forall (j : nat) b, bs !! j = Some b ->
    runs_to (LoadByte (u64 (addr + i + Z.of_nat j))) ram b ram.
Proof.
  induction n as [|n IH]; intros i ram bs ram' H; cbn [load_loop] in H.
  - apply runs_to_ret in H as [<- <-]. split; [reflexivity|].
    split; [reflexivity|]. intros j b Hb. discriminate.
  - apply runs_to_bind in H as (b0 & ram1 & H0 & H).
    apply runs_to_bind in H as (bs' & ram2 & Hrest & H).
    apply runs_to_ret in H as [<- <-].
    pose proof (read_only_LoadByte (u64 (addr + i)) ram) as Hro.
    destruct H0 as [log0 H0]. rewrite H0 in Hro. subst ram1.
    apply IH in Hrest as (-> & Hlen & Hbs).
    split; [reflexivity|]. split; [simpl; lia|].
    intros [|j] b Hb.
    + injection Hb as <-. rewrite Z.add_0_r. exists log0. exact H0.
    + replace (addr + i + Z.of_nat (S j)) with (addr + (i + 1) + Z.of_nat j) by lia.
      apply Hbs. exact Hb.
Qed.

(** X5: [LoadByteSequence] returns exactly when [LoadByte] returns at each
    of the [length] addresses from [addr] on (wrapping around at [2^64]),
    and what it returns are the bytes [LoadByte] returns there, in order. *)
Theorem LoadByteSequence_is_LoadByte_at_each_address addr length ram bs ram' :
  runs_to (LoadByteSequence addr length) ram bs ram' <->
  ram' = ram /\ List.length bs = Z.to_nat length /\
  forall (j : nat) b, bs !! j = Some b ->
    runs_to (LoadByte (u64 (addr + Z.of_nat j))) ram b ram.
Proof.
  unfold LoadByteSequence. split.
  - intros H. apply load_loop_inv in H as (-> & Hlen & Hbs).
    split; [reflexivity|]. split; [exact Hlen|].
    intros j b Hb. rewrite <- (Z.add_0_r addr). apply Hbs, Hb.
  - intros (-> & Hlen & Hbs). rewrite <- Hlen. clear Hlen.
    assert (Hgen : forall i,
      (forall (j : nat) b, bs !! j = Some b ->
         runs_to (LoadByte (u64 (addr + i + Z.of_nat j))) ram b ram) ->
      runs_to (load_loop addr i (List.length bs)) ram bs ram).
    { clear Hbs. induction bs as [|b bs IH]; intros i H; cbn [List.length load_loop].
      - apply runs_to_ret. auto.
      - apply runs_to_bind. exists b, ram. split.
        + rewrite <- (Z.add_0_r (addr + i)). apply (H 0%nat). reflexivity.
        + apply runs_to_bind. exists bs, ram. split; [|apply runs_to_ret; auto].
          apply IH. intros j c Hc.
          replace (addr + (i + 1) + Z.of_nat j) with (addr + i + Z.of_nat (S j)) by lia.
          apply H. exact Hc. }
    apply Hgen. intros j b Hb. rewrite Z.add_0_r. apply Hbs, Hb.
Qed.

(** ** Stores *)

Lemma not_touchable page_id ram :
  pages_ ram !! page_id = None ->
  capacity_ ram < (Z.of_nat (size (pages_ ram)) + 1) * SIZE ->
  touchable page_id ram = false.
Proof. intros Hpg Hcap. unfold touchable. rewrite Hpg. apply Z.leb_gt. exact Hcap. Qed.

Lemma StoreTwoBytesFast_no_room addr value ram :
  touchable (GetPageIdByAddress addr) ram = false ->
  StoreTwoBytesFast addr value ram =
  if AtOnePage (GetPageOffsetByAddress addr) 2
  then Thrown CapacityExceeded ram else Aborted.
Proof.
  intros Ht. unfold StoreTwoBytesFast.
  destruct (AtOnePage (GetPageOffsetByAddress addr) 2).
  - apply bind_Thrown. rewrite store_at_eq, Ht. reflexivity.
  - erewrite bind_Ok by reflexivity. cbv beta zeta.
    rewrite bind_Aborted; [reflexivity|]. apply StoreByte_aborts, Ht.
Qed.

Lemma StoreFourBytesFast_no_room addr value ram :
  touchable (GetPageIdByAddress addr) ram = false ->
  StoreFourBytesFast addr value ram =
  if AtOnePage (GetPageOffsetByAddress addr) 2
  then Thrown CapacityExceeded ram else Aborted.
Proof.
  intros Ht. unfold StoreFourBytesFast.
  destruct (AtOnePage (GetPageOffsetByAddress addr) 4) eqn:H4.
  - rewrite (AtOnePage_narrower _ 4 2) by (lia || exact H4).
    apply bind_Thrown. rewrite store_at_eq, Ht. reflexivity.
  - erewrite bind_Ok by reflexivity. cbv beta zeta.
    pose proof (StoreTwoBytesFast_no_room addr
                  (u16 (Z.land value (TwoPow 16 - 1))) ram Ht) as H2.
    destruct (AtOnePage (GetPageOffsetByAddress addr) 2).
    + erewrite bind_Thrown by exact H2. reflexivity.
    + rewrite bind_Aborted by exact H2. reflexivity.
Qed.

Lemma StoreEightBytesFast_no_room addr value ram :
  touchable (GetPageIdByAddress addr) ram = false ->
  StoreEightBytesFast addr value ram =
  if AtOnePage (GetPageOffsetByAddress addr) 2
  then Thrown CapacityExceeded ram else Aborted.
Proof.
  intros Ht. unfold StoreEightBytesFast.
  destruct (AtOnePage (GetPageOffsetByAddress addr) 8) eqn:H8.
  - rewrite (AtOnePage_narrower _ 8 2) by (lia || exact H8).
    apply bind_Thrown. rewrite store_at_eq, Ht. reflexivity.
  - erewrite bind_Ok by reflexivity. cbv beta zeta.
    pose proof (StoreFourBytesFast_no_room addr
                  (u32 (Z.land value (TwoPow 32 - 1))) ram Ht) as H4.
    destruct (AtOnePage (GetPageOffsetByAddress addr) 2).
    + erewrite bind_Thrown by exact H4. reflexivity.
    + rewrite bind_Aborted by exact H4. reflexivity.
Qed.

Lemma fails_without_storing_no_room {A} (m : M A) (fits : bool) ram :
  m ram = (if fits then Thrown CapacityExceeded ram else Aborted) ->
  fails_without_storing m ram.
Proof. intros H. unfold fails_without_storing. rewrite H. destruct fits; reflexivity. Qed.

(** X6: a store to an address whose page is not committed, when the
    capacity ceiling leaves no room for one more page, never returns and
    stores nothing.  [StoreByte] aborts the process, and so does
    [StoreByteSequence] for a positive length, at its first byte (or at
    its assertion, for a null buffer).  The
    three wider stores abort or let an exception escape, with the memory
    as it was. *)
Theorem store_beyond_capacity fuel addr value chrs length ram :
  pages_ ram !! GetPageIdByAddress addr = None ->
  capacity_ ram < (Z.of_nat (size (pages_ ram)) + 1) * SIZE ->
  0 < length ->
  StoreByte addr value ram = Aborted /\
  StoreByteSequence fuel addr chrs length ram = Aborted /\
  fails_without_storing (StoreTwoBytesFast addr value) ram /\
  fails_without_storing (StoreFourBytesFast addr value) ram /\
  fails_without_storing (StoreEightBytesFast addr value) ram.
Proof.
  intros Hpg Hcap Hlen.
  pose proof (not_touchable _ _ Hpg Hcap) as Ht.
  split; [apply StoreByte_aborts, Ht|].
  split.
  { destruct chrs as [bytes|]; [|reflexivity].
    rewrite StoreByteSequence_non_null. apply bind_Aborted.
    destruct (Z.to_nat length) as [|n] eqn:Hn; [lia|]. cbn [store_loop].
    apply bind_Aborted. rewrite Z.add_0_r, StoreByte_u64.
    apply StoreByte_aborts, Ht. }
  split; [eapply fails_without_storing_no_room, StoreTwoBytesFast_no_room, Ht|].
  split; [eapply fails_without_storing_no_room, StoreFourBytesFast_no_room, Ht|].
  eapply fails_without_storing_no_room, StoreEightBytesFast_no_room, Ht.
Qed.

(** *** The capacity ceiling *)

Lemma pages_kept_refl ram : pages_kept ram ram.
Proof. intros p H. exact H. Qed.

Lemma pages_kept_trans ram1 ram2 ram3 :
  pages_kept ram1 ram2 -> pages_kept ram2 ram3 -> pages_kept ram1 ram3.
Proof. intros H1 H2 p H. apply H2, H1, H. Qed.

Lemma within_ceiling_upd_page page_id f ram :
  touchable page_id ram = true -> has_room 0 ram ->
  has_room 0 (upd_page page_id f ram) /\ pages_kept ram (upd_page page_id f ram).
Proof.
  unfold touchable, has_room, upd_page. intros Ht Hroom. cbn [pages_ capacity_]. split.
  - destruct (pages_ ram !! page_id) as [pg|] eqn:Hpg.
    + rewrite map_size_insert_Some by (rewrite Hpg; eauto). exact Hroom.
    + rewrite map_size_insert_None by exact Hpg. apply Z.leb_le in Ht. lia.
  - intros p Hp. cbn [pages_]. rewrite lookup_insert.
    case_decide; [eauto|exact Hp].
Qed.

Lemma within_ceiling_StoreByte addr chr ram u ram' :
  has_room 0 ram -> runs_to (StoreByte addr chr) ram u ram' ->
  has_room 0 ram' /\ pages_kept ram ram'.
Proof.
  intros Hroom H. apply StoreByte_runs in H as [Ht ->].
  apply within_ceiling_upd_page; assumption.
Qed.

Lemma within_ceiling_store_list bs : forall addr ram ram',
  has_room 0 ram -> runs_to (store_list addr bs) ram tt ram' ->
  has_room 0 ram' /\ pages_kept ram ram'.
Proof.
  induction bs as [|b bs IH]; intros addr ram ram' Hroom H; cbn [store_list] in H.
  - apply runs_to_ret in H as [_ <-]. split; [exact Hroom|apply pages_kept_refl].
  - apply runs_to_bind in H as (u & ram1 & H1 & H2).
    apply within_ceiling_StoreByte in H1 as [Hroom1 Hkept1]; [|exact Hroom].
    apply IH in H2 as [Hroom2 Hkept2]; [|exact Hroom1].
    split; [exact Hroom2|eapply pages_kept_trans; eassumption].
Qed.

Lemma within_ceiling_store_loop addr chrs n : forall i ram ram',
  has_room 0 ram -> runs_to (store_loop addr chrs i n) ram tt ram' ->
  has_room 0 ram' /\ pages_kept ram ram'.
Proof.
  induction n as [|n IH]; intros i ram ram' Hroom H; cbn [store_loop] in H.
  - apply runs_to_ret in H as [_ <-]. split; [exact Hroom|apply pages_kept_refl].
  - apply runs_to_bind in H as (u & ram1 & H1 & H2).
    apply within_ceiling_StoreByte in H1 as [Hroom1 Hkept1]; [|exact Hroom].
    apply IH in H2 as [Hroom2 Hkept2]; [|exact Hroom1].
    split; [exact Hroom2|eapply pages_kept_trans; eassumption].
Qed.

Lemma same_bytes_pages ram ram' page_id :
  same_bytes ram ram' ->
  is_Some (pages_ ram !! page_id) <-> is_Some (pages_ ram' !! page_id).
Proof.
  intros [_ Hb]. specialize (Hb page_id).
  rewrite <- (fmap_is_Some mem_ (pages_ ram !! page_id)).
  rewrite <- (fmap_is_Some mem_ (pages_ ram' !! page_id)).
  rewrite Hb. reflexivity.
Qed.

Lemma same_bytes_size ram ram' :
  same_bytes ram ram' -> size (pages_ ram) = size (pages_ ram').
Proof.
  intros Hsame.
  rewrite <- (size_dom (D := gset Z) (pages_ ram)).
  rewrite <- (size_dom (D := gset Z) (pages_ ram')).
  f_equal. apply set_eq. intros p. rewrite !elem_of_dom.
  apply same_bytes_pages, Hsame.
Qed.

Lemma within_ceiling_same_bytes ram ram' :
  same_bytes ram ram' -> has_room 0 ram ->
  has_room 0 ram' /\ pages_kept ram ram'.
Proof.
  intros Hsame Hroom. split.
  - unfold has_room in *. rewrite <- (same_bytes_size _ _ Hsame).
    destruct Hsame as [<- _]. exact Hroom.
  - intros p Hp. apply (same_bytes_pages ram ram' p Hsame). exact Hp.
Qed.

(** X7: the stores keep the committed memory within the capacity ceiling
    and never give a page back: when the pages committed in a well-formed
    store take no more than its capacity, the same holds after every
    [StoreByte], every wider store and every [StoreByteSequence] that
    returns, and each page committed before is committed after. *)
Theorem stores_respect_capacity ram :
  wf ram -> Z.of_nat (size (pages_ ram)) * SIZE <= capacity_ ram ->
  forall ram',
    (exists addr value, runs_to (StoreByte addr value) ram tt ram') \/
    (exists addr value, runs_to (StoreTwoBytesFast addr value) ram tt ram') \/
    (exists addr value, runs_to (StoreFourBytesFast addr value) ram tt ram') \/
    (exists addr value, runs_to (StoreEightBytesFast addr value) ram tt ram') \/
    (exists fuel addr chrs length b,
        runs_to (StoreByteSequence fuel addr chrs length) ram b ram') ->
    Z.of_nat (size (pages_ ram')) * SIZE <= capacity_ ram' /\
    pages_kept ram ram'.
Proof.
  intros Hwf Hcap ram' H.
  assert (Hroom : has_room 0 ram) by (unfold has_room; lia).
  assert (Hgoal : has_room 0 ram' /\ pages_kept ram ram');
    [|unfold has_room in Hgoal; destruct Hgoal; split; [lia|assumption]].
  destruct H as [(addr & value & H)|[(addr & value & H)|[(addr & value & H)|
                [(addr & value & H)|(fuel & addr & chrs & length & b & H)]]]].
  - eapply within_ceiling_StoreByte; eassumption.
  - apply StoreTwoBytesFast_runs in H; [|exact Hwf].
    eapply within_ceiling_store_list; eassumption.
  - apply StoreFourBytesFast_runs in H; [|exact Hwf].
    eapply within_ceiling_store_list; eassumption.
  - apply StoreEightBytesFast_runs in H; [|exact Hwf].
    eapply within_ceiling_store_list; eassumption.
  - apply StoreByteSequence_runs in H as (bytes & -> & H).
    apply runs_to_bind in H as ([] & ram1 & Hstore & H).
    apply runs_to_bind in H as ([] & ram2 & Hocc & Hret).
    apply runs_to_ret in Hret as [_ <-].
    apply within_ceiling_store_loop in Hstore as [Hroom1 Hkept1]; [|exact Hroom].
    apply IncrementOccupiedValue_same_bytes in Hocc.
    apply within_ceiling_same_bytes in Hocc as [Hroom2 Hkept2]; [|exact Hroom1].
    split; [exact Hroom2|eapply pages_kept_trans; eassumption].
Qed.

(** *** One byte and its neighbours *)

(** X8: [StoreByte] changes the byte at its address only: the byte that
    [LoadByte] returned at any other 64-bit address before the store is the
    byte it returns there after it. *)
Theorem StoreByte_leaves_other_addresses ram addr addr' chr b ram' :
  wf ram -> is_u64 addr -> is_u64 addr' -> addr <> addr' ->
  runs_to (LoadByte addr') ram b ram ->
  runs_to (StoreByte addr chr) ram tt ram' ->
  runs_to (LoadByte addr') ram' b ram'.
Proof.
  intros Hwf Ha Ha' Hne Hload Hstore.
  apply LoadByte_runs_inv in Hload as [_ Hcell]; [|exact Hwf].
  apply StoreByte_runs in Hstore as [_ ->].
  apply LoadByte_runs, cell_frame; assumption.
Qed.

(** X9: of two [StoreByte] calls to one address the second wins: the pair
    returns exactly when the second call alone returns, and leaves the
    memory that the second call alone leaves. *)
Theorem StoreByte_last_write_wins ram addr chr1 chr2 ram' :
  runs_to (StoreByte addr chr1 ;;; StoreByte addr chr2) ram tt ram' <->
  runs_to (StoreByte addr chr2) ram tt ram'.
Proof.
  assert (Heq : forall page_id off,
    upd_page page_id (write_mem off [chr2 mod 2 ^ 8])
      (upd_page page_id (write_mem off [chr1 mod 2 ^ 8]) ram) =
    upd_page page_id (write_mem off [chr2 mod 2 ^ 8]) ram).
  { intros page_id off. rewrite upd_page_upd_page. apply upd_page_ext.
    intros pg _. cbn [write_mem]. apply list_insert_insert_eq. }
  split.
  - intros H. apply runs_to_bind in H as (u & ram1 & H1 & H2).
    apply StoreByte_runs in H1 as [Ht ->]. apply StoreByte_runs in H2 as [_ ->].
    apply StoreByte_runs. split; [exact Ht|]. apply Heq.
  - intros H. apply StoreByte_runs in H as [Ht ->].
    apply runs_to_bind. eexists tt, _. split.
    + apply StoreByte_runs. split; [exact Ht|reflexivity].
    + apply StoreByte_runs. split; [apply touchable_upd_page|].
      symmetry. apply Heq.
Qed.

Lemma touchable_swap pa pb f g ram :
  touchable pa ram = true -> touchable pb (upd_page pa f ram) = true ->
  touchable pb ram = true /\ touchable pa (upd_page pb g ram) = true.
Proof.
  destruct (decide (pa = pb)) as [->|Hne].
  { intros Ht _. split; [exact Ht|apply touchable_upd_page]. }
  unfold touchable, upd_page. cbn [pages_ capacity_].
  rewrite !lookup_insert_ne by congruence.
  destruct (pages_ ram !! pa) as [pga|] eqn:Hpa;
    destruct (pages_ ram !! pb) as [pgb|] eqn:Hpb; intros Hta Htb.
  - split; reflexivity.
  - rewrite map_size_insert_Some in Htb by (rewrite Hpa; eauto).
    split; [exact Htb|reflexivity].
  - split; [reflexivity|].
    rewrite map_size_insert_Some by (rewrite Hpb; eauto). exact Hta.
  - rewrite map_size_insert_None in Htb by exact Hpa.
    rewrite map_size_insert_None by exact Hpb.
    apply Z.leb_le in Hta, Htb. pose proof SIZE_pos.
    split; apply Z.leb_le; [nia|].
    rewrite Nat2Z.inj_succ in *. lia.
Qed.

Lemma upd_page_swap pa pb offa offb x y ram :
  (pa = pb -> offa <> offb) ->
  upd_page pb (write_mem offb [y]) (upd_page pa (write_mem offa [x]) ram) =
  upd_page pa (write_mem offa [x]) (upd_page pb (write_mem offb [y]) ram).
Proof.
  intros Hoff. destruct (decide (pa = pb)) as [->|Hne].
  - rewrite !upd_page_upd_page. apply upd_page_ext. intros pg _.
    cbn [write_mem]. apply list_insert_insert_ne. intros ->. apply Hoff; reflexivity.
  - unfold upd_page. cbn [pages_ capacity_].
    rewrite !lookup_insert_ne by congruence.
    f_equal. apply insert_insert_ne. congruence.
Qed.

Lemma StoreByte_swap ram a b x y ram' :
  is_u64 a -> is_u64 b -> a <> b ->
  runs_to (StoreByte a x ;;; StoreByte b y) ram tt ram' ->
  runs_to (StoreByte b y ;;; StoreByte a x) ram tt ram'.
Proof.
  intros Ha Hb Hne H. apply runs_to_bind in H as (u & ram1 & H1 & H2).
  apply StoreByte_runs in H1 as [Hta ->]. apply StoreByte_runs in H2 as [Htb ->].
  destruct (touchable_swap _ _ _
              (write_mem (Z.to_nat (GetPageOffsetByAddress b)) [y mod 2 ^ 8])
              _ Hta Htb) as [Htb' Hta'].
  apply runs_to_bind. eexists tt, _. split.
  - apply StoreByte_runs. split; [exact Htb'|reflexivity].
  - apply StoreByte_runs. split; [exact Hta'|].
    apply upd_page_swap. intros Hpid Hoff. apply Hne.
    pose proof (GetPageOffsetByAddress_range a).
    pose proof (GetPageOffsetByAddress_range b).
    apply translation_injective; [assumption|assumption|exact Hpid|lia].
Qed.

(** X10: two [StoreByte] calls to different 64-bit addresses can be made
    in either order: one order returns exactly when the other does, also
    when the calls have to commit pages under the capacity ceiling, and
    both leave the same memory. *)
Theorem StoreByte_order_is_irrelevant ram a b x y ram' :
  is_u64 a -> is_u64 b -> a <> b ->
  runs_to (StoreByte a x ;;; StoreByte b y) ram tt ram' <->
  runs_to (StoreByte b y ;;; StoreByte a x) ram tt ram'.
Proof.
  intros Ha Hb Hne. split; apply StoreByte_swap; auto.
Qed.

(** ** Accesses of different widths, and byte sequences *)


(** X12: within page 0 [StoreByteSequence] is complete: a sequence of
    [length > 0] bytes that ends within the page is stored, the call
    returns true, [LoadByteSequence] reads the bytes back, and the free
    pointer of the page is the larger of its old value and the end of the
    sequence, so it never moves down and stays within the page. *)
Theorem StoreByteSequence_within_page_0 fuel ram addr chrs length :
  (2 <= fuel)%nat -> wf ram -> touchable 0 ram = true ->
  (forall pg, pages_ ram !! 0 = Some pg -> 0 <= free_mem_ptr_ pg <= SIZE) ->
  Forall is_byte chrs -> Z.to_nat length = List.length chrs ->
  0 <= addr -> 0 < length -> addr + length <= SIZE ->
  exists ram' pg',
    runs_to (StoreByteSequence fuel addr (Some chrs) length) ram true ram' /\
    runs_to (LoadByteSequence addr length) ram' chrs ram' /\
    pages_ ram' !! 0 = Some pg' /\
    free_mem_ptr_ pg' =
      Z.max (free_mem_ptr_ (default new_page (pages_ ram !! 0))) (addr + length) /\
    free_mem_ptr_ pg' <= SIZE.
Proof.
  intros Hfuel Hwf Ht Hptr Hbytes Hlen Haddr Hpos Hend.
  destruct (StoreByteSequence_page_0 fuel ram addr chrs length
              Hfuel Hwf Ht Hptr Haddr Hpos Hend)
    as (ram' & pg' & Hrun & Hpg' & Hrange & Hmax).
  exists ram', pg'. split; [exact Hrun|].
  split; [|split; [exact Hpg'|split; [exact Hmax|lia]]].
  pose proof SIZE_le.
  eapply (StoreByteSequence_LoadByteSequence fuel ram addr chrs length true ram');
    [exact Hwf|exact Hbytes|lia|exact Hlen|exact Hrun].
Qed.

Lemma store_loop_frame addr chrs x c n : forall i ram ram',
  wf ram -> is_u64 x ->
  (forall j, i <= j < i + Z.of_nat n -> x <> u64 (addr + j)) ->
  cell ram x = Some c ->
  runs_to (store_loop addr chrs i n) ram tt ram' ->
  wf ram' /\ cell ram' x = Some c.
Proof.
  induction n as [|n IH]; intros i ram ram' Hwf Hx Hout Hcell Hrun;
    cbn [store_loop] in Hrun.
  - apply runs_to_ret in Hrun as [_ <-]. auto.
  - apply runs_to_bind in Hrun as ([] & ram1 & H1 & H2).
    pose proof (wf_StoreByte _ _ _ _ Hwf H1) as Hwf1.
    apply StoreByte_runs in H1 as [_ ->].
    eapply IH; [exact Hwf1|exact Hx| | |exact H2].
    + intros j Hj. apply Hout. lia.
    + apply cell_frame; [exact Hwf|apply u64_range|exact Hx| |exact Hcell].
      intros Heq. apply (Hout i); [lia|]. symmetry. exact Heq.
Qed.

(** X13: [StoreByteSequence] changes the bytes of its range only: the
    byte that [LoadByte] returned before the call at a 64-bit address
    outside [addr, addr + length) is the byte it returns there after the
    call; the occupancy bookkeeping changes no byte at all. *)
Theorem StoreByteSequence_leaves_other_addresses fuel ram addr chrs length x c b ram' :
  wf ram -> is_u64 x ->
  (forall j, 0 <= j < length -> x <> u64 (addr + j)) ->
  runs_to (LoadByte x) ram c ram ->
  runs_to (StoreByteSequence fuel addr chrs length) ram b ram' ->
  runs_to (LoadByte x) ram' c ram'.
Proof.
  intros Hwf Hx Hout Hload Hrun.
  apply LoadByte_runs_inv in Hload as [_ Hcell]; [|exact Hwf].
  apply StoreByteSequence_runs in Hrun as (bytes & -> & Hrun).
  apply runs_to_bind in Hrun as ([] & ram1 & Hstore & Hrun).
  apply runs_to_bind in Hrun as ([] & ram2 & Hocc & Hret).
  apply runs_to_ret in Hret as [_ <-].
  apply IncrementOccupiedValue_same_bytes in Hocc.
  apply LoadByte_runs. rewrite (same_bytes_cell _ _ _ Hocc).
  eapply store_loop_frame; [exact Hwf|exact Hx| |exact Hcell|exact Hstore].
  intros j Hj. apply Hout. lia.
Qed.

(** ** The ELF loader *)

Lemma header_matches_supported ehdr : header_matches ehdr <-> supported_header ehdr.
Proof.
  unfold header_matches, supported_header, header_checks, mismatched.
  cbn [forallb]. rewrite !andb_true_iff, !negb_involutive, !Z.eqb_eq.
  split.
  - intros (H0 & H1 & H2 & H3 & H4 & H5 & H6 & _). repeat split; assumption.
  - intros (H0 & H1 & H2 & H3 & H4 & H5 & H6). repeat split; assumption.
Qed.

Lemma validateElfHeader_returns ehdr ram o :
  validateElfHeader ehdr ram = o ->
  (o = Ok tt ram [] /\ header_matches ehdr) \/
  (exists what, o = Thrown (RuntimeError what) ram) /\ ~ header_matches ehdr.
Proof.
  intros <-. rewrite validateElfHeader_eq.
  destruct (find mismatched (header_checks ehdr)) as [[[[actual expected] offset] value]|]
    eqn:Hfind.
  - right. split; [eauto|]. intros Hok. apply find_some in Hfind as [Hin Hmis].
    unfold header_matches in Hok. rewrite forallb_forall in Hok.
    specialize (Hok _ Hin). rewrite Hmis in Hok. discriminate.
  - left. split; [reflexivity|]. unfold header_matches. apply forallb_forall.
    intros check Hin. rewrite (find_none _ _ Hfind _ Hin). reflexivity.
Qed.

(** X14: [validateElfHeader] returns exactly for a header whose four magic
    bytes, class, data encoding and machine are those of a 64-bit
    little-endian RISC-V image; for every other header it throws a
    [std::runtime_error]; either way it does not touch the memory. *)
Theorem validateElfHeader_accepts_exactly ehdr ram :
  (validateElfHeader ehdr ram = Ok tt ram [] <-> supported_header ehdr) /\
  ((exists what, validateElfHeader ehdr ram = Thrown (RuntimeError what) ram) <->
   ~ supported_header ehdr).
Proof.
  rewrite <- header_matches_supported.
  destruct (validateElfHeader_returns ehdr ram _ eq_refl) as [[-> Hok]|[[what ->] Hbad]].
  - split; split; auto.
    + intros [what H]. discriminate.
    + intros H. contradiction.
  - split; split; eauto.
    + intros H. discriminate.
    + intros H. contradiction.
Qed.

Lemma find_first {A} (f : A -> bool) before x after :
  Forall (fun y => f y = false) before -> f x = true ->
  find f (before ++ x :: after) = Some x.
Proof.
  intros Hbefore Hx. induction Hbefore as [|y before Hy _ IH]; cbn [app find].
  - rewrite Hx. reflexivity.
  - rewrite Hy. exact IH.
Qed.

(** X15: the checks of [validateElfHeader] are made in the order magic
    bytes 0 to 3, class, data encoding, machine, and the error names the
    first field that differs: when the fields before a field of the list
    have the required values and that field has not, the message is the one
    of that field, whatever the fields after it hold. *)
Theorem validateElfHeader_names_first_mismatch ehdr ram before actual expected
    offset value after :
  header_checks ehdr = before ++ (actual, expected, offset, value) :: after ->
  Forall (fun check => mismatched check = false) before ->
  actual <> expected ->
  validateElfHeader ehdr ram =
  Thrown (RuntimeError
            (offset +:+ " != " +:+ value +:+ " in elf header we don't support it"))
         ram.
Proof.
  intros Hchecks Hbefore Hne. rewrite validateElfHeader_eq, Hchecks.
  rewrite (find_first mismatched before (actual, expected, offset, value) after Hbefore).
  - reflexivity.
  - unfold mismatched. apply negb_true_iff, Z.eqb_neq, Hne.
Qed.

(** X16: [StoreElfFile] stores nothing before the image is accepted: when
    [open], [elf_version], [elf_begin], [gelf_getehdr], the check of the
    header or [elf_getphdrnum] fails, it throws a [std::runtime_error] and
    the memory is as it was; for a file that cannot be opened the message
    ends in the name of the file. *)
Theorem StoreElfFile_rejects_before_storing fuel name file ram :
  open_ok file = false \/ elf_version_ok file = false \/ elf_begin_ok file = false \/
  gelf_getehdr file = None \/
  (exists ehdr, gelf_getehdr file = Some ehdr /\ ~ supported_header ehdr) \/
  program_headers file = None ->
  (exists what, StoreElfFile fuel name file ram = Thrown (RuntimeError what) ram) /\
  (open_ok file = false ->
   StoreElfFile fuel name file ram =
   Thrown (RuntimeError ("cannot open file failed " +:+ name)) ram).
Proof.
  intros Hfail. unfold StoreElfFile.
  destruct (open_ok file) eqn:Hopen; cbn [negb];
    [|split; [eexists|intros _]; reflexivity].
  split; [|intros H; discriminate].
  destruct (elf_version_ok file) eqn:Hver; cbn [negb]; [|eexists; reflexivity].
  destruct (elf_begin_ok file) eqn:Hbegin; cbn [negb]; [|eexists; reflexivity].
  destruct (gelf_getehdr file) as [ehdr|] eqn:Hehdr; [|eexists; reflexivity].
  destruct (validateElfHeader_returns ehdr ram _ eq_refl) as [[Hv Hok]|[[what Hv] _]].
  - erewrite bind_Ok by exact Hv.
    destruct (program_headers file) as [phdrs|] eqn:Hphdrs; [|eexists; reflexivity].
    exfalso.
    destruct Hfail as [H|[H|[H|[H|[(ehdr' & H & Hbad)|H]]]]]; try discriminate.
    injection H as <-. apply Hbad, header_matches_supported, Hok.
  - exists what. apply bind_Thrown, Hv.
Qed.

Lemma load_segments_fails_midway fuel file phdrs rest : forall buff ram ram1,
  Forall (segment_in_file file) (filter is_LOAD phdrs) ->
  vector_ok buff ->
  storage_ buff <> [] \/ first_LOAD_has_bytes phdrs ->
  runs_to (store_segments fuel file (filter is_LOAD phdrs)) ram tt ram1 ->
  load_segments fuel file ((Some <$> phdrs) ++ None :: rest) buff ram =
  Thrown (RuntimeError ("gelf_getphdr() failed: " +:+ elf_errmsg file)) ram1.
Proof.
  induction phdrs as [|phdr phdrs IH]; intros buff ram ram1 Hin Hok Hready Hrun.
  - apply runs_to_ret in Hrun as [_ <-]. reflexivity.
  - rewrite fmap_cons. cbn [app load_segments]. fold (is_LOAD phdr).
    rewrite first_LOAD_has_bytes_cons in Hready.
    rewrite filter_cons in Hin, Hrun.
    destruct (decide (is_LOAD phdr)) as [Hload|Hload].
    + apply Is_true_true in Hload. rewrite Hload in Hready |- *. cbn [negb].
      cbn [store_segments] in Hrun.
      apply runs_to_bind in Hrun as (b & ram2 & [log1 H1] & H2).
      inversion Hin as [|? ? Hphdr Hrest]; subst.
      destruct (buffer_ready file phdr buff ram Hphdr Hok Hready)
        as (buff1 & Hbuff1 & Hok1 & Hroom & Hne).
      rewrite (bind_Ok_nil _ _ ram buff1 Hbuff1). cbv zeta.
      assert (Hne' : storage_ (pread_into file buff1 (p_filesz phdr) (p_offset phdr))
                     <> []).
      { apply non_empty_length. cbn [pread_into storage_].
        rewrite length_pread by exact Hroom.
        destruct (storage_ buff1); [contradiction|]. simpl. lia. }
      rewrite (vec_data_non_null _ Hne'). cbn [pread_into storage_].
      erewrite bind_Ok
        by (erewrite StoreByteSequence_take by (apply take_pread, Hphdr); exact H1).
      rewrite (IH _ _ ram1 Hrest); [reflexivity| |left; exact Hne'|exact H2].
      apply vector_ok_pread_into; assumption.
    + apply Is_true_false in Hload. rewrite Hload in Hready |- *. cbn [negb].
      apply IH; assumption.
Qed.

(** X17: when [gelf_getphdr] fails at some index of the program header
    table, [StoreElfFile] throws without undoing what it did: the memory
    the exception leaves is the one in which the LOAD segments of the
    headers before that index are stored.  The headers after the index are
    not looked at.  (The first LOAD header is to have bytes in the file:
    without them the process is aborted before, at the assertion of
    [StoreByteSequence].) *)
Theorem StoreElfFile_keeps_segments_stored_before_failure fuel name file ehdr
    phdrs rest ram ram1 :
  open_ok file = true -> elf_version_ok file = true -> elf_begin_ok file = true ->
  gelf_getehdr file = Some ehdr -> supported_header ehdr ->
  program_headers file = Some ((Some <$> phdrs) ++ None :: rest) ->
  Forall (segment_in_file file) (filter is_LOAD phdrs) ->
  first_LOAD_has_bytes phdrs ->
  runs_to (store_segments fuel file (filter is_LOAD phdrs)) ram tt ram1 ->
  StoreElfFile fuel name file ram =
  Thrown (RuntimeError ("gelf_getphdr() failed: " +:+ elf_errmsg file)) ram1.
Proof.
  intros Hopen Hver Hbegin Hehdr Hok Hphdrs Hin Hfirst Hrun.
  unfold StoreElfFile. rewrite Hopen, Hver, Hbegin, Hehdr, Hphdrs. cbn [negb].
  erewrite bind_Ok
    by (apply validateElfHeader_accepts, header_matches_supported, Hok).
  erewrite bind_Thrown; [reflexivity|].
  apply load_segments_fails_midway;
    [exact Hin|unfold vector_ok; reflexivity|right; exact Hfirst|exact Hrun].
Qed.

Lemma bind_assoc {A B C} (m : M A) (f : A -> M B) (g : B -> M C) ram :
  bind (bind m f) g ram = bind m (fun a => bind (f a) g) ram.
Proof.
  unfold bind. destruct (m ram) as [a ram1 log1| | |]; try reflexivity.
  destruct (f a ram1) as [b ram2 log2| | |]; try reflexivity.
  destruct (g b ram2); try reflexivity. rewrite app_assoc. reflexivity.
Qed.

Lemma length_padded_segment file phdr :
  List.length (padded_segment file phdr) = Z.to_nat (p_filesz phdr).
Proof.
  pose proof (length_pread_data file (p_filesz phdr) (p_offset phdr)).
  unfold padded_segment. rewrite length_app, length_replicate. lia.
Qed.

(** The buffer after the [pread] of the first LOAD segment. *)
Lemma first_buffer file phdr spare :
  pread_into file
    (mkVector (replicate (Z.to_nat (p_filesz phdr)) 0 ++ spare)
              (Z.to_nat (p_filesz phdr)))
    (p_filesz phdr) (p_offset phdr) =
  mkVector (padded_segment file phdr ++ spare) (Z.to_nat (p_filesz phdr)).
Proof.
  pose proof (length_pread_data file (p_filesz phdr) (p_offset phdr)) as Hlen.
  unfold pread_into, pread, padded_segment. cbn [storage_ size_]. f_equal.
  rewrite drop_app_le by (rewrite length_replicate; exact Hlen).
  rewrite drop_replicate, <- app_assoc. reflexivity.
Qed.

(** X18: the loader does not look at what [pread] returns.  For the first
    program header of type LOAD, if [p_filesz > 0] (and if the buffer of
    that size is granted), [p_filesz] bytes are stored at [p_vaddr]
    whatever [pread] delivers: the bytes it delivers, followed by the
    zeros of the new buffer; then the loader goes on with the rest of the
    table and that buffer. *)
Theorem StoreElfFile_pads_first_segment fuel name file ehdr before phdr rest spare ram :
  open_ok file = true -> elf_version_ok file = true -> elf_begin_ok file = true ->
  gelf_getehdr file = Some ehdr -> supported_header ehdr ->
  program_headers file = Some ((Some <$> before) ++ Some phdr :: rest) ->
  Forall (fun phdr => p_type phdr <> PT_LOAD) before ->
  p_type phdr = PT_LOAD -> 0 < p_filesz phdr ->
  vector_growth 0 (Z.to_nat (p_filesz phdr)) = Some spare ->
  List.length (padded_segment file phdr) = Z.to_nat (p_filesz phdr) /\
  StoreElfFile fuel name file ram =
  (StoreByteSequence fuel (p_vaddr phdr) (Some (padded_segment file phdr))
                     (p_filesz phdr) ;;;
   load_segments fuel file rest
     (mkVector (padded_segment file phdr ++ spare) (Z.to_nat (p_filesz phdr))) ;;;
   ret (e_entry ehdr)) ram.
Proof.
  intros Hopen Hver Hbegin Hehdr Hok Hphdrs Hbefore Hload Hsz Hspare.
  pose proof (length_padded_segment file phdr) as Hlen.
  split; [exact Hlen|].
  unfold StoreElfFile. rewrite Hopen, Hver, Hbegin, Hehdr, Hphdrs. cbn [negb].
  rewrite (bind_Ok_nil _ _ ram tt)
    by (apply validateElfHeader_accepts, header_matches_supported, Hok).
  etransitivity; [apply bind_same_tail, load_segments_skips, Hbefore|].
  cbn [load_segments]. rewrite Hload, Z.eqb_refl. cbn [negb].
  rewrite bind_assoc.
  rewrite (bind_Ok_nil _ _ ram
             (mkVector (replicate (Z.to_nat (p_filesz phdr)) 0 ++ spare)
                       (Z.to_nat (p_filesz phdr)))).
  2:{ change (vec_capacity empty_vector) with 0%nat.
      destruct (Z.ltb_spec (Z.of_nat 0) (p_filesz phdr)); [|lia].
      unfold resize. cbn [size_ storage_ empty_vector]. rewrite Hspare.
      rewrite Nat.sub_0_r. reflexivity. }
  cbv zeta. rewrite first_buffer, bind_assoc.
  rewrite vec_data_non_null
    by (apply non_empty_length; cbn [storage_]; rewrite length_app; lia).
  cbn [storage_]. apply bind_same_tail, StoreByteSequence_take.
  rewrite take_app_le by lia. reflexivity.
Qed.

(** ** The hart *)

Lemma simple_loop_S fuel r counter :
  simple_loop (S fuel) r counter =
  if getPC (hart (advance r)) =? 0
  then Some (advance r, u64 (counter + 1))
  else simple_loop fuel (advance r) (u64 (counter + 1)).
Proof.
  cbn [simple_loop]. unfold advance, cycle. cbn [hart].
  destruct (_ =? 0); reflexivity.
Qed.

Lemma RunInstr_returns_1 s : fst (RunInstr s) = 1 <-> getPC s = 0.
Proof.
  unfold RunInstr. destruct (Z.eqb_spec (getPC s) 0); cbn [fst]; split; intros H;
    try reflexivity; try assumption; try discriminate; contradiction.
Qed.

Lemma RunInstr_times_S n r :
  getPC (hart r) <> 0 ->
  RunInstr_times (S n) r =
  (0 :: fst (RunInstr_times n (advance r)), snd (RunInstr_times n (advance r))).
Proof.
  intros Hpc. cbn [RunInstr_times]. rewrite RunInstr_steps by exact Hpc.
  cbn [hart fetched executed]. fold (advance r).
  destruct (RunInstr_times n (advance r)); reflexivity.
Qed.

Lemma RunInstr_times_first n r rcs r' :
  RunInstr_times (S n) r = (0 :: rcs, r') ->
  getPC (hart r) <> 0 /\ RunInstr_times n (advance r) = (rcs, r').
Proof.
  intros H. destruct (Z.eqb_spec (getPC (hart r)) 0) as [Hz|Hnz].
  - cbn [RunInstr_times] in H. rewrite RunInstr_halted in H by exact Hz.
    destruct (RunInstr_times n _) in H. discriminate.
  - split; [exact Hnz|]. rewrite RunInstr_times_S in H by exact Hnz.
    destruct (RunInstr_times n (advance r)). cbn [fst snd] in H. congruence.
Qed.

Lemma simple_loop_as_steps fuel : forall r counter r' counter',
  getPC (hart r) <> 0 ->
  simple_loop fuel r counter = Some (r', counter') ->
  exists n, (0 < n <= fuel)%nat /\
            RunInstr_times n r = (replicate n 0, r') /\
            fst (RunInstr (hart r')) = 1.
Proof.
  induction fuel as [|fuel IH]; intros r counter r' counter' Hpc H; [discriminate|].
  rewrite simple_loop_S in H.
  destruct (Z.eqb_spec (getPC (hart (advance r))) 0) as [Hz|Hnz].
  - injection H as <- _. exists 1%nat. split; [lia|].
    split; [|apply RunInstr_returns_1, Hz].
    rewrite RunInstr_times_S by exact Hpc. reflexivity.
  - apply IH in H as (n & Hn & Hsteps & Hhalt); [|exact Hnz].
    exists (S n). split; [lia|]. split; [|exact Hhalt].
    rewrite RunInstr_times_S by exact Hpc. rewrite Hsteps. reflexivity.
Qed.

Lemma steps_as_simple_loop n : forall fuel r counter r',
  (S n <= fuel)%nat ->
  RunInstr_times (S n) r = (replicate (S n) 0, r') ->
  fst (RunInstr (hart r')) = 1 ->
  simple_loop fuel r counter = Some (r', u64 (counter + Z.of_nat (S n))).
Proof.
  induction n as [|n IH]; intros fuel r counter r' Hfuel Hsteps Hhalt;
    (destruct fuel as [|fuel]; [lia|]); rewrite simple_loop_S;
    cbn [replicate] in Hsteps; apply RunInstr_times_first in Hsteps as [Hpc Hsteps].
  - cbn [RunInstr_times] in Hsteps. injection Hsteps as <-.
    apply RunInstr_returns_1 in Hhalt. rewrite Hhalt. reflexivity.
  - pose proof Hsteps as Hnext. cbn [replicate] in Hnext.
    apply RunInstr_times_first in Hnext as [Hnz _].
    destruct (Z.eqb_spec (getPC (hart (advance r))) 0); [contradiction|].
    rewrite (IH fuel (advance r) (u64 (counter + 1)) r') by (lia || assumption).
    rewrite u64_add_u64_l. do 3 f_equal. lia.
Qed.

(** X19: entered with a program counter other than 0, the Simple mode of
    [RunImpl] does what a driver does that calls [RunInstr] again and
    again until it returns 1: [RunImpl] returns with a run exactly when
    some number of [RunInstr] calls, within the iterations allowed, all
    return 0 and add up to that run, and the next call returns 1. *)
Theorem RunImpl_is_repeated_RunInstr fuel need_to_measure s r :
  getPC s <> 0 ->
  (exists out, RunImpl fuel SIMPLE need_to_measure s = Some out /\ result out = r) <->
  (exists n, (n <= fuel)%nat /\
             RunInstr_times n (mkRun s [] []) = (replicate n 0, r) /\
             fst (RunInstr (hart r)) = 1).
Proof.
  intros Hpc. unfold RunImpl. split.
  - intros (out & Hout & <-).
    destruct (simple_loop fuel (mkRun s [] []) 0) as [[r counter]|] eqn:Hloop;
      [|discriminate].
    injection Hout as <-. cbn [result].
    apply simple_loop_as_steps in Hloop as (n & Hn & Hsteps & Hhalt); [|exact Hpc].
    exists n. split; [lia|]. split; assumption.
  - intros (n & Hn & Hsteps & Hhalt). destruct n as [|n].
    + cbn [RunInstr_times] in Hsteps. injection Hsteps as <-.
      apply RunInstr_returns_1 in Hhalt. contradiction.
    + rewrite (steps_as_simple_loop n fuel (mkRun s [] []) 0 r Hn Hsteps Hhalt).
      eexists. split; reflexivity.
Qed.

Lemma cycles_S n s : cycles (S n) s = cycles n (cycle s).
Proof. reflexivity. Qed.

Lemma simple_loop_shape fuel : forall r counter r' counter',
  simple_loop fuel r counter = Some (r', counter') ->
  exists n rest,
    (1 <= n <= fuel)%nat /\
    hart r' = cycles n (hart r) /\
    (forall i, (0 < i < n)%nat -> getPC (cycles i (hart r)) <> 0) /\
    getPC (cycles n (hart r)) = 0 /\
    List.length (executed r') = (List.length (executed r) + n)%nat /\
    fetched r' = fetched r ++ getPC (hart r) :: rest /\
    List.length rest = (n - 1)%nat /\
    Forall (fun pc => pc <> 0) rest /\
    counter' = u64 (counter + Z.of_nat n).
Proof.
  induction fuel as [|fuel IH]; intros r counter r' counter' H; [discriminate|].
  rewrite simple_loop_S in H.
  destruct (Z.eqb_spec (getPC (hart (advance r))) 0) as [Hz|Hnz].
  - injection H as <- <-. exists 1%nat, []. cbn [advance hart executed fetched] in *.
    split; [lia|]. split; [reflexivity|]. split; [intros i Hi; lia|].
    split; [exact Hz|]. split; [rewrite length_app; reflexivity|].
    split; [reflexivity|]. split; [reflexivity|]. split; [constructor|reflexivity].
  - apply IH in H as (n & rest & Hn & Hh & Hrun & Hend & He & Hf & Hlen & Hrest & Hc).
    cbn [advance hart executed fetched] in *.
    exists (S n), (getPC (cycle (hart r)) :: rest).
    split; [lia|]. split; [exact Hh|]. split.
    { intros [|[|i]] Hi; [lia|exact Hnz|]. rewrite cycles_S. apply Hrun. lia. }
    split; [exact Hend|]. split; [rewrite He, length_app; cbn [List.length]; lia|].
    split; [rewrite Hf, <- app_assoc; reflexivity|].
    split; [cbn [List.length]; lia|]. split; [constructor; assumption|].
    rewrite Hc, u64_add_u64_l. f_equal. lia.
Qed.

(** X20: every run of the Simple mode that returns has one shape.  With
    [n] the number of instructions it executed: [n] is at least 1; as many
    addresses were fetched, the first at the program counter of entry and
    none of the others at 0; the program counter was not 0 after any of
    the first [n - 1] instructions and is 0 after the [n]-th, where the
    hart is left; the count reported is [n] modulo [2^64]; and nothing is
    written to the error stream. *)
Theorem RunImpl_simple_run_shape fuel need_to_measure s out :
  RunImpl fuel SIMPLE need_to_measure s = Some out ->
  exists n rest,
    (1 <= n <= fuel)%nat /\
    List.length (executed (result out)) = n /\
    fetched (result out) = getPC s :: rest /\
    List.length rest = (n - 1)%nat /\ Forall (fun pc => pc <> 0) rest /\
    hart (result out) = cycles n s /\
    (forall i, (0 < i < n)%nat -> getPC (cycles i s) <> 0) /\
    getPC (cycles n s) = 0 /\
    cout out = (if need_to_measure
                then [AmountOfExecutedInstructions (u64 (Z.of_nat n));
                      ExecutionTime duration;
                      MIPS (u64 (Z.of_nat n)) duration]
                else []) /\
    cerr out = [].
Proof.
  unfold RunImpl.
  destruct (simple_loop fuel (mkRun s [] []) 0) as [[r counter]|] eqn:Hloop;
    [|discriminate].
  intros [= <-]. cbn [result cout cerr].
  apply simple_loop_shape in Hloop
    as (n & rest & Hn & Hh & Hrun & Hend & He & Hf & Hlen & Hrest & Hc).
  cbn [hart executed fetched app List.length] in *. rewrite Z.add_0_l in Hc. subst counter.
  exists n, rest. repeat (split; [assumption|]). split; reflexivity.
Qed.
End Simulator.

Arguments mkRun {HartState Instr} hart fetched executed.
Arguments hart {HartState Instr} r.
Arguments fetched {HartState Instr} r.
Arguments executed {HartState Instr} r.
Arguments mkOutput {HartState Instr} result cout cerr.
Arguments result {HartState Instr} r.
Arguments cout {HartState Instr} r.
Arguments cerr {HartState Instr} r.
Arguments RunInstr {HartState Instr} getPC loadInstr DecodeInstr executor_RunInstr s.
Arguments RunImpl {HartState Instr} getPC loadInstr DecodeInstr executor_RunInstr
  duration fuel mode need_to_measure s.
Arguments cycles {HartState Instr} getPC loadInstr DecodeInstr executor_RunInstr n s.

(** * Instances with 4 KiB pages *)

(** ** Address translation *)

Lemma translation_split_roundtrip_witness :
  0 < 12 < 64 /\ is_u64 74565 /\ 0 <= 18 < 2 ^ (64 - 12) /\ 0 <= 837 < SIZE 12 /\
  GetPointer 12 (GetPageIdByAddress 12 74565) (GetPageOffsetByAddress 12 74565) = 74565 /\
  GetPageIdByAddress 12 (GetPointer 12 18 837) = 18 /\
  GetPageOffsetByAddress 12 (GetPointer 12 18 837) = 837.
Proof.
  assert (H12 : 0 < 12 < 64) by lia.
  assert (Ha : is_u64 74565) by (unfold is_u64; lia).
  assert (Hp : 0 <= 18 < 2 ^ (64 - 12)) by (simpl; lia).
  assert (Ho : 0 <= 837 < SIZE 12) by (vm_compute; split; congruence).
  repeat (split; [assumption|]).
  exact (translation_split_roundtrip 12 H12 74565 18 837 Ha Hp Ho).
Defined.

(** C10 (as stated) fails: the pair [(2^52, 0)] has its offset within a
    page, yet [GetPointer] maps it to address [0], whose page identifier is
    [0]. *)
Lemma translation_page_id_counterexample :
  0 <= 0 < SIZE 12 /\
  GetPageIdByAddress 12 (GetPointer 12 (2 ^ 52) 0) <> 2 ^ 52.
Proof. split; [vm_compute; split; congruence | vm_compute; congruence]. Qed.

(** ** Byte and multi-byte accesses *)

Lemma StoreByte_LoadByte_roundtrip_witness :
  0 < 12 < 64 /\ wf 12 CreateVirtualMem /\ is_byte 171 /\
  touchable 12 (GetPageIdByAddress 12 65536) CreateVirtualMem = true /\
  exists ram', runs_to (StoreByte 12 65536 171) CreateVirtualMem tt ram' /\
               runs_to (LoadByte 12 65536) ram' 171 ram'.
Proof.
  assert (H12 : 0 < 12 < 64) by lia.
  assert (Hwf : wf 12 CreateVirtualMem) by apply wf_CreatePhysMem.
  assert (Hv : is_byte 171) by (unfold is_byte; lia).
  assert (Ht : touchable 12 (GetPageIdByAddress 12 65536) CreateVirtualMem = true)
    by (vm_compute; reflexivity).
  repeat (split; [assumption|]).
  exact (StoreByte_LoadByte_roundtrip 12 H12 CreateVirtualMem 65536 171 Hwf Hv Ht).
Defined.


(** C2 fails for the stores: the fast path has no [return], so a store
    whose width fits the page makes its single access and then takes the
    byte-decomposition path as well.  [StoreTwoBytesFast(0, 0x1234)] makes
    three accesses, [StoreEightBytesFast(0, ...)] fifteen. *)
Theorem store_fast_path_falls_through :
  (exists ram',
     StoreTwoBytesFast 12 0 4660 CreateVirtualMem =
     Ok tt ram' [Write 2 (PhysPtr 0 0) 4660;
                 Write 1 (PhysPtr 0 0) 52;
                 Write 1 (PhysPtr 0 1) 18]) /\
  (exists ram' log,
     StoreEightBytesFast 12 0 1234605616436508552 CreateVirtualMem = Ok tt ram' log /\
     AtOnePage 12 (GetPageOffsetByAddress 12 0) 8 = true /\
     length log = 15%nat /\
     log <> [Write 8 (PhysPtr 0 0) 1234605616436508552]).
Proof.
  split.
  - eexists. vm_compute. reflexivity.
  - eexists _, _. split; [vm_compute; reflexivity|].
    split; [reflexivity|]. split; [reflexivity|]. discriminate.
Qed.

(** ** Occupancy bookkeeping *)

(** C3 fails where a sequence reaches page 1: on a new [VirtualMem],
    [StoreByteSequence(0x1000, {chr}, 1)], and likewise the ten bytes
    stored from [0xFFA] on across the boundary of pages 0 and 1, are
    stored, and then the call never leaves [IncrementOccupiedValue],
    whatever number of iterations it is given. *)
Theorem StoreByteSequence_hangs_at_page_1 fuel chr :
  StoreByteSequence 12 fuel 4096 (Some [chr]) 1 CreateVirtualMem = OutOfFuel /\
  StoreByteSequence 12 fuel 4090 (Some [1; 2; 3; 4; 5; 6; 7; 8; 9; 10]) 10
    CreateVirtualMem = OutOfFuel.
Proof.
  split.
  - apply (StoreByteSequence_page_1_stuck 12 ltac:(lia) fuel CreateVirtualMem chr).
    + reflexivity.
    + vm_compute. reflexivity.
  - rewrite StoreByteSequence_non_null.
    erewrite bind_Ok by (vm_compute; reflexivity).
    rewrite bind_OutOfFuel; [reflexivity|].
    eapply (IncrementOccupiedValue_crossing 12 ltac:(lia));
      try (vm_compute; reflexivity); vm_compute; intuition congruence.
Qed.

(** C5 fails at the first address of page 2: on a new [VirtualMem],
    [StoreByteSequence(0x2000, {0x13}, 1)] returns with the free pointer of
    page 2 at [0x2001], beyond the page size [0x1000]. *)
Theorem free_pointer_exceeds_page_size :
  SIZE 12 = 4096 /\
  match StoreByteSequence 12 2 8192 (Some [19]) 1 CreateVirtualMem with
  | Ok true ram' _ => free_mem_ptr_ <$> pages_ ram' !! 2 = Some 8193
  | _ => False
  end.
Proof. split; [reflexivity|]. vm_compute. reflexivity. Qed.

(** ** The ELF loader *)

Lemma StoreElfFile_rejects_mismatch_witness :
  open_ok x86_64_file = true /\ elf_version_ok x86_64_file = true /\
  elf_begin_ok x86_64_file = true /\
  gelf_getehdr x86_64_file = Some x86_64_ehdr /\
  (nth EI_MAG0 (e_ident x86_64_ehdr) 0 <> ELFMAG0 \/
   nth EI_MAG1 (e_ident x86_64_ehdr) 0 <> ELFMAG1 \/
   nth EI_MAG2 (e_ident x86_64_ehdr) 0 <> ELFMAG2 \/
   nth EI_MAG3 (e_ident x86_64_ehdr) 0 <> ELFMAG3 \/
   nth EI_CLASS (e_ident x86_64_ehdr) 0 <> ELFCLASS64 \/
   nth EI_DATA (e_ident x86_64_ehdr) 0 <> ELFDATA2LSB \/
   e_machine x86_64_ehdr <> EM_RISCV) /\
  exists actual expected offset value,
    In (actual, expected, offset, value) (header_checks x86_64_ehdr) /\
    actual <> expected /\
    StoreElfFile 12 doubling_growth 8 "a.out" x86_64_file CreateVirtualMem =
    Thrown (RuntimeError (mismatch_message offset value)) CreateVirtualMem.
Proof.
  assert (Hbad : nth EI_MAG0 (e_ident x86_64_ehdr) 0 <> ELFMAG0 \/
                 nth EI_MAG1 (e_ident x86_64_ehdr) 0 <> ELFMAG1 \/
                 nth EI_MAG2 (e_ident x86_64_ehdr) 0 <> ELFMAG2 \/
                 nth EI_MAG3 (e_ident x86_64_ehdr) 0 <> ELFMAG3 \/
                 nth EI_CLASS (e_ident x86_64_ehdr) 0 <> ELFCLASS64 \/
                 nth EI_DATA (e_ident x86_64_ehdr) 0 <> ELFDATA2LSB \/
                 e_machine x86_64_ehdr <> EM_RISCV)
    by (do 6 right; vm_compute; congruence).
  repeat (split; [reflexivity || exact Hbad|]).
  exact (StoreElfFile_rejects_mismatch 12 doubling_growth 8 "a.out" x86_64_file x86_64_ehdr
           CreateVirtualMem eq_refl eq_refl eq_refl eq_refl Hbad).
Defined.

(** C6 (as stated) fails: a LOAD header whose [p_filesz] (2) is larger than
    its [p_memsz] (1) is not skipped; its two bytes are stored at
    [p_vaddr]. *)
Lemma StoreElfFile_loads_filesz_above_memsz :
  p_type short_memsz_phdr = PT_LOAD /\
  p_memsz short_memsz_phdr < p_filesz short_memsz_phdr /\
  match StoreElfFile 12 doubling_growth 8 "a.out" short_memsz_file CreateVirtualMem with
  | Ok entry ram' log =>
      log = [Write 1 (PhysPtr 0 16) 19; Write 1 (PhysPtr 0 17) 5] /\
      cell 12 ram' 16 = Some 19 /\ cell 12 ram' 17 = Some 5
  | _ => False
  end.
Proof.
  split; [reflexivity|]. split; [vm_compute; reflexivity|].
  vm_compute. repeat split; reflexivity.
Qed.

Lemma segment_in_file_doubling file phdr :
  0 <= p_offset phdr -> 0 <= p_filesz phdr < 2 ^ 63 ->
  p_offset phdr + p_filesz phdr <= Z.of_nat (length (file_bytes file)) ->
  pread_ret file (p_filesz phdr) (p_offset phdr) = p_filesz phdr ->
  segment_in_file doubling_growth file phdr.
Proof.
  intros Hoff Hsz Hend Hret. do 4 (split; [assumption || lia|]).
  intros size. unfold doubling_growth.
  destruct (Z.ltb_spec (Z.of_nat (Z.to_nat (p_filesz phdr))) (2 ^ 63)); [eauto|lia].
Qed.

Lemma StoreElfFile_loads_LOAD_segments_witness :
  open_ok three_phdrs_file = true /\ elf_version_ok three_phdrs_file = true /\
  elf_begin_ok three_phdrs_file = true /\
  gelf_getehdr three_phdrs_file = Some riscv_ehdr /\ header_matches riscv_ehdr /\
  program_headers three_phdrs_file = Some (Some <$> three_phdrs) /\
  Forall (segment_in_file doubling_growth three_phdrs_file)
         (filter is_LOAD three_phdrs) /\
  first_LOAD_has_bytes three_phdrs /\
  StoreElfFile 12 doubling_growth 8 "a.out" three_phdrs_file CreateVirtualMem =
  (store_segments 12 8 three_phdrs_file (filter is_LOAD three_phdrs) ;;;
   ret (e_entry riscv_ehdr)) CreateVirtualMem.
Proof.
  assert (Hok : header_matches riscv_ehdr) by reflexivity.
  assert (Hin : Forall (segment_in_file doubling_growth three_phdrs_file)
                       (filter is_LOAD three_phdrs)).
  { repeat (apply Forall_cons_2;
              [apply segment_in_file_doubling; vm_compute; intuition congruence|]).
    apply Forall_nil_2. }
  assert (Hfirst : first_LOAD_has_bytes three_phdrs) by reflexivity.
  do 8 (split; [reflexivity || assumption|]).
  exact (StoreElfFile_loads_LOAD_segments 12 doubling_growth 8 "a.out"
           three_phdrs_file riscv_ehdr three_phdrs CreateVirtualMem
           eq_refl eq_refl eq_refl eq_refl Hok eq_refl Hin Hfirst).
Defined.

(** ** The hart *)

(** C8 fails for the run-to-completion loop: it is a [do ... while], so
    entered with the program counter at 0 it fetches at address 0 (and
    executes what it fetched) before it tests the program counter, where
    the single step returns 1 without a fetch. *)
Theorem RunImpl_fetches_at_sentinel :
  RunInstr pc_of fetch_at decode_raw exec_halt 0 = (1, mkRun 0 [] []) /\
  RunImpl pc_of fetch_at decode_raw exec_halt 0 1 SIMPLE false 0 =
  Some (mkOutput (mkRun 0 [0] [0]) [] []).
Proof. split; reflexivity. Qed.

Lemma RunImpl_simple_counts_instructions_witness :
  (0 < 5 <= 8)%nat /\ Z.of_nat 5 < 2 ^ 64 /\
  (forall i, (0 < i < 5)%nat ->
             pc_of (cycles pc_of fetch_at decode_raw exec_straight i 4) <> 0) /\
  pc_of (cycles pc_of fetch_at decode_raw exec_straight 5 4) = 0 /\
  exists out,
    RunImpl pc_of fetch_at decode_raw exec_straight 1250 8 SIMPLE true 4 =
      Some out /\
    hart (result out) =
      cycles pc_of fetch_at decode_raw exec_straight 5 4 /\
    length (executed (result out)) = 5%nat /\
    cout out = [AmountOfExecutedInstructions (Z.of_nat 5);
                    ExecutionTime 1250;
                    MIPS (Z.of_nat 5) 1250] /\
    (length (cout out) = 3%nat <-> true = true) /\
    (cout out = [] <-> true = false).
Proof.
  assert (Hn : (0 < 5 <= 8)%nat) by lia.
  assert (Hsmall : Z.of_nat 5 < 2 ^ 64) by (simpl; lia).
  assert (Hrun : forall i, (0 < i < 5)%nat ->
            pc_of (cycles pc_of fetch_at decode_raw exec_straight i 4) <> 0).
  { intros i Hi.
    destruct i as [|[|[|[|[|i]]]]]; try lia; vm_compute; congruence. }
  assert (Hend : pc_of (cycles pc_of fetch_at decode_raw exec_straight 5 4) = 0)
    by reflexivity.
  repeat (split; [assumption|]).
  exact (RunImpl_simple_counts_instructions Z Z pc_of fetch_at decode_raw
           exec_straight 1250 5 8 true 4 Hn Hsmall Hrun Hend).
Defined.

(** * Further instances with 4 KiB pages *)

Arguments RunInstr_times {HartState Instr} getPC loadInstr DecodeInstr
  executor_RunInstr n r.

(** ** Address translation *)

Lemma translation_bounded_injective_witness :
  0 < 12 < 64 /\ is_u64 74565 /\ is_u64 4096 /\
  0 <= GetPageIdByAddress 12 74565 < 2 ^ (64 - 12) /\
  0 <= GetPageOffsetByAddress 12 74565 < SIZE 12 /\
  (GetPageIdByAddress 12 74565 = GetPageIdByAddress 12 4096 ->
   GetPageOffsetByAddress 12 74565 = GetPageOffsetByAddress 12 4096 ->
   74565 = 4096).
Proof.
  assert (H12 : 0 < 12 < 64) by lia.
  assert (Ha : is_u64 74565) by (unfold is_u64; lia).
  assert (Hb : is_u64 4096) by (unfold is_u64; lia).
  do 3 (split; [assumption|]).
  exact (translation_bounded_injective 12 H12 74565 4096 Ha Hb).
Defined.

Lemma translation_of_following_addresses_witness :
  0 < 12 < 64 /\ 0 <= 6 /\
  (GetPageOffsetByAddress 12 4090 + 6 < SIZE 12 ->
   GetPageIdByAddress 12 (u64 (4090 + 6)) = GetPageIdByAddress 12 4090 /\
   GetPageOffsetByAddress 12 (u64 (4090 + 6)) = GetPageOffsetByAddress 12 4090 + 6) /\
  (GetPageOffsetByAddress 12 4090 + 6 = SIZE 12 ->
   GetPageIdByAddress 12 (u64 (4090 + 6)) =
     (GetPageIdByAddress 12 4090 + 1) mod 2 ^ (64 - 12) /\
   GetPageOffsetByAddress 12 (u64 (4090 + 6)) = 0).
Proof.
  assert (H12 : 0 < 12 < 64) by lia.
  assert (Hj : 0 <= 6) by lia.
  do 2 (split; [assumption|]).
  exact (translation_of_following_addresses 12 H12 4090 6 Hj).
Defined.

(** ** Loads and stores *)

Lemma load_from_uncommitted_page_witness :
  0 < 12 < 64 /\
  pages_ CreateVirtualMem !! GetPageIdByAddress 12 4095 = None /\ 0 < 1 /\
  LoadByte 12 4095 CreateVirtualMem = Aborted /\
  fails_without_storing (LoadByteSequence 12 4095 1) CreateVirtualMem /\
  LoadTwoBytesFast 12 4095 CreateVirtualMem =
    (if AtOnePage 12 (GetPageOffsetByAddress 12 4095) 2
     then Thrown PageFault CreateVirtualMem else Aborted) /\
  LoadFourBytesFast 12 4095 CreateVirtualMem =
    (if AtOnePage 12 (GetPageOffsetByAddress 12 4095) 2
     then Thrown PageFault CreateVirtualMem else Aborted) /\
  LoadEightBytesFast 12 4095 CreateVirtualMem =
    (if AtOnePage 12 (GetPageOffsetByAddress 12 4095) 2
     then Thrown PageFault CreateVirtualMem else Aborted).
Proof.
  assert (H12 : 0 < 12 < 64) by lia.
  assert (Hpg : pages_ CreateVirtualMem !! GetPageIdByAddress 12 4095 = None)
    by reflexivity.
  assert (Hlen : 0 < 1) by lia.
  do 3 (split; [assumption|]).
  exact (load_from_uncommitted_page 12 H12 4095 1 CreateVirtualMem Hpg Hlen).
Defined.

Lemma store_beyond_capacity_witness :
  0 < 12 < 64 /\
  pages_ (CreatePhysMem 4095) !! GetPageIdByAddress 12 0 = None /\
  capacity_ (CreatePhysMem 4095) <
    (Z.of_nat (size (pages_ (CreatePhysMem 4095))) + 1) * SIZE 12 /\
  0 < 1 /\
  StoreByte 12 0 7 (CreatePhysMem 4095) = Aborted /\
  StoreByteSequence 12 2 0 (Some [7]) 1 (CreatePhysMem 4095) = Aborted /\
  fails_without_storing (StoreTwoBytesFast 12 0 7) (CreatePhysMem 4095) /\
  fails_without_storing (StoreFourBytesFast 12 0 7) (CreatePhysMem 4095) /\
  fails_without_storing (StoreEightBytesFast 12 0 7) (CreatePhysMem 4095).
Proof.
  assert (H12 : 0 < 12 < 64) by lia.
  assert (Hpg : pages_ (CreatePhysMem 4095) !! GetPageIdByAddress 12 0 = None)
    by reflexivity.
  assert (Hcap : capacity_ (CreatePhysMem 4095) <
                 (Z.of_nat (size (pages_ (CreatePhysMem 4095))) + 1) * SIZE 12)
    by (vm_compute; reflexivity).
  assert (Hlen : 0 < 1) by lia.
  do 4 (split; [assumption|]).
  exact (store_beyond_capacity 12 H12 2 0 7 (Some [7]) 1 (CreatePhysMem 4095) Hpg Hcap Hlen).
Defined.

Lemma stores_respect_capacity_witness :
  0 < 12 < 64 /\ wf 12 CreateVirtualMem /\
  Z.of_nat (size (pages_ CreateVirtualMem)) * SIZE 12 <= capacity_ CreateVirtualMem /\
  forall ram',
    (exists addr value, runs_to (StoreByte 12 addr value) CreateVirtualMem tt ram') \/
    (exists addr value,
        runs_to (StoreTwoBytesFast 12 addr value) CreateVirtualMem tt ram') \/
    (exists addr value,
        runs_to (StoreFourBytesFast 12 addr value) CreateVirtualMem tt ram') \/
    (exists addr value,
        runs_to (StoreEightBytesFast 12 addr value) CreateVirtualMem tt ram') \/
    (exists fuel addr chrs length b,
        runs_to (StoreByteSequence 12 fuel addr chrs length) CreateVirtualMem b ram') ->
    Z.of_nat (size (pages_ ram')) * SIZE 12 <= capacity_ ram' /\
    pages_kept CreateVirtualMem ram'.
Proof.
  assert (H12 : 0 < 12 < 64) by lia.
  assert (Hwf : wf 12 CreateVirtualMem) by apply wf_CreatePhysMem.
  assert (Hcap : Z.of_nat (size (pages_ CreateVirtualMem)) * SIZE 12
                 <= capacity_ CreateVirtualMem)
    by (vm_compute; congruence).
  do 3 (split; [assumption|]).
  exact (stores_respect_capacity 12 H12 CreateVirtualMem Hwf Hcap).
Defined.

Lemma wf_page_0_mem : wf 12 page_0_mem.
Proof.
  intros page_id pg H. unfold page_0_mem in H. cbn [pages_] in H.
  apply lookup_singleton_Some in H as [_ <-]. vm_compute. reflexivity.
Qed.

Lemma StoreByte_leaves_other_addresses_witness :
  0 < 12 < 64 /\ wf 12 page_0_mem /\ is_u64 5 /\ is_u64 9 /\ 5 <> 9 /\
  runs_to (LoadByte 12 9) page_0_mem 0 page_0_mem /\
  runs_to (StoreByte 12 5 7) page_0_mem tt page_0_with_byte /\
  runs_to (LoadByte 12 9) page_0_with_byte 0 page_0_with_byte.
Proof.
  assert (H12 : 0 < 12 < 64) by lia.
  assert (Hwf : wf 12 page_0_mem) by exact wf_page_0_mem.
  assert (Ha : is_u64 5) by (unfold is_u64; lia).
  assert (Ha' : is_u64 9) by (unfold is_u64; lia).
  assert (Hne : 5 <> 9) by lia.
  assert (Hload : runs_to (LoadByte 12 9) page_0_mem 0 page_0_mem)
    by (eexists; vm_compute; reflexivity).
  assert (Hstore : runs_to (StoreByte 12 5 7) page_0_mem tt page_0_with_byte)
    by (eexists; vm_compute; reflexivity).
  do 7 (split; [assumption|]).
  exact (StoreByte_leaves_other_addresses 12 H12 page_0_mem 5 9 7 0 page_0_with_byte
           Hwf Ha Ha' Hne Hload Hstore).
Defined.

Lemma StoreByte_order_is_irrelevant_witness :
  0 < 12 < 64 /\ is_u64 5 /\ is_u64 4096 /\ 5 <> 4096 /\
  (runs_to (StoreByte 12 5 7 ;;; StoreByte 12 4096 9) page_0_mem tt page_0_with_byte <->
   runs_to (StoreByte 12 4096 9 ;;; StoreByte 12 5 7) page_0_mem tt page_0_with_byte).
Proof.
  assert (H12 : 0 < 12 < 64) by lia.
  assert (Ha : is_u64 5) by (unfold is_u64; lia).
  assert (Hb : is_u64 4096) by (unfold is_u64; lia).
  assert (Hne : 5 <> 4096) by lia.
  do 4 (split; [assumption|]).
  exact (StoreByte_order_is_irrelevant 12 H12 page_0_mem 5 4096 7 9 page_0_with_byte
           Ha Hb Hne).
Defined.


(** ** Byte sequences *)

Lemma StoreByteSequence_within_page_0_witness :
  0 < 12 < 64 /\ (2 <= 2)%nat /\ wf 12 CreateVirtualMem /\
  touchable 12 0 CreateVirtualMem = true /\
  (forall pg, pages_ CreateVirtualMem !! 0 = Some pg ->
              0 <= free_mem_ptr_ pg <= SIZE 12) /\
  Forall is_byte [19; 5; 0] /\ Z.to_nat 3 = List.length [19; 5; 0] /\
  0 <= 16 /\ 0 < 3 /\ 16 + 3 <= SIZE 12 /\
  exists ram' pg',
    runs_to (StoreByteSequence 12 2 16 (Some [19; 5; 0]) 3) CreateVirtualMem true ram' /\
    runs_to (LoadByteSequence 12 16 3) ram' [19; 5; 0] ram' /\
    pages_ ram' !! 0 = Some pg' /\
    free_mem_ptr_ pg' =
      Z.max (free_mem_ptr_ (default (new_page 12) (pages_ CreateVirtualMem !! 0)))
            (16 + 3) /\
    free_mem_ptr_ pg' <= SIZE 12.
Proof.
  assert (H12 : 0 < 12 < 64) by lia.
  assert (Hfuel : (2 <= 2)%nat) by lia.
  assert (Hwf : wf 12 CreateVirtualMem) by apply wf_CreatePhysMem.
  assert (Ht : touchable 12 0 CreateVirtualMem = true) by (vm_compute; reflexivity).
  assert (Hptr : forall pg, pages_ CreateVirtualMem !! 0 = Some pg ->
                            0 <= free_mem_ptr_ pg <= SIZE 12)
    by (intros pg Hpg; discriminate Hpg).
  assert (Hbytes : Forall is_byte [19; 5; 0])
    by (repeat constructor; unfold is_byte; lia).
  assert (Hlen : Z.to_nat 3 = List.length [19; 5; 0]) by reflexivity.
  assert (Haddr : 0 <= 16) by lia.
  assert (Hpos : 0 < 3) by lia.
  assert (Hend : 16 + 3 <= SIZE 12) by (vm_compute; congruence).
  do 10 (split; [assumption|]).
  exact (StoreByteSequence_within_page_0 12 H12 2 CreateVirtualMem 16 [19; 5; 0] 3
           Hfuel Hwf Ht Hptr Hbytes Hlen Haddr Hpos Hend).
Defined.

Lemma StoreByteSequence_leaves_other_addresses_witness :
  0 < 12 < 64 /\ wf 12 page_0_mem /\ is_u64 9 /\
  (forall j, 0 <= j < 3 -> 9 <> u64 (16 + j)) /\
  runs_to (LoadByte 12 9) page_0_mem 0 page_0_mem /\
  runs_to (StoreByteSequence 12 2 16 (Some [19; 5; 0]) 3) page_0_mem true
          page_0_with_sequence /\
  runs_to (LoadByte 12 9) page_0_with_sequence 0 page_0_with_sequence.
Proof.
  assert (H12 : 0 < 12 < 64) by lia.
  assert (Hwf : wf 12 page_0_mem) by exact wf_page_0_mem.
  assert (Hx : is_u64 9) by (unfold is_u64; lia).
  assert (Hout : forall j, 0 <= j < 3 -> 9 <> u64 (16 + j))
    by (intros j Hj; unfold u64; rewrite Z.mod_small by lia; lia).
  assert (Hload : runs_to (LoadByte 12 9) page_0_mem 0 page_0_mem)
    by (eexists; vm_compute; reflexivity).
  assert (Hrun : runs_to (StoreByteSequence 12 2 16 (Some [19; 5; 0]) 3) page_0_mem true
                         page_0_with_sequence)
    by (eexists; vm_compute; reflexivity).
  do 6 (split; [assumption|]).
  exact (StoreByteSequence_leaves_other_addresses 12 H12 2 page_0_mem 16
           (Some [19; 5; 0]) 3
           9 0 true page_0_with_sequence Hwf Hx Hout Hload Hrun).
Defined.

(** ** The ELF loader *)

Lemma validateElfHeader_names_first_mismatch_witness :
  header_checks elf32_i386_ehdr =
    take 4 (header_checks elf32_i386_ehdr) ++
    (1, 2, "e_ident[EI_CLASS]"%string, "ELFCLASS64"%string)
    :: drop 5 (header_checks elf32_i386_ehdr) /\
  Forall (fun check => mismatched check = false)
         (take 4 (header_checks elf32_i386_ehdr)) /\
  1 <> 2 /\
  validateElfHeader elf32_i386_ehdr CreateVirtualMem =
  Thrown (RuntimeError
            ("e_ident[EI_CLASS]" +:+ " != " +:+ "ELFCLASS64" +:+
             " in elf header we don't support it"))
         CreateVirtualMem.
Proof.
  assert (Hchecks : header_checks elf32_i386_ehdr =
                    take 4 (header_checks elf32_i386_ehdr) ++
                    (1, 2, "e_ident[EI_CLASS]"%string, "ELFCLASS64"%string)
                    :: drop 5 (header_checks elf32_i386_ehdr))
    by reflexivity.
  assert (Hbefore : Forall (fun check => mismatched check = false)
                           (take 4 (header_checks elf32_i386_ehdr)))
    by (repeat constructor).
  assert (Hne : 1 <> 2) by lia.
  do 3 (split; [assumption|]).
  exact (validateElfHeader_names_first_mismatch elf32_i386_ehdr CreateVirtualMem
           _ 1 2 _ _ _ Hchecks Hbefore Hne).
Defined.

Lemma StoreElfFile_rejects_before_storing_witness :
  (open_ok missing_file = false \/ elf_version_ok missing_file = false \/
   elf_begin_ok missing_file = false \/ gelf_getehdr missing_file = None \/
   (exists ehdr, gelf_getehdr missing_file = Some ehdr /\ ~ supported_header ehdr) \/
   program_headers missing_file = None) /\
  (exists what,
     StoreElfFile 12 doubling_growth 8 "a.out" missing_file CreateVirtualMem =
     Thrown (RuntimeError what) CreateVirtualMem) /\
  (open_ok missing_file = false ->
   StoreElfFile 12 doubling_growth 8 "a.out" missing_file CreateVirtualMem =
   Thrown (RuntimeError ("cannot open file failed " +:+ "a.out")) CreateVirtualMem).
Proof.
  assert (Hfail : open_ok missing_file = false \/ elf_version_ok missing_file = false \/
                  elf_begin_ok missing_file = false \/
                  gelf_getehdr missing_file = None \/
                  (exists ehdr, gelf_getehdr missing_file = Some ehdr /\
                                ~ supported_header ehdr) \/
                  program_headers missing_file = None)
    by (left; reflexivity).
  split; [exact Hfail|].
  exact (StoreElfFile_rejects_before_storing 12 doubling_growth 8 "a.out" missing_file
           CreateVirtualMem Hfail).
Defined.

Lemma supported_riscv_ehdr : supported_header riscv_ehdr.
Proof. repeat split. Qed.

Lemma StoreElfFile_keeps_segments_stored_before_failure_witness :
  open_ok broken_table_file = true /\ elf_version_ok broken_table_file = true /\
  elf_begin_ok broken_table_file = true /\
  gelf_getehdr broken_table_file = Some riscv_ehdr /\ supported_header riscv_ehdr /\
  program_headers broken_table_file =
    Some ((Some <$> [first_phdr]) ++ None :: [Some third_phdr]) /\
  Forall (segment_in_file doubling_growth broken_table_file)
         (filter is_LOAD [first_phdr]) /\
  first_LOAD_has_bytes [first_phdr] /\
  runs_to (store_segments 12 8 broken_table_file (filter is_LOAD [first_phdr]))
          CreateVirtualMem tt first_segment_stored /\
  StoreElfFile 12 doubling_growth 8 "a.out" broken_table_file CreateVirtualMem =
  Thrown (RuntimeError ("gelf_getphdr() failed: " +:+ elf_errmsg broken_table_file))
         first_segment_stored.
Proof.
  assert (Hok : supported_header riscv_ehdr) by exact supported_riscv_ehdr.
  assert (Hin : Forall (segment_in_file doubling_growth broken_table_file)
                       (filter is_LOAD [first_phdr])).
  { repeat (apply Forall_cons_2;
              [apply segment_in_file_doubling; vm_compute; intuition congruence|]).
    apply Forall_nil_2. }
  assert (Hfirst : first_LOAD_has_bytes [first_phdr]) by reflexivity.
  assert (Hrun : runs_to (store_segments 12 8 broken_table_file
                            (filter is_LOAD [first_phdr]))
                         CreateVirtualMem tt first_segment_stored)
    by (eexists; vm_compute; reflexivity).
  do 9 (split; [reflexivity || assumption|]).
  exact (StoreElfFile_keeps_segments_stored_before_failure 12 doubling_growth 8
           "a.out" broken_table_file riscv_ehdr [first_phdr] [Some third_phdr]
           CreateVirtualMem first_segment_stored
           eq_refl eq_refl eq_refl eq_refl Hok eq_refl Hin Hfirst Hrun).
Defined.

Lemma StoreElfFile_pads_first_segment_witness :
  open_ok truncated_table_file = true /\ elf_version_ok truncated_table_file = true /\
  elf_begin_ok truncated_table_file = true /\
  gelf_getehdr truncated_table_file = Some riscv_ehdr /\
  supported_header riscv_ehdr /\
  program_headers truncated_table_file =
    Some ((Some <$> [mkPhdr 6 0 0 56 56]) ++ Some truncated_phdr :: [Some first_phdr]) /\
  Forall (fun phdr => p_type phdr <> PT_LOAD) [mkPhdr 6 0 0 56 56] /\
  p_type truncated_phdr = PT_LOAD /\ 0 < p_filesz truncated_phdr /\
  doubling_growth 0 (Z.to_nat (p_filesz truncated_phdr)) = Some [] /\
  List.length (padded_segment truncated_table_file truncated_phdr) =
    Z.to_nat (p_filesz truncated_phdr) /\
  StoreElfFile 12 doubling_growth 8 "a.out" truncated_table_file CreateVirtualMem =
  (StoreByteSequence 12 8 (p_vaddr truncated_phdr)
     (Some (padded_segment truncated_table_file truncated_phdr))
     (p_filesz truncated_phdr) ;;;
   load_segments 12 doubling_growth 8 truncated_table_file [Some first_phdr]
     (mkVector (padded_segment truncated_table_file truncated_phdr ++ [])
               (Z.to_nat (p_filesz truncated_phdr))) ;;;
   ret (e_entry riscv_ehdr)) CreateVirtualMem.
Proof.
  assert (Hok : supported_header riscv_ehdr) by exact supported_riscv_ehdr.
  assert (Hbefore : Forall (fun phdr => p_type phdr <> PT_LOAD) [mkPhdr 6 0 0 56 56])
    by (apply Forall_cons_2; [vm_compute; congruence|apply Forall_nil_2]).
  assert (Hsz : 0 < p_filesz truncated_phdr) by reflexivity.
  do 10 (split; [reflexivity || assumption|]).
  exact (StoreElfFile_pads_first_segment 12 doubling_growth 8 "a.out"
           truncated_table_file riscv_ehdr [mkPhdr 6 0 0 56 56] truncated_phdr
           [Some first_phdr] [] CreateVirtualMem
           eq_refl eq_refl eq_refl eq_refl Hok eq_refl Hbefore eq_refl Hsz eq_refl).
Defined.

(** ** The hart *)

Lemma RunImpl_is_repeated_RunInstr_witness :
  pc_of 4 <> 0 /\
  ((exists out,
      RunImpl pc_of fetch_at decode_raw exec_straight 1250 8 SIMPLE true 4 = Some out /\
      result out = mkRun 0 [4; 8; 12; 16; 20] [4; 8; 12; 16; 20]) <->
   (exists n, (n <= 8)%nat /\
      RunInstr_times pc_of fetch_at decode_raw exec_straight n (mkRun 4 [] []) =
        (replicate n 0, mkRun 0 [4; 8; 12; 16; 20] [4; 8; 12; 16; 20]) /\
      fst (RunInstr pc_of fetch_at decode_raw exec_straight
             (hart (mkRun 0 [4; 8; 12; 16; 20] [4; 8; 12; 16; 20]))) = 1)).
Proof.
  assert (Hpc : pc_of 4 <> 0) by (vm_compute; congruence).
  split; [exact Hpc|].
  exact (RunImpl_is_repeated_RunInstr Z Z pc_of fetch_at decode_raw exec_straight
           1250 8 true 4 (mkRun 0 [4; 8; 12; 16; 20] [4; 8; 12; 16; 20]) Hpc).
Defined.

Lemma RunImpl_simple_run_shape_witness :
  RunImpl pc_of fetch_at decode_raw exec_straight 1250 8 SIMPLE true 4 =
    Some (mkOutput (mkRun 0 [4; 8; 12; 16; 20] [4; 8; 12; 16; 20])
            [AmountOfExecutedInstructions 5; ExecutionTime 1250; MIPS 5 1250] []) /\
  exists n rest,
    (1 <= n <= 8)%nat /\
    List.length [4; 8; 12; 16; 20] = n /\
    [4; 8; 12; 16; 20] = pc_of 4 :: rest /\
    List.length rest = (n - 1)%nat /\ Forall (fun pc => pc <> 0) rest /\
    0 = cycles pc_of fetch_at decode_raw exec_straight n 4 /\
    (forall i, (0 < i < n)%nat ->
               pc_of (cycles pc_of fetch_at decode_raw exec_straight i 4) <> 0) /\
    pc_of (cycles pc_of fetch_at decode_raw exec_straight n 4) = 0 /\
    [AmountOfExecutedInstructions 5; ExecutionTime 1250; MIPS 5 1250] =
      [AmountOfExecutedInstructions (u64 (Z.of_nat n));
       ExecutionTime 1250;
       MIPS (u64 (Z.of_nat n)) 1250] /\
    @nil string = [].
Proof.
  assert (Hrun : RunImpl pc_of fetch_at decode_raw exec_straight 1250 8 SIMPLE true 4 =
                 Some (mkOutput (mkRun 0 [4; 8; 12; 16; 20] [4; 8; 12; 16; 20])
                         [AmountOfExecutedInstructions 5; ExecutionTime 1250;
                          MIPS 5 1250] []))
    by reflexivity.
  split; [exact Hrun|].
  exact (RunImpl_simple_run_shape Z Z pc_of fetch_at decode_raw exec_straight
           1250 8 true 4 _ Hrun).
Defined.
